(** * R-GCN message propagation (poem/models/unimodal/rgcn.py)

    A shallow embedding of the R-GCN encoder: the neighbourhood selector
    [_get_neighborhood], the relation weight generator
    [RGCN._get_relation_weights], the argument validation of [RGCN.__init__],
    the propagation loop [RGCN._enrich_embeddings] with its embedding cache
    and the invalidation hook [RGCN.post_parameter_update]; then the
    allocation of the parameters ([RGCN.init_empty_weights_],
    [RGCN.clear_weights_]), the scoring methods, and the class [Pipeline] of
    poem/pipeline.py.

    Tensors are nested lists.  An index that PyTorch rejects (IndexError)
    makes the embedded operation return [None]; the shapes of the operands of
    [+], [*], [/] and [@] are those the parameters are allocated with.
    Arithmetic on tensor entries is kept abstract in the class [Scalar], so
    that no law of real numbers is used silently on floating-point values;
    the two laws of zero that some results need are asked for explicitly in
    [ScalarZero].  The random tensors of [torch.rand] are arguments.

    A write [l[idx] = vals] with an index that occurs twice keeps one of the
    values written to it, and PyTorch does not say which: [index_put] keeps
    the last, and the results that depend on the choice are stated for every
    kernel ([kernel_ok]).  The constructor as a whole, with the allocation of
    the weights after the checks, is [construct]. *)

From Stdlib Require Import ZArith String.
From Stdlib Require QArith.
From stdpp Require Import base decidable option numbers list strings gmap.

Local Open Scope string_scope.
Local Open Scope nat_scope.
Local Open Scope list_scope.
Local Open Scope stdpp_scope.

(** ** Tensor entries *)

(** What the propagation code needs from the entry type of its tensors. *)
Class Scalar (R : Type) := {
  R0 : R;                       (* the entry of [torch.zeros] *)
  Radd : R -> R -> R;           (* [+], [+=], [torch.sum], [index_add_] *)
  Rmul : R -> R -> R;           (* [*] and the products inside [@] *)
  Rdiv : R -> R -> R;           (* [/=] *)
  Rsqrt : R -> R;               (* [.sqrt()] *)
  Rofnat : nat -> R;            (* [.float()] of a count *)
  Rgtb : R -> R -> bool         (* [>] against a dropout rate *)
}.

(** Zero annihilates products and is neutral for sums. *)
Class ScalarZero (R : Type) `{Scalar R} := {
  Radd_0_l : forall x : R, Radd R0 x = x;
  Rmul_0_l : forall x : R, Rmul R0 x = R0
}.

#[export] Instance Z_Scalar : Scalar Z := {|
  R0 := 0%Z; Radd := Z.add; Rmul := Z.mul; Rdiv := Z.div; Rsqrt := Z.sqrt;
  Rofnat := Z.of_nat; Rgtb := Z.gtb |}.

#[export] Instance Z_ScalarZero : ScalarZero Z.
Proof. split; intros x; simpl; lia. Qed.

(** Rationals in lowest terms, for inputs that need draws from [0, 1).  The
    square root is taken of numerator and denominator and rounded down (it is
    exact on quotients of squares); the integers above round in the same
    way. *)
#[export] Instance Q_Scalar : Scalar QArith_base.Q := {|
  R0 := QArith_base.Qmake 0 1;
  Radd := fun a b => Qreduction.Qred (QArith_base.Qplus a b);
  Rmul := fun a b => Qreduction.Qred (QArith_base.Qmult a b);
  Rdiv := fun a b => Qreduction.Qred (QArith_base.Qdiv a b);
  Rsqrt := fun a => Qreduction.Qred
                      (QArith_base.Qmake (Z.sqrt (QArith_base.Qnum a))
                                         (Pos.sqrt (QArith_base.Qden a)));
  Rofnat := fun n => QArith_base.Qmake (Z.of_nat n) 1;
  Rgtb := fun a b => negb (QArith_base.Qle_bool a b) |}.

(** ** Tensor operations *)

(** Vectors and matrices over [R]: tensors of rank one and two. *)
Abbreviation vec R := (list R) (only parsing).
Abbreviation mat R := (list (list R)) (only parsing).

Section Tensor.
Context {R : Type} `{Scalar R}.

(** [torch.zeros(n, d)] *)
Definition zeros (n d : nat) : mat R := replicate n (replicate d R0).

(** [torch.zeros_like(x)] *)
Definition zeros_like (x : mat R) : mat R :=
  fmap (fun row : vec R => fmap (fun _ => R0) row) x.

Definition vec_add (u v : vec R) : vec R := zip_with Radd u v.
Definition mat_add (a b : mat R) : mat R := zip_with vec_add a b.
Definition vec_scale (a : R) (v : vec R) : vec R := fmap (Rmul a) v.
Definition mat_scale (a : R) (m : mat R) : mat R := fmap (vec_scale a) m.

Definition ncols (w : mat R) : nat :=
  match w with [] => 0 | row :: _ => length row end.

(** One row of [a @ w]: the sum over [j] of [v[j] * w[j, :]]. *)
Definition vec_mat (v : vec R) (w : mat R) : vec R :=
  fold_left vec_add (zip_with vec_scale v w) (replicate (ncols w) R0).

(** [a @ w] *)
Definition matmul (a w : mat R) : mat R := fmap (fun row => vec_mat row w) a.

(** [mat_shape n d m]: [m] is a tensor of shape [(n, d)]. *)
Definition mat_shape (n d : nat) (m : mat R) : Prop :=
  length m = n /\ Forall (fun row => length row = d) m.

(** Entry [(j, k)] of a matrix, when it has one. *)
Definition entry (m : mat R) (j k : nat) : option R :=
  row ← m !! j; row !! k.
End Tensor.

Section Indexing.
Context {A : Type}.

(** [l[idx]] for an index tensor: every index must be in range. *)
Definition index_select (l : list A) (idx : list nat) : option (list A) :=
  mapM (fun i => l !! i) idx.

Fixpoint masked (l : list A) (m : list bool) : list A :=
  match l, m with
  | x :: l', b :: m' => if b then x :: masked l' m' else masked l' m'
  | _, _ => []
  end.

(** [l[mask]] for a boolean mask: the mask must have the length of [l]. *)
Definition mask_select (l : list A) (m : list bool) : option (list A) :=
  if decide (length m = length l) then Some (masked l m) else None.

(** [l[idx] = vals] ([index_put_] without accumulation): one write per
    index.  Of the values written to an index that occurs more than once a
    single one stays, and PyTorch does not say which; here the writes happen
    one after the other, as in the serial CPU kernel, so the last one
    stays. *)
Fixpoint index_put (l : list A) (idx : list nat) (vals : list A)
  : option (list A) :=
  match idx, vals with
  | [], [] => Some l
  | i :: idx', v :: vals' =>
      if decide (i < length l) then index_put (<[i := v]> l) idx' vals'
      else None
  | _, _ => None
  end.

(** [l[mask] = vals]: the rows of [vals] go, in order, to the positions
    where the mask is set. *)
Fixpoint mask_put (l : list A) (m : list bool) (vals : list A)
  : option (list A) :=
  match l, m with
  | [], [] => match vals with [] => Some [] | _ => None end
  | x :: l', b :: m' =>
      if b then
        match vals with
        | v :: vals' => cons v <$> mask_put l' m' vals'
        | [] => None
        end
      else cons x <$> mask_put l' m' vals
  | _, _ => None
  end.
End Indexing.

(** Python's [range(0, stop, step)] for a positive step. *)
Definition range_step (stop step : nat) : list nat :=
  fmap (fun q => q * step) (seq 0 ((stop + step - 1) / step)).

(** [enumerate(l)] *)
Definition enumerate {A} (l : list A) : list (nat * A) :=
  zip (seq 0 (length l)) l.

(** A [for] loop whose body can raise: the first failure ends the loop. *)
Fixpoint foldlM {A B} (f : B -> A -> option B) (l : list A) (b : B)
  : option B :=
  match l with
  | [] => Some b
  | x :: l' => b' ← f b x; foldlM f l' b'
  end.

(** ** The neighbourhood selector *)

(** One round of the loop of [_get_neighborhood].  The statement
    [node_mask[sources] |= node_mask[targets]] reads [node_mask] at the
    sources, ors what it read at the targets into that copy, and writes the
    copy back through [node_mask[sources] = ...]. *)
Definition neighborhood_round (sources targets : list nat) (undirected : bool)
  (node_mask : list bool) : option (list bool) :=
  at_sources ← index_select node_mask sources;
  at_targets ← index_select node_mask targets;
  node_mask ← index_put node_mask sources (zip_with orb at_sources at_targets);
  if undirected then
    at_targets ← index_select node_mask targets;
    at_sources ← index_select node_mask sources;
    index_put node_mask targets (zip_with orb at_targets at_sources)
  else Some node_mask.

Definition get_neighborhood (start_nodes sources targets : list nat)
  (k num_nodes : nat) (undirected : bool) : option (list bool) :=
  (* Construct node neighbourhood mask *)
  let node_mask := replicate num_nodes false in
  (* Set nodes in batch to true *)
  node_mask ← index_put node_mask start_nodes
                 (replicate (length start_nodes) true);
  (* Compute k-neighbourhood *)
  node_mask ← foldlM (fun nm _ => neighborhood_round sources targets undirected nm)
                 (seq 0 k) node_mask;
  (* Create edge mask *)
  edge_mask ← index_select node_mask targets;
  if undirected then
    at_sources ← index_select node_mask sources;
    Some (zip_with orb edge_mask at_sources)
  else Some edge_mask.

(** The exact neighbourhood the selector approximates.  [reach k v]: node
    [v] is a start node, or [v] is the source of an edge whose target is
    reached in fewer steps (for an undirected graph also the target of an
    edge whose source is). *)
Fixpoint reach (start_nodes sources targets : list nat) (undirected : bool)
  (k : nat) (v : nat) : bool :=
  match k with
  | 0 => bool_decide (v ∈ start_nodes)
  | S k' =>
      reach start_nodes sources targets undirected k' v
      || existsb (fun '(s, t) =>
            (Nat.eqb s v && reach start_nodes sources targets undirected k' t)
            || (undirected && Nat.eqb t v
                && reach start_nodes sources targets undirected k' s))
           (zip sources targets)
  end.

(** The edges of the exact [k]-hop neighbourhood: those that deliver a
    message to a node reached within [k] steps. *)
Definition neighborhood_edges (start_nodes sources targets : list nat)
  (k : nat) (undirected : bool) : list bool :=
  fmap (fun '(s, t) =>
         reach start_nodes sources targets undirected k t
         || (undirected && reach start_nodes sources targets undirected k s))
      (zip sources targets).

(** ** Argument validation of [RGCN.__init__] *)

Module Init.

Inductive exn :=
  | ValueError (msg : string)
  | ZeroDivisionError.

Inductive result (A : Type) :=
  | Ok (a : A)
  | Raise (e : exn).
Arguments Ok {A} a.
Arguments Raise {A} e.

Definition bind {A B} (m : result A) (f : A -> result B) : result B :=
  match m with Ok a => f a | Raise e => Raise e end.

Notation "'perform' x <- m ; k" := (bind m (fun x => k))
  (at level 10, x name, m at level 100, k at level 200).

Definition raised {A} (m : result A) : bool :=
  match m with Ok _ => false | Raise _ => true end.

(** The arguments the checks of [__init__] read.  The integers are Python
    integers; [num_bases_or_blocks] and [message_normalization] may be
    [None]. *)
Record args := {
  create_inverse_triples : bool;   (* triples_factory.create_inverse_triples *)
  num_relations : Z;               (* triples_factory.num_relations *)
  embedding_dim : Z;
  num_bases_or_blocks : option Z;
  decomposition : string;
  message_normalization : option string;
  use_bias : bool;
  use_batch_norm : bool
}.

(** What the checks leave on [self]. *)
Record checked := {
  self_num_bases : Z;
  self_decomposition : string;
  self_message_normalization : option string;
  self_use_bias : bool;
  self_use_batch_norm : bool
}.

(** [a % b] *)
Definition py_mod (a b : Z) : result Z :=
  if decide (b = 0%Z) then Raise ZeroDivisionError else Ok (a mod b)%Z.

(** The [if]/[elif]/[else] on [self.decomposition]: the number of bases or
    blocks that ends in [self.num_bases]. *)
Definition check_decomposition (a : args) : result Z :=
  if String.eqb (decomposition a) "basis" then
    let n := match num_bases_or_blocks a with
             | None => (num_relations a / 2 + 1)%Z
             | Some n => n
             end in
    if (n >? num_relations a)%Z then
      Raise (ValueError "The number of bases should not exceed the number of relations.")
    else Ok n
  else if String.eqb (decomposition a) "block" then
    let n := match num_bases_or_blocks a with
             | None => 2%Z
             | Some n => n
             end in
    perform rem <- py_mod (embedding_dim a) n;
    if decide (rem ≠ 0%Z) then
      Raise (ValueError "With block decomposition, the embedding dimension has to be divisible by the number of blocks")
    else Ok n
  else Raise (ValueError "Unknown decomposition").

(** [message_normalization not in {None, 'symmetric', 'nonsymmetric'}] *)
Definition allowed_normalization (n : option string) : bool :=
  match n with
  | None => true
  | Some s => String.eqb s "symmetric" || String.eqb s "nonsymmetric"
  end.

Definition init (a : args) : result checked :=
  if create_inverse_triples a then
    Raise (ValueError "R-GCN handles edges in an undirected manner.")
  else
    perform n <- check_decomposition a;
    if negb (allowed_normalization (message_normalization a)) then
      Raise (ValueError "Unknown message normalization")
    else
      Ok {| self_num_bases := n;
            self_decomposition := decomposition a;
            self_message_normalization := message_normalization a;
            self_use_bias := if use_batch_norm a then false else use_bias a;
            self_use_batch_norm := use_batch_norm a |}.

(** The number of bases or blocks the checks work with: the argument, or the
    heuristic value when the argument is [None]. *)
Definition effective_num (a : args) : Z :=
  match num_bases_or_blocks a with
  | Some n => n
  | None => if String.eqb (decomposition a) "basis"
            then (num_relations a / 2 + 1)%Z else 2%Z
  end.

(** [d] is divisible by [n]: the division is defined and leaves no
    remainder. *)
Definition divisible_by (d n : Z) : Prop := n <> 0%Z /\ (d mod n = 0)%Z.

End Init.

(** ** The model state *)

Section Model.
Context {R : Type} `{Scalar R}.

(** One element of [self.bases]: in basis mode a tensor of shape
    [(num_bases, d, d)], in block mode one of shape
    [(num_relations + 1, num_bases, d / num_bases, d / num_bases)]. *)
Inductive layer_bases :=
  | BasisTensor (b : list (mat R))
  | BlockTensor (b : list (list (mat R))).

(** A batch-normalisation module: the rescaling it applies to a row, given
    the whole input (whose statistics it uses in training mode). *)
Definition batch_norm := mat R -> vec R -> vec R.

Record RGCN := {
  num_entities : nat;
  num_relations : nat;
  embedding_dim : nat;
  decomposition : string;
  num_bases : nat;
  num_layers : nat;
  message_normalization : option string;
  edge_dropout : option R;
  self_loop_dropout : option R;
  use_bias : bool;
  use_batch_norm : bool;
  buffer_messages : bool;
  training : bool;
  (* the graph: the columns of [mapped_triples] *)
  sources : list nat;
  targets : list nat;
  edge_types : list nat;
  (* parameters *)
  entity_embeddings : mat R;          (* base_model.entity_embeddings.weight *)
  bases : list layer_bases;
  att : list (mat R);
  biases : list (vec R);
  batch_norms : list batch_norm;
  activations : option (list (R -> R));
  (* the embedding cache *)
  enriched_embeddings : option (mat R)
}.

(** [self.enriched_embeddings = e] *)
Definition set_enriched_embeddings (self : RGCN) (e : option (mat R)) : RGCN :=
  {| num_entities := num_entities self;
     num_relations := num_relations self;
     embedding_dim := embedding_dim self;
     decomposition := decomposition self;
     num_bases := num_bases self;
     num_layers := num_layers self;
     message_normalization := message_normalization self;
     edge_dropout := edge_dropout self;
     self_loop_dropout := self_loop_dropout self;
     use_bias := use_bias self;
     use_batch_norm := use_batch_norm self;
     buffer_messages := buffer_messages self;
     training := training self;
     sources := sources self;
     targets := targets self;
     edge_types := edge_types self;
     entity_embeddings := entity_embeddings self;
     bases := bases self;
     att := att self;
     biases := biases self;
     batch_norms := batch_norms self;
     activations := activations self;
     enriched_embeddings := e |}.

(** [self.att = a], the other fields as they are. *)
Definition set_att (self : RGCN) (a : list (mat R)) : RGCN :=
  {| num_entities := num_entities self;
     num_relations := num_relations self;
     embedding_dim := embedding_dim self;
     decomposition := decomposition self;
     num_bases := num_bases self;
     num_layers := num_layers self;
     message_normalization := message_normalization self;
     edge_dropout := edge_dropout self;
     self_loop_dropout := self_loop_dropout self;
     use_bias := use_bias self;
     use_batch_norm := use_batch_norm self;
     buffer_messages := buffer_messages self;
     training := training self;
     sources := sources self;
     targets := targets self;
     edge_types := edge_types self;
     entity_embeddings := entity_embeddings self;
     bases := bases self;
     att := a;
     biases := biases self;
     batch_norms := batch_norms self;
     activations := activations self;
     enriched_embeddings := enriched_embeddings self |}.

(** ** The relation weight generator *)

#[local] Instance mat_shape_dec n d (m : mat R) : Decision (mat_shape n d m).
Proof. unfold mat_shape. apply _. Defined.

(** [w[start:stop, start:stop] = blk] for a slice inside [w] and a block
    of the slice's shape. *)
Definition assign_block (w : mat R) (start stop : nat) (blk : mat R)
  : option (mat R) :=
  let n := stop - start in
  let rows := take n (drop start w) in
  if decide (stop ≤ length w ∧ Forall (fun row => stop ≤ length row) rows
             ∧ mat_shape n n blk)
  then Some (take start w
             ++ zip_with (fun row brow => take start row ++ brow ++ drop stop row)
                  rows blk
             ++ drop stop w)
  else None.

(** [att[:, None, None] * b]: a factor per base matrix; a tensor with a
    single element along the first dimension is broadcast. *)
Definition broadcast_mul (att_r : vec R) (b : list (mat R))
  : option (list (mat R)) :=
  match att_r, b with
  | [a], _ => Some (fmap (mat_scale a) b)
  | _, [m] => Some (fmap (fun a => mat_scale a m) att_r)
  | _, _ => if decide (length att_r = length b)
            then Some (zip_with mat_scale att_r b) else None
  end.

(** [torch.sum(t, dim=0)]; [d] gives the shape of the result when [t] has
    no element to read it from. *)
Definition sum_dim0 (d : nat) (t : list (mat R)) : mat R :=
  fold_left mat_add t
    (match t with m :: _ => zeros_like m | [] => zeros d d end).

Definition as_blocks (t : layer_bases) : option (list (list (mat R))) :=
  match t with BlockTensor b => Some b | BasisTensor _ => None end.

Definition as_bases (t : layer_bases) : option (list (mat R)) :=
  match t with BasisTensor b => Some b | BlockTensor _ => None end.

Definition get_relation_weights (self : RGCN) (i_layer r : nat)
  : option (mat R) :=
  if String.eqb (decomposition self) "block" then
    (* allocate weight *)
    let w := zeros (embedding_dim self) (embedding_dim self) in
    (* Get blocks *)
    this_layer_blocks ← bases self !! i_layer ≫= as_blocks;
    if decide (num_bases self = 0) then None else
    let block_size := embedding_dim self / num_bases self in
    if decide (block_size = 0) then None else
    foldlM (fun w '(b, start) =>
              let stop := start + block_size in
              blk ← this_layer_blocks !! r ≫= (fun row => row !! b);
              assign_block w start stop blk)
           (enumerate (range_step (embedding_dim self) block_size)) w
  else if String.eqb (decomposition self) "basis" then
    (* The current basis weights, shape: (num_bases) *)
    att_r ← att self !! i_layer ≫= (fun a => a !! r);
    (* the current bases, shape: (num_bases, embedding_dim, embedding_dim) *)
    b ← bases self !! i_layer ≫= as_bases;
    (* compute the current relation weights *)
    sum_dim0 (embedding_dim self) <$> broadcast_mul att_r b
  else None.

(** ** Message propagation *)

(** [torch.unique(l, return_counts=True, return_inverse=True)]: the sorted
    distinct values, for each element of [l] its position among them, and
    for each distinct value the number of times it occurs in [l]. *)
Fixpoint insert_unique (x : nat) (l : list nat) : list nat :=
  match l with
  | [] => [x]
  | y :: l' => if x <? y then x :: l
               else if x =? y then l
               else y :: insert_unique x l'
  end.

Fixpoint position (x : nat) (l : list nat) : nat :=
  match l with
  | [] => 0
  | y :: l' => if x =? y then 0 else S (position x l')
  end.

Fixpoint occurrences (x : nat) (l : list nat) : nat :=
  match l with
  | [] => 0
  | y :: l' => if x =? y then S (occurrences x l') else occurrences x l'
  end.

Definition unique (l : list nat) : list nat * list nat * list nat :=
  let uniq := foldr insert_unique [] l in
  (uniq, fmap (fun x => position x uniq) l, fmap (fun u => occurrences u l) uniq).

(** [cnt[inv]] after [uniq, inv, cnt = torch.unique(l, ...)]: for each
    element of [l] the count the messages are divided by. *)
Definition degrees (l : list nat) : option (list nat) :=
  let '(_, inv, cnt) := unique l in index_select cnt inv.

(** [m_r /= c.unsqueeze(dim=1)] for a column [c] of divisors. *)
Definition div_rows (m_r : mat R) (c : list R) : mat R :=
  zip_with (fun row d => fmap (fun v => Rdiv v d) row) m_r c.

(** The [if]/[elif]/[else] on [self.message_normalization]. *)
Definition normalize (norm : option string) (sources_r targets_r : list nat)
  (m_r : mat R) : option (mat R) :=
  match norm with
  | Some s =>
      if String.eqb s "nonsymmetric" then
        cnt ← degrees targets_r;
        Some (div_rows m_r (fmap Rofnat cnt))
      else if String.eqb s "symmetric" then
        cnt ← degrees targets_r;
        let m_r := div_rows m_r (fmap (fun c => Rsqrt (Rofnat c)) cnt) in
        cnt ← degrees sources_r;
        Some (div_rows m_r (fmap (fun c => Rsqrt (Rofnat c)) cnt))
      else None
  | None => Some m_r
  end.

(** [new_x.index_add_(dim=0, index=idx, source=src)] *)
Fixpoint index_add (new_x : mat R) (idx : list nat) (src : mat R)
  : option (mat R) :=
  match idx, src with
  | [], [] => Some new_x
  | i :: idx', row :: src' =>
      old ← new_x !! i;
      index_add (<[i := vec_add old row]> new_x) idx' src'
  | _, _ => None
  end.

(** [mask &= edge_mask] *)
Definition restrict_mask (mask : list bool) (edge_mask : option (list bool))
  : option (list bool) :=
  match edge_mask with
  | None => Some mask
  | Some em => if decide (length em = length mask)
               then Some (zip_with andb mask em) else None
  end.

(** The edges relation [r] sends messages over: [(edge_types == r)],
    restricted to the edge mask when there is one. *)
Definition relation_mask (edge_types : list nat) (edge_mask : option (list bool))
  (r : nat) : option (list bool) :=
  restrict_mask (fmap (fun t => t =? r) edge_types) edge_mask.

(** The body of the loop over the relations. *)
Definition relation_messages (self : RGCN) (i r : nat) (x : mat R)
  (sources targets edge_types : list nat) (edge_mask : option (list bool))
  (new_x : mat R) : option (mat R) :=
  (* Choose the edges which are of the specific relation *)
  mask ← relation_mask edge_types edge_mask r;
  (* No edges available? Skip rest of inner loop *)
  if negb (existsb id mask) then Some new_x else
  (* Get source and target node indices *)
  sources_r ← mask_select sources mask;
  targets_r ← mask_select targets mask;
  (* send messages in both directions *)
  let '(sources_r, targets_r) := (sources_r ++ targets_r, targets_r ++ sources_r) in
  (* Select source node embeddings *)
  x_s ← index_select x sources_r;
  (* get relation weights *)
  w ← get_relation_weights self i r;
  (* Compute message *)
  let m_r := matmul x_s w in
  (* Normalize messages by relation-specific in-degree *)
  m_r ← normalize (message_normalization self) sources_r targets_r m_r;
  (* Aggregate messages in target *)
  index_add new_x targets_r m_r.

(** The loop over the relations, from the zero accumulator. *)
Definition aggregate (self : RGCN) (i : nat) (x : mat R)
  (sources targets edge_types : list nat) (edge_mask : option (list bool))
  : option (mat R) :=
  foldlM (fun new_x r =>
            relation_messages self i r x sources targets edge_types edge_mask new_x)
         (seq 0 (num_relations self)) (zeros_like x).

(** The self-loop: [new_x += new_x @ self_w], or the same on the rows the
    keep mask selects. *)
Definition self_loop (new_x self_w : mat R) (node_keep_mask : option (list bool))
  : option (mat R) :=
  match node_keep_mask with
  | None => Some (mat_add new_x (matmul new_x self_w))
  | Some keep =>
      kept ← mask_select new_x keep;
      mask_put new_x keep (mat_add kept (matmul kept self_w))
  end.

(** Bias, batch normalisation and activation of layer [i]. *)
Definition add_bias (self : RGCN) (i : nat) (new_x : mat R) : option (mat R) :=
  if use_bias self then
    bias ← biases self !! i;
    Some (fmap (fun row => vec_add row bias) new_x)
  else Some new_x.

Definition apply_batch_norm (self : RGCN) (i : nat) (new_x : mat R)
  : option (mat R) :=
  if use_batch_norm self then
    bn ← batch_norms self !! i;
    Some (fmap (bn new_x) new_x)
  else Some new_x.

Definition apply_activation (self : RGCN) (i : nat) (new_x : mat R)
  : option (mat R) :=
  match activations self with
  | Some acts => activation ← acts !! i; Some (fmap (fun row : vec R => fmap activation row) new_x)
  | None => Some new_x
  end.

(** The body of the loop over the layers. *)
Definition layer (self : RGCN) (i : nat)
  (sources targets edge_types : list nat) (edge_mask : option (list bool))
  (node_keep_mask : option (list bool)) (x : mat R) : option (mat R) :=
  new_x ← aggregate self i x sources targets edge_types edge_mask;
  (* Self-loop *)
  self_w ← get_relation_weights self i (num_relations self);
  new_x ← self_loop new_x self_w node_keep_mask;
  new_x ← add_bias self i new_x;
  new_x ← apply_batch_norm self i new_x;
  apply_activation self i new_x.

(** [torch.rand(n) > rate]: the draws are an argument; [rand j] is entry
    [j] of the random tensor. *)
Definition keep_mask (rand : nat -> R) (n : nat) (rate : R) : list bool :=
  fmap (fun j => Rgtb (rand j) rate) (seq 0 n).

(** Edge dropout: the edges propagation runs over. *)
Definition drop_edges (self : RGCN) (edge_rand : nat -> R)
  : option (list nat * list nat * list nat) :=
  match training self, edge_dropout self with
  | true, Some rate =>
      let edge_keep_mask := keep_mask edge_rand (length (sources self)) rate in
      s ← mask_select (sources self) edge_keep_mask;
      t ← mask_select (targets self) edge_keep_mask;
      e ← mask_select (edge_types self) edge_keep_mask;
      Some (s, t, e)
  | _, _ => Some (sources self, targets self, edge_types self)
  end.

(** Self-loop dropout: the keep mask over the nodes, if any. *)
Definition node_mask (self : RGCN) (node_rand : nat -> R) : option (list bool) :=
  match training self, self_loop_dropout self with
  | true, Some rate => Some (keep_mask node_rand (num_entities self) rate)
  | _, _ => None
  end.

(** A batch is a list of [(h, r, t)] rows. *)
Definition triple := (nat * nat * nat)%type.

(** [_enrich_embeddings] below its cache test and above its cache write. *)
Definition propagate (self : RGCN) (batch : option (list triple))
  (edge_rand node_rand : nat -> R) : option (mat R) :=
  let x := entity_embeddings self in
  '(sources, targets, edge_types) ← drop_edges self edge_rand;
  let node_keep_mask := node_mask self node_rand in
  (* If batch is given, compute (num_layers)-hop neighbourhood *)
  edge_mask ← match batch with
              | Some b =>
                  let start_nodes :=
                    fmap (fun hrt => hrt.1.1) b ++ fmap (fun hrt => hrt.2) b in
                  Some <$> get_neighborhood start_nodes sources targets
                             (num_layers self) (num_entities self) true
              | None => Some None
              end;
  foldlM (fun x i => layer self i sources targets edge_types edge_mask
                       node_keep_mask x)
         (seq 0 (num_layers self)) x.

(** [_enrich_embeddings]: the result ([None] when an exception leaves the
    method) and the model after the call. *)
Definition enrich_embeddings (self : RGCN) (batch : option (list triple))
  (edge_rand node_rand : nat -> R) : option (mat R) * RGCN :=
  match batch, enriched_embeddings self with
  | None, Some cached => (Some cached, self)   (* use buffered messages *)
  | _, _ =>
      match propagate self batch edge_rand node_rand with
      | Some x =>
          (Some x,
           if bool_decide (batch = None) && buffer_messages self
           then set_enriched_embeddings self (Some x) else self)
      | None => (None, self)
      end
  end.

(** [post_parameter_update]: the hook of the base class, then the cache is
    emptied.  The base class is not part of these sources; its hook is the
    argument [super_post_parameter_update]. *)
Definition post_parameter_update (super_post_parameter_update : RGCN -> RGCN)
  (self : RGCN) : RGCN :=
  set_enriched_embeddings (super_post_parameter_update self) None.

(** ** Notions the results are stated with *)

(** The self-loop read row by row: every row, or every row the keep mask
    selects, gets its own image under [self_w] added. *)
Definition self_loop_rows (new_x self_w : mat R) (node_keep_mask : option (list bool))
  : option (mat R) :=
  match node_keep_mask with
  | None => Some ((fun row => vec_add row (vec_mat row self_w)) <$> new_x)
  | Some keep =>
      if decide (length keep = length new_x) then
        Some (zip_with (fun row (kept : bool) =>
                          if kept then vec_add row (vec_mat row self_w) else row)
                new_x keep)
      else None
  end.

(** [incident n sources targets edge_types edge_mask v]: an edge that a
    layer sends messages over (its type is one of the [n] relations and the
    edge mask, if any, selects it) starts or ends at node [v]. *)
Definition incident (n : nat) (sources targets edge_types : list nat)
  (edge_mask : option (list bool)) (v : nat) : bool :=
  existsb (fun '(j, (s, t, ty)) =>
             (ty <? n)
             && match edge_mask with
                | Some em => default false (em !! j)
                | None => true
                end
             && ((s =? v) || (t =? v)))
          (enumerate (zip (zip sources targets) edge_types)).

(** The row that bias, batch normalisation and activation of layer [i] work
    on at a node whose accumulator row is zero: the bias, or the zero row
    when no bias is used. *)
Definition bias_or_zero (self : RGCN) (i d : nat) : option (vec R) :=
  if use_bias self then biases self !! i else Some (replicate d R0).

(** Batch normalisation (if used) and activation (if any) of layer [i] on
    one row; [m] is the input of the batch normalisation. *)
Definition batch_norm_row (self : RGCN) (i : nat) (m : mat R) (row : vec R)
  : option (vec R) :=
  if use_batch_norm self
  then bn ← batch_norms self !! i; Some (bn m row)
  else Some row.

Definition activate_row (self : RGCN) (i : nat) (row : vec R) : option (vec R) :=
  match activations self with
  | Some acts => activation ← acts !! i; Some (activation <$> row)
  | None => Some row
  end.

Definition normalize_activate_row (self : RGCN) (i : nat) (m : mat R)
  (row : vec R) : option (vec R) :=
  batch_norm_row self i m row ≫= activate_row self i.

(** Entry [(j, k)] of a matrix, [R0] where it has none. *)
Definition get (m : mat R) (j k : nat) : R := default R0 (entry m j k).

(** Entry [(j, k)] of the attention-weighted sum of the base matrices: the
    sum over the bases [n] of [att_r[n] * b[n][j, k]]. *)
Definition weighted_sum (att_r : vec R) (b : list (mat R)) (j k : nat) : R :=
  fold_left Radd (zip_with (fun a m => Rmul a (get m j k)) att_r b) R0.

(** The parameters of the basis decomposition as [init_empty_weights_]
    allocates them: per layer an attention tensor of shape
    [(num_relations + 1, num_bases)] and [num_bases] base matrices of shape
    [(d, d)]. *)
Definition basis_tensor_ok (nb d : nat) (t : layer_bases) : Prop :=
  match t with
  | BasisTensor b => length b = nb /\ Forall (mat_shape d d) b
  | BlockTensor _ => False
  end.

Definition basis_params_ok (self : RGCN) : Prop :=
  decomposition self = "basis"
  /\ length (att self) = num_layers self
  /\ length (bases self) = num_layers self
  /\ Forall (mat_shape (S (num_relations self)) (num_bases self)) (att self)
  /\ Forall (basis_tensor_ok (num_bases self) (embedding_dim self)) (bases self).

(** The parameters of the block decomposition as the constructor checks
    and [init_empty_weights_] allocates them: a positive number of blocks
    that divides the positive embedding dimension, and per layer
    [num_relations + 1] rows of [num_bases] square blocks of size
    [embedding_dim / num_bases]. *)
Definition block_tensor_ok (nr nb bs : nat) (t : layer_bases) : Prop :=
  match t with
  | BlockTensor b =>
      length b = nr
      /\ Forall (fun blocks => length blocks = nb
                              /\ Forall (mat_shape bs bs) blocks) b
  | BasisTensor _ => False
  end.

Definition block_params_ok (self : RGCN) : Prop :=
  decomposition self = "block"
  /\ 0 < num_bases self
  /\ 0 < embedding_dim self
  /\ embedding_dim self mod num_bases self = 0
  /\ length (bases self) = num_layers self
  /\ Forall (block_tensor_ok (S (num_relations self)) (num_bases self)
               (embedding_dim self / num_bases self)) (bases self).

(** Dropout is inactive in a call: the model is in evaluation mode, or each
    rate is unset or below every draw it is compared with (for the rate 0,
    every draw is positive), so that no edge and no self-loop is dropped. *)
Definition keeps_all (rand : nat -> R) (n : nat) (rate : option R) : bool :=
  match rate with
  | None => true
  | Some p => forallb id (keep_mask rand n p)
  end.

Definition dropout_inactive (self : RGCN) (edge_rand node_rand : nat -> R) : bool :=
  negb (training self)
  || (keeps_all edge_rand (length (sources self)) (edge_dropout self)
      && keeps_all node_rand (num_entities self) (self_loop_dropout self)).

(** A model the propagation can run on: parameters as allocated, a graph
    whose three columns have one length and whose nodes are entities, one row
    of embeddings per entity, a normalisation the constructor lets through,
    and per layer the bias, batch normalisation and activation that are
    switched on.  ([init_empty_weights_] allocates a single batch
    normalisation; the layers read [batch_norms[i]], so with batch
    normalisation a model of more than one layer does not meet the last but
    one condition.) *)
Definition model_ok (self : RGCN) : Prop :=
  (basis_params_ok self \/ block_params_ok self)
  /\ length (entity_embeddings self) = num_entities self
  /\ length (targets self) = length (sources self)
  /\ length (edge_types self) = length (sources self)
  /\ Forall (fun v => v < num_entities self) (sources self)
  /\ Forall (fun v => v < num_entities self) (targets self)
  /\ (message_normalization self = None
      \/ message_normalization self = Some "nonsymmetric"
      \/ message_normalization self = Some "symmetric")
  /\ (use_bias self = true -> num_layers self <= length (biases self))
  /\ (use_batch_norm self = true -> num_layers self <= length (batch_norms self))
  /\ (forall acts, activations self = Some acts -> num_layers self <= length acts).

(** The nodes of a batch are entities. *)
Definition batch_ok (self : RGCN) (batch : option (list triple)) : Prop :=
  match batch with
  | Some b => Forall (fun hrt : triple => hrt.1.1 < num_entities self
                                          /\ hrt.2 < num_entities self) b
  | None => True
  end.

End Model.

(** ** Parameter allocation, the decoder adapter and the reversed graph

    [RGCN.init_empty_weights_], [RGCN.clear_weights_] and the scoring
    methods [score_hrt], [score_t], [score_h] on the model record above.
    A parameter list that is [None] in the source is the empty list of the
    record ([activations] is an option already): the source makes an empty
    [ParameterList] only for [num_layers = 0], where allocating again gives
    the empty list again. *)

(** What [functional.normalize] needs beyond [Scalar]. *)
Class ScalarNorm (R : Type) `{Scalar R} := {
  Rabs : R -> R;                (* [abs] inside the 1-norm *)
  Rmax : R -> R -> R;           (* [clamp_min] of the norm *)
  Reps : R                      (* [eps = 1e-12] *)
}.

#[export] Instance Q_ScalarNorm : ScalarNorm QArith_base.Q := {|
  Rabs := fun a => if QArith_base.Qle_bool (QArith_base.Qmake 0 1) a then a
                   else QArith_base.Qopp a;
  Rmax := fun a b => if QArith_base.Qle_bool a b then b else a;
  Reps := QArith_base.Qmake 1 (10 ^ 12) |}.

(** Sums of three entries do not depend on the order of the last two. *)
Class ScalarAddComm (R : Type) `{Scalar R} := {
  Radd_right_comm : forall a b c : R, Radd (Radd a b) c = Radd (Radd a c) b
}.

#[export] Instance Z_ScalarAddComm : ScalarAddComm Z.
Proof. split; intros a b c; simpl; lia. Qed.

(** [[f 0, ..., f (n - 1)]]: a tensor given entry by entry. *)
Definition tabulate {A} (n : nat) (f : nat -> A) : list A := f <$> seq 0 n.

Section Lifecycle.
Context {R : Type} `{Scalar R} `{!ScalarNorm R}.

(** [functional.normalize(t, p=1, dim=1)] on one row: the row divided by
    its 1-norm, or by [eps] if that is larger. *)
Definition l1_normalize (row : vec R) : vec R :=
  let norm := fold_left Radd (Rabs <$> row) R0 in
  (fun a => Rdiv a (Rmax norm Reps)) <$> row.

(** What [init_empty_weights_] takes from outside [RGCN]: the base model's
    own [init_empty_weights_] (seen through the entity embeddings), the
    activation module built from [self.activation_cls] and
    [self.activation_kwargs] ([None] if the class is [None]), the gain
    [nn.init.calculate_gain(self.activation_cls.__name__.lower())] ([None]
    if that raises), a new [nn.BatchNorm1d], and the entries the random
    initialisers write: [normal i ...] into the bases of layer [i],
    [uniform i r n] into entry [(r, n)] of the attention of layer [i].
    The initialisers are taken to fill a tensor of any shape; what PyTorch
    does with a tensor without elements depends on its version, and the
    results on allocation ask for positive dimensions. *)
Record init_env := {
  base_model_init : mat R -> mat R;
  activation_cls : option (R -> R);
  calculate_gain : option R;
  new_batch_norm : @batch_norm R;
  normal : nat -> nat -> nat -> nat -> nat -> R;
  uniform : nat -> nat -> nat -> R
}.

(** The parameters replaced, the other fields as they are. *)
Definition set_parameters (self : @RGCN R) (e : mat R) (b : list (@layer_bases R))
  (a : list (mat R)) (bi : list (vec R)) (bn : list (@batch_norm R))
  (act : option (list (R -> R))) : @RGCN R :=
  {| num_entities := num_entities self;
     num_relations := num_relations self;
     embedding_dim := embedding_dim self;
     decomposition := decomposition self;
     num_bases := num_bases self;
     num_layers := num_layers self;
     message_normalization := message_normalization self;
     edge_dropout := edge_dropout self;
     self_loop_dropout := self_loop_dropout self;
     use_bias := use_bias self;
     use_batch_norm := use_batch_norm self;
     buffer_messages := buffer_messages self;
     training := training self;
     sources := sources self;
     targets := targets self;
     edge_types := edge_types self;
     entity_embeddings := e;
     bases := b;
     att := a;
     biases := bi;
     batch_norms := bn;
     activations := act;
     enriched_embeddings := enriched_embeddings self |}.

(** The loop that fills [self.bases] in basis mode: per layer a tensor of
    shape [(num_bases, d, d)]. *)
Definition new_basis_bases (env : init_env) (self : @RGCN R)
  : option (list (@layer_bases R)) :=
  mapM (fun i =>
          gain ← calculate_gain env;
          Some (BasisTensor
                  (tabulate (num_bases self) (fun n =>
                   tabulate (embedding_dim self) (fun j =>
                   tabulate (embedding_dim self) (fun k =>
                     normal env i n 0 j k))))))
       (seq 0 (num_layers self)).

(** The loop that fills [self.att]: per layer a tensor of shape
    [(num_relations + 1, num_bases)] with rows of 1-norm one. *)
Definition new_att (env : init_env) (self : @RGCN R) : list (mat R) :=
  tabulate (num_layers self) (fun i =>
    tabulate (S (num_relations self)) (fun r =>
      l1_normalize (tabulate (num_bases self) (fun n => uniform env i r n)))).

(** The loop that fills [self.bases] in block mode: per layer a tensor of
    shape [(num_relations + 1, num_bases, block_size, block_size)]. *)
Definition new_block_bases (env : init_env) (self : @RGCN R)
  : option (list (@layer_bases R)) :=
  if decide (num_bases self = 0) then None else
  let block_size := embedding_dim self / num_bases self in
  mapM (fun i =>
          gain ← calculate_gain env;
          Some (BlockTensor
                  (tabulate (S (num_relations self)) (fun r =>
                   tabulate (num_bases self) (fun b =>
                   tabulate block_size (fun j =>
                   tabulate block_size (fun k =>
                     normal env i r b j k)))))))
       (seq 0 (num_layers self)).

(** The [if]/[elif] on [self.decomposition]: the bases and the attention
    after it. *)
Definition allocate_decomposition (env : init_env) (self : @RGCN R)
  : option (list (@layer_bases R) * list (mat R)) :=
  if String.eqb (decomposition self) "basis" then
    b ← match bases self with
        | [] => new_basis_bases env self
        | _ :: _ => Some (bases self)
        end;
    Some (b, match att self with
             | [] => new_att env self
             | _ :: _ => att self
             end)
  else if String.eqb (decomposition self) "block" then
    b ← match bases self with
        | [] => new_block_bases env self
        | _ :: _ => Some (bases self)
        end;
    Some (b, att self)
  else Some (bases self, att self).

(** [if self.biases is None and self.use_bias] *)
Definition allocate_biases (self : @RGCN R) : list (vec R) :=
  match biases self, use_bias self with
  | [], true => tabulate (num_layers self)
                  (fun _ => replicate (embedding_dim self) R0)
  | _, _ => biases self
  end.

(** [if self.batch_norms is None and self.use_batch_norm]: a list of one
    module. *)
Definition allocate_batch_norms (env : init_env) (self : @RGCN R)
  : list (@batch_norm R) :=
  match batch_norms self, use_batch_norm self with
  | [], true => [new_batch_norm env]
  | _, _ => batch_norms self
  end.

(** [if self.activation_cls is not None and self.activations is None] *)
Definition allocate_activations (env : init_env) (self : @RGCN R)
  : option (list (R -> R)) :=
  match activation_cls env, activations self with
  | Some activation, None =>
      Some (tabulate (num_layers self) (fun _ => activation))
  | _, _ => activations self
  end.

Definition init_empty_weights_ (env : init_env) (self : @RGCN R)
  : option (@RGCN R) :=
  let e := base_model_init env (entity_embeddings self) in
  '(b, a) ← allocate_decomposition env self;
  Some (set_parameters self e b a (allocate_biases self)
          (allocate_batch_norms env self) (allocate_activations env self)).

Definition clear_weights_ (self : @RGCN R) : @RGCN R :=
  set_parameters self (entity_embeddings self) [] [] [] [] (activations self).

(** The state [__init__] hands to [_init_weights_on_device]: no parameter
    of the encoder allocated, the cache empty. *)
Definition unallocated (self : @RGCN R) : Prop :=
  bases self = [] /\ att self = [] /\ biases self = []
  /\ batch_norms self = [] /\ activations self = None.

(** A configuration the checks of [__init__] accept, on natural numbers
    and with tensors that have elements: a positive number of bases or
    blocks, a positive embedding dimension, a known decomposition, in block
    mode a number of blocks that divides the embedding dimension, and an
    allowed normalisation. *)
Definition config_ok (self : @RGCN R) : Prop :=
  0 < num_bases self
  /\ 0 < embedding_dim self
  /\ (decomposition self = "basis"
      \/ (decomposition self = "block"
          /\ embedding_dim self mod num_bases self = 0))
  /\ (message_normalization self = None
      \/ message_normalization self = Some "nonsymmetric"
      \/ message_normalization self = Some "symmetric").

(** The three columns of [mapped_triples] have one length, and every node
    in them is an entity. *)
Definition graph_ok (self : @RGCN R) : Prop :=
  length (targets self) = length (sources self)
  /\ length (edge_types self) = length (sources self)
  /\ Forall (fun v => v < num_entities self) (sources self)
  /\ Forall (fun v => v < num_entities self) (targets self).

(** The biases have the length of an embedding, and a batch normalisation
    returns a row of the length of the row it is given (as [nn.BatchNorm1d]
    does). *)
Definition layer_shapes_ok (self : @RGCN R) : Prop :=
  Forall (fun bias : vec R => length bias = embedding_dim self) (biases self)
  /\ Forall (fun bn : @batch_norm R =>
               forall (m : mat R) (row : vec R), length (bn m row) = length row)
       (batch_norms self).

(** What the scoring methods use of the base model: the weight of its
    relation embeddings and its interaction function.  The interaction
    function is not part of these sources; it scores one triple of rows and
    broadcasts over the leading dimensions of its arguments, which is what
    the shapes [(B, 1, d)], [(B, 1, d)], [(1, N, d)] it is called with ask
    for.  The rows of [x] and of the relation embeddings have length
    [embedding_dim], so that [view] only inserts a dimension. *)
Record base_model := {
  relation_embeddings : mat R;
  interaction_function : vec R -> vec R -> vec R -> R
}.

(** [sparse_messages_owa] is [self.sparse_messages_owa].  The model after
    the call is returned with the scores, for the cache [_enrich_embeddings]
    may have written. *)
Definition score_hrt (self : @RGCN R) (base : base_model)
  (sparse_messages_owa : bool) (hrt_batch : list triple)
  (edge_rand node_rand : nat -> R) : option (mat R) * @RGCN R :=
  (* Enrich only required embeddings *)
  let '(x, self) :=
    enrich_embeddings self
      (if sparse_messages_owa then Some hrt_batch else None)
      edge_rand node_rand in
  (x ← x;
   (* Get embeddings *)
   h ← index_select x ((fun hrt : triple => hrt.1.1) <$> hrt_batch);
   r ← index_select (relation_embeddings base)
         ((fun hrt : triple => hrt.1.2) <$> hrt_batch);
   t ← index_select x ((fun hrt : triple => hrt.2) <$> hrt_batch);
   Some ((fun '(h, r, t) => [interaction_function base h r t])
           <$> zip (zip h r) t),
   self).

Definition score_t (self : @RGCN R) (base : base_model)
  (hr_batch : list (nat * nat)) (edge_rand node_rand : nat -> R)
  : option (mat R) * @RGCN R :=
  let '(x, self) := enrich_embeddings self None edge_rand node_rand in
  (x ← x;
   (* Get embeddings *)
   h ← index_select x (fst <$> hr_batch);
   r ← index_select (relation_embeddings base) (snd <$> hr_batch);
   Some (zip_with (fun h r => (fun t => interaction_function base h r t) <$> x)
           h r),
   self).

Definition score_h (self : @RGCN R) (base : base_model)
  (rt_batch : list (nat * nat)) (edge_rand node_rand : nat -> R)
  : option (mat R) * @RGCN R :=
  let '(x, self) := enrich_embeddings self None edge_rand node_rand in
  (x ← x;
   (* Get embeddings *)
   r ← index_select (relation_embeddings base) (fst <$> rt_batch);
   t ← index_select x (snd <$> rt_batch);
   Some (zip_with (fun r t => (fun h => interaction_function base h r t) <$> x)
           r t),
   self).

(** The model on the graph with every edge reversed: the columns [sources]
    and [targets] exchanged. *)
Definition reverse_edges (self : @RGCN R) : @RGCN R :=
  {| num_entities := num_entities self;
     num_relations := num_relations self;
     embedding_dim := embedding_dim self;
     decomposition := decomposition self;
     num_bases := num_bases self;
     num_layers := num_layers self;
     message_normalization := message_normalization self;
     edge_dropout := edge_dropout self;
     self_loop_dropout := self_loop_dropout self;
     use_bias := use_bias self;
     use_batch_norm := use_batch_norm self;
     buffer_messages := buffer_messages self;
     training := training self;
     sources := targets self;
     targets := sources self;
     edge_types := edge_types self;
     entity_embeddings := entity_embeddings self;
     bases := bases self;
     att := att self;
     biases := biases self;
     batch_norms := batch_norms self;
     activations := activations self;
     enriched_embeddings := enriched_embeddings self |}.

End Lifecycle.

(** ** The pipeline (poem/pipeline.py)

    The class [Pipeline] (the second one of that name in the module, which
    replaces the first).  A method is a function from the object before the
    call to what the call returns or raises and the object after it.  The
    constants of [poem.constants] and the functions the pipeline calls in
    other modules are not part of these sources; they are the fields of
    [world]. *)

Module Pipeline.
Section Pipeline.
Context {Value Instances Multimodal Factory ModelConfig Model TrainingLoop
         Losses Error : Type}.
Context `{EqDecision Value}.

Inductive exn :=
  | KeyError
  | ValueError
  | Warning
  | TypeError
  | External (e : Error).       (* raised inside a function of [world] *)

Inductive outcome (A : Type) :=
  | Return (a : A)
  | Raise (e : exn).
Arguments Return {A} a.
Arguments Raise {A} e.

(** What the attributes [training_instances] and [test_instances] can
    hold: [None], the object [True], instances, or the pair of training and
    test instances [preprocess] returns when an evaluation is requested. *)
Inductive pyobj :=
  | PyNone
  | PyTrue
  | PyInstances (i : Instances)
  | PyTuple (train test : Instances).

Record Pipeline := {
  config : gmap string Value;
  model_config : option ModelConfig;
  instance_factory : option Factory;
  training_instances : pyobj;
  test_instances : pyobj;
  has_preprocessed_instances : bool
}.

Record world := {
  (* poem.constants *)
  EXECUTION_MODE : string;
  SEED : string;
  TEST_SET_PATH : string;
  TEST_SET_RATIO : string;
  TRAINING_MODE : Value;
  HPO_MODE : Value;
  CWA : Value;
  OWA : Value;
  (* torch.manual_seed, np.random.seed: the exception, if any *)
  torch_manual_seed : Value -> option Error;
  np_random_seed : Value -> option Error;
  (* poem.instance_creation_factories *)
  get_factory : gmap string Value -> Error + Factory;
  create_instances : Factory -> Error + Instances;
  create_train_and_test_instances : Factory -> Error + (Instances * Instances);
  (* [i.multimodal_data] if [i] is a [MultimodalInstances] *)
  multimodal_data : Instances -> option Multimodal;
  (* ModelConfig(config=..., multimodal_data=...) *)
  new_model_config : gmap string Value -> option Multimodal -> Error + ModelConfig;
  get_kge_model : ModelConfig -> Error + Model;
  kg_assumption : Model -> Value;
  (* OWATrainingLoop(model_config=..., kge_model=..., instances=...) *)
  OWATrainingLoop : ModelConfig -> Model -> pyobj -> Error + TrainingLoop;
  (* train_loop.train() *)
  training_loop_train : TrainingLoop -> Error + (Model * Losses);
  (* poem.basic_utils.is_evaluation_requested *)
  basic_utils_is_evaluation_requested : gmap string Value -> Error + bool
}.

(** The result of a call into [world]. *)
Definition call {A} (r : Error + A) : outcome A :=
  match r with inl e => Raise (External e) | inr a => Return a end.

(** [o is True] *)
Definition is_True (o : pyobj) : bool :=
  match o with PyTrue => true | _ => false end.

Definition set_instance_factory (self : Pipeline) (f : Factory) : Pipeline :=
  {| config := config self;
     model_config := model_config self;
     instance_factory := Some f;
     training_instances := training_instances self;
     test_instances := test_instances self;
     has_preprocessed_instances := has_preprocessed_instances self |}.

Definition set_training_instances (self : Pipeline) (o : pyobj) : Pipeline :=
  {| config := config self;
     model_config := model_config self;
     instance_factory := instance_factory self;
     training_instances := o;
     test_instances := test_instances self;
     has_preprocessed_instances := has_preprocessed_instances self |}.

Definition set_model_config (self : Pipeline) (c : ModelConfig) : Pipeline :=
  {| config := config self;
     model_config := Some c;
     instance_factory := instance_factory self;
     training_instances := training_instances self;
     test_instances := test_instances self;
     has_preprocessed_instances := has_preprocessed_instances self |}.

(** [Pipeline(config, training_instances, test_instances)] *)
Definition init (w : world) (config : gmap string Value)
  (training_instances test_instances : pyobj) : outcome Pipeline :=
  let self :=
    {| config := config;
       model_config := None;
       instance_factory := None;
       training_instances := training_instances;
       test_instances := test_instances;
       has_preprocessed_instances := is_True training_instances |} in
  (* Set random generators *)
  match config !! SEED w with
  | None => Raise KeyError
  | Some seed =>
      match torch_manual_seed w seed with
      | Some e => Raise (External e)
      | None =>
          match np_random_seed w seed with
          | Some e => Raise (External e)
          | None => Return self
          end
      end
  end.

(** The property [is_evaluation_requested]. *)
Definition is_evaluation_requested (w : world) (self : Pipeline) : bool :=
  bool_decide (is_Some (config self !! TEST_SET_PATH w))
  || bool_decide (is_Some (config self !! TEST_SET_RATIO w)).

Definition create_model_config (w : world) (self : Pipeline)
  : outcome ModelConfig :=
  let multimodal :=
    match training_instances self with
    | PyInstances i => multimodal_data w i
    | _ => None
    end in
  call (new_model_config w (config self) multimodal).

Definition preprocess_train_triples (w : world) (self : Pipeline)
  : outcome pyobj * Pipeline :=
  match get_factory w (config self) with
  | inl e => (Raise (External e), self)
  | inr f =>
      let self := set_instance_factory self f in
      match create_instances w f with
      | inl e => (Raise (External e), self)
      | inr i => (Return (PyInstances i), self)
      end
  end.

Definition proprcess_train_and_test_triples (w : world) (self : Pipeline)
  : outcome pyobj * Pipeline :=
  match get_factory w (config self) with
  | inl e => (Raise (External e), self)
  | inr f =>
      let self := set_instance_factory self f in
      match create_train_and_test_instances w f with
      | inl e => (Raise (External e), self)
      | inr (train, test) => (Return (PyTuple train test), self)
      end
  end.

(** Create instances. *)
Definition preprocess (w : world) (self : Pipeline)
  : outcome pyobj * Pipeline :=
  if has_preprocessed_instances self then (Raise Warning, self)
  else if is_evaluation_requested w self
       then proprcess_train_and_test_triples w self
       else preprocess_train_triples w self.

(** The lookup in [KG_ASSUMPTION_TO_TRAINING_LOOP = {CWA: None, OWA:
    OWATrainingLoop}] and the call of what it finds: a missing key raises
    [KeyError], calling [None] raises [TypeError].  With equal keys the
    later entry of a dict display stays. *)
Definition get_training_loop (w : world) (model_config : ModelConfig)
  (kge_model : Model) (instances : pyobj) : outcome TrainingLoop :=
  if decide (kg_assumption w kge_model = OWA w) then
    call (OWATrainingLoop w model_config kge_model instances)
  else if decide (kg_assumption w kge_model = CWA w) then Raise TypeError
  else Raise KeyError.

Definition train (w : world) (self : Pipeline)
  : outcome (Model * Losses) * Pipeline :=
  match create_model_config w self with
  | Raise e => (Raise e, self)
  | Return c =>
      let self := set_model_config self c in
      match call (get_kge_model w c) with
      | Raise e => (Raise e, self)
      | Return kge_model =>
          match get_training_loop w c kge_model (training_instances self) with
          | Raise e => (Raise e, self)
          | Return train_loop =>
              (* Train the model based on the defined training loop *)
              (call (training_loop_train w train_loop), self)
          end
      end
  end.

(** [perform_hpo] has an empty body. *)
Definition perform_hpo (self : Pipeline) : outcome unit * Pipeline :=
  (Return tt, self).

Definition run (w : world) (self : Pipeline) : outcome unit * Pipeline :=
  match config self !! EXECUTION_MODE w with
  | None => (Raise KeyError, self)
  | Some exec_mode =>
      if bool_decide (exec_mode <> TRAINING_MODE w)
         && bool_decide (exec_mode <> HPO_MODE w)
      then (Raise ValueError, self)
      else
        let '(prepared, self) :=
          if negb (has_preprocessed_instances self) then
            match preprocess w self with
            | (Return o, self) => (Return tt, set_training_instances self o)
            | (Raise e, self) => (Raise e, self)
            end
          else (Return tt, self) in
        match prepared with
        | Raise e => (Raise e, self)
        | Return _ =>
            if decide (exec_mode = TRAINING_MODE w) then
              match train w self with
              | (Raise e, self) => (Raise e, self)
              | (Return _, self) =>
                  match call (basic_utils_is_evaluation_requested w (config self)) with
                  | Raise e => (Raise e, self)
                  | Return _ => (Return tt, self)
                  end
              end
            else if decide (exec_mode = HPO_MODE w) then perform_hpo self
            else (Return tt, self)
        end
  end.

End Pipeline.

Arguments Return {Error A} a.
Arguments Raise {Error A} e.
Arguments Pipeline : clear implicits.
Arguments world : clear implicits.
Arguments pyobj : clear implicits.
Arguments exn : clear implicits.

End Pipeline.

(** ** The whole constructor

    [RGCN.__init__] around its checks: the constructors of the base model
    and of the base class before them (lines 139-154), and the allocation of
    the weights through [_init_weights_on_device] after them (line 225). *)

(** [s.lower()] on ASCII letters. *)
Fixpoint lower (s : string) : string :=
  match s with
  | EmptyString => EmptyString
  | String c s' =>
      let n := Ascii.nat_of_ascii c in
      String (if (65 <=? n) && (n <=? 90) then Ascii.ascii_of_nat (n + 32) else c)
             (lower s')
  end.

(** [nn.init.calculate_gain(nonlinearity)] of PyTorch, without its optional
    parameter: the gain of the nonlinearities it knows, [None] for its
    [ValueError("Unsupported nonlinearity ...")]. *)
Definition calculate_gain_of {R : Type} `{Scalar R} (nonlinearity : string)
  : option R :=
  if bool_decide (nonlinearity ∈ ["linear"; "conv1d"; "conv2d"; "conv3d";
                                  "conv_transpose1d"; "conv_transpose2d";
                                  "conv_transpose3d"; "sigmoid"])
  then Some (Rofnat 1)
  else if String.eqb nonlinearity "tanh" then Some (Rdiv (Rofnat 5) (Rofnat 3))
  else if String.eqb nonlinearity "relu" then Some (Rsqrt (Rofnat 2))
  else if String.eqb nonlinearity "leaky_relu" then
    let negative_slope := Rdiv (Rofnat 1) (Rofnat 100) in
    Some (Rsqrt (Rdiv (Rofnat 2)
                   (Radd (Rofnat 1) (Rmul negative_slope negative_slope))))
  else if String.eqb nonlinearity "selu" then Some (Rdiv (Rofnat 3) (Rofnat 4))
  else None.

(** The constructor: the constructors of the base model and the base class
    ([super_init]: what they raise, if anything), the checks, and the
    allocation of the weights ([init_weights_on_device], on what the checks
    left).  The two are not part of these sources and are arguments. *)
Definition construct (super_init : Init.result unit)
  (init_weights_on_device : Init.checked -> Init.result unit)
  (a : Init.args) : Init.result Init.checked :=
  Init.bind super_init (fun _ =>
  Init.bind (Init.init a) (fun c =>
  Init.bind (init_weights_on_device c) (fun _ =>
  Init.Ok c))).

(** One of the cases the checks of the constructor raise in. *)
Definition listed_case (a : Init.args) : Prop :=
  (Init.decomposition a <> "basis" /\ Init.decomposition a <> "block")
  \/ (Init.decomposition a = "block"
      /\ (Init.effective_num a = 0%Z
          \/ (Init.embedding_dim a mod Init.effective_num a)%Z <> 0%Z))
  \/ (Init.decomposition a = "basis"
      /\ (Init.effective_num a > Init.num_relations a)%Z)
  \/ (Init.message_normalization a <> None
      /\ Init.message_normalization a <> Some "nonsymmetric"
      /\ Init.message_normalization a <> Some "symmetric")
  \/ Init.create_inverse_triples a = true.

Section Constructor.
Context {R : Type} `{Scalar R} `{!ScalarNorm R}.

(** The arguments of the constructor that its checks do not read. *)
Record more_args := {
  arg_num_entities : nat;                 (* triples_factory.num_entities *)
  arg_num_layers : nat;
  arg_edge_dropout : option R;
  arg_self_loop_dropout : option R;
  arg_buffer_messages : bool;
  arg_mapped_triples : list triple;       (* triples_factory.mapped_triples *)
  arg_entity_embeddings : mat R           (* base_model.entity_embeddings *)
}.

(** The object after line 222, for numbers that are not negative: what the
    checks left, the other arguments ([self_loop_dropout = None] stands for
    the edge dropout), the columns of the triples, no weight allocated, the
    cache empty, and the training mode a new [nn.Module] is in. *)
Definition after_checks (a : Init.args) (c : Init.checked) (m : more_args)
  : @RGCN R :=
  {| num_entities := arg_num_entities m;
     num_relations := Z.to_nat (Init.num_relations a);
     embedding_dim := Z.to_nat (Init.embedding_dim a);
     decomposition := Init.self_decomposition c;
     num_bases := Z.to_nat (Init.self_num_bases c);
     num_layers := arg_num_layers m;
     message_normalization := Init.self_message_normalization c;
     edge_dropout := arg_edge_dropout m;
     self_loop_dropout := match arg_self_loop_dropout m with
                          | None => arg_edge_dropout m
                          | Some rate => Some rate
                          end;
     use_bias := Init.self_use_bias c;
     use_batch_norm := Init.self_use_batch_norm c;
     buffer_messages := arg_buffer_messages m;
     training := true;
     sources := (fun hrt : triple => hrt.1.1) <$> arg_mapped_triples m;
     targets := (fun hrt : triple => hrt.2) <$> arg_mapped_triples m;
     edge_types := (fun hrt : triple => hrt.1.2) <$> arg_mapped_triples m;
     entity_embeddings := arg_entity_embeddings m;
     bases := []; att := []; biases := []; batch_norms := [];
     activations := None;
     enriched_embeddings := None |}.

(** [_init_weights_on_device] is a method of the base class; it is taken to
    call [init_empty_weights_].  What that raises: [ZeroDivisionError] from
    [embedding_dim // num_bases], else the [ValueError] of
    [calculate_gain]. *)
Definition init_weights_on_device (env : init_env) (self : @RGCN R)
  : Init.result unit :=
  match init_empty_weights_ env self with
  | Some _ => Init.Ok tt
  | None =>
      if String.eqb (decomposition self) "block"
         && bool_decide (num_bases self = 0)
      then Init.Raise Init.ZeroDivisionError
      else Init.Raise (Init.ValueError "Unsupported nonlinearity")
  end.

End Constructor.

(** ** The writes of [index_put_]

    In [l[idx] = vals] with an index that occurs more than once one of the
    values written to it stays, and PyTorch does not say which.  The
    selector and the propagation above take the serial order ([index_put]:
    the last write stays); below they are stated for any kernel. *)

(** [l'] is a result [l[idx] = vals] can have: the entries at other
    indices as before, and at an index of [idx] one of the values written
    to it. *)
Definition write_resolution {A} (l : list A) (idx : list nat) (vals : list A)
  (l' : list A) : Prop :=
  length vals = length idx
  /\ Forall (fun i => i < length l) idx
  /\ length l' = length l
  /\ forall i,
       (i ∉ idx -> l' !! i = l !! i)
       /\ (i ∈ idx -> exists j, idx !! j = Some i /\ l' !! i = vals !! j).

(** A kernel for [node_mask[idx] = vals]. *)
Definition kernel := list bool -> list nat -> list bool -> option (list bool).

(** A kernel that returns only results the write can have. *)
Definition kernel_ok (put : kernel) : Prop :=
  forall l idx vals l', put l idx vals = Some l' -> write_resolution l idx vals l'.

(** The kernel in which the first write to an index stays. *)
Definition index_put_first {A} (l : list A) (idx : list nat) (vals : list A)
  : option (list A) :=
  index_put l (reverse idx) (reverse vals).

(** [neighborhood_round] and [_get_neighborhood] with the kernel [put] for
    their three writes. *)
Definition neighborhood_round_with (put : kernel) (sources targets : list nat)
  (undirected : bool) (node_mask : list bool) : option (list bool) :=
  at_sources ← index_select node_mask sources;
  at_targets ← index_select node_mask targets;
  node_mask ← put node_mask sources (zip_with orb at_sources at_targets);
  if undirected then
    at_targets ← index_select node_mask targets;
    at_sources ← index_select node_mask sources;
    put node_mask targets (zip_with orb at_targets at_sources)
  else Some node_mask.

Definition get_neighborhood_with (put : kernel)
  (start_nodes sources targets : list nat)
  (k num_nodes : nat) (undirected : bool) : option (list bool) :=
  (* Construct node neighbourhood mask *)
  let node_mask := replicate num_nodes false in
  (* Set nodes in batch to true *)
  node_mask ← put node_mask start_nodes (replicate (length start_nodes) true);
  (* Compute k-neighbourhood *)
  node_mask ← foldlM (fun nm _ =>
                        neighborhood_round_with put sources targets undirected nm)
                 (seq 0 k) node_mask;
  (* Create edge mask *)
  edge_mask ← index_select node_mask targets;
  if undirected then
    at_sources ← index_select node_mask sources;
    Some (zip_with orb edge_mask at_sources)
  else Some edge_mask.

(** What a run of [_get_neighborhood] returns, as a function of its
    arguments [start_nodes], [sources], [targets], [k], [num_nodes] and
    [undirected]. *)
Definition selector :=
  list nat -> list nat -> list nat -> nat -> nat -> bool -> option (list bool).

Section Selectors.
Context {R : Type} `{Scalar R}.

(** [propagate] and [_enrich_embeddings] with [select] for the run of the
    selector in them: [get_neighborhood], [get_neighborhood_with put], or
    whatever such a run returns when the writes are not resolved in the
    same way throughout. *)
Definition propagate_with (select : selector) (self : @RGCN R)
  (batch : option (list triple)) (edge_rand node_rand : nat -> R)
  : option (mat R) :=
  let x := entity_embeddings self in
  '(sources, targets, edge_types) ← drop_edges self edge_rand;
  let node_keep_mask := node_mask self node_rand in
  (* If batch is given, compute (num_layers)-hop neighbourhood *)
  edge_mask ← match batch with
              | Some b =>
                  let start_nodes :=
                    fmap (fun hrt : triple => hrt.1.1) b
                    ++ fmap (fun hrt : triple => hrt.2) b in
                  Some <$> select start_nodes sources targets
                             (num_layers self) (num_entities self) true
              | None => Some None
              end;
  foldlM (fun x i => layer self i sources targets edge_types edge_mask
                       node_keep_mask x)
         (seq 0 (num_layers self)) x.

Definition enrich_embeddings_with (select : selector) (self : @RGCN R)
  (batch : option (list triple)) (edge_rand node_rand : nat -> R)
  : option (mat R) * @RGCN R :=
  match batch, enriched_embeddings self with
  | None, Some cached => (Some cached, self)   (* use buffered messages *)
  | _, _ =>
      match propagate_with select self batch edge_rand node_rand with
      | Some x =>
          (Some x,
           if bool_decide (batch = None) && buffer_messages self
           then set_enriched_embeddings self (Some x) else self)
      | None => (None, self)
      end
  end.

(** In a call with a batch, the two runs of the selector return the same
    edge mask on the edges the propagation runs over. *)
Definition selector_agrees (select1 select2 : selector) (self : @RGCN R)
  (batch : option (list triple)) (edge_rand : nat -> R) : Prop :=
  match batch, drop_edges self edge_rand with
  | Some b, Some (sources, targets, _) =>
      let start_nodes :=
        fmap (fun hrt : triple => hrt.1.1) b
        ++ fmap (fun hrt : triple => hrt.2) b in
      select1 start_nodes sources targets
        (num_layers self) (num_entities self) true
      = select2 start_nodes sources targets
          (num_layers self) (num_entities self) true
  | _, _ => True
  end.

End Selectors.

(** ** Example models *)

Module Examples.

(** Three nodes, the edges [0 -> 1] and [1 -> 2] of relation 0 and
    [2 -> 0] of relation 1; basis decomposition with one base matrix. *)
Definition basis_model : @RGCN Z := {|
  num_entities := 3; num_relations := 2; embedding_dim := 2;
  decomposition := "basis"; num_bases := 1; num_layers := 1;
  message_normalization := Some "nonsymmetric";
  edge_dropout := None; self_loop_dropout := None;
  use_bias := false; use_batch_norm := false;
  buffer_messages := true; training := false;
  sources := [0; 1; 2]; targets := [1; 2; 0]; edge_types := [0; 0; 1];
  entity_embeddings := [[1; 2]; [3; 4]; [5; 6]]%Z;
  bases := [BasisTensor [[[1; 2]; [3; 4]]%Z]];
  att := [[[2]; [3]; [10]]%Z];
  biases := []; batch_norms := []; activations := None;
  enriched_embeddings := None |}.

(** Block decomposition: [d = 4] in two blocks of size two. *)
Definition block_model : @RGCN Z := {|
  num_entities := 3; num_relations := 1; embedding_dim := 4;
  decomposition := "block"; num_bases := 2; num_layers := 1;
  message_normalization := Some "symmetric";
  edge_dropout := None; self_loop_dropout := None;
  use_bias := false; use_batch_norm := false;
  buffer_messages := true; training := false;
  sources := [0; 1]; targets := [1; 2]; edge_types := [0; 0];
  entity_embeddings := [[1; 2; 3; 4]; [3; 4; 5; 6]; [5; 6; 7; 8]]%Z;
  bases := [BlockTensor [ [[[1; 2]; [3; 4]]; [[5; 6]; [7; 8]]];
                          [[[1; 1]; [1; 1]]; [[2; 2]; [2; 2]]] ]%Z];
  att := [];
  biases := []; batch_norms := []; activations := None;
  enriched_embeddings := None |}.

(** Node 2 has no edge; relation 1 has no edge; bias and ReLU. *)
Definition isolated_model : @RGCN Z := {|
  num_entities := 3; num_relations := 2; embedding_dim := 2;
  decomposition := "basis"; num_bases := 1; num_layers := 1;
  message_normalization := None;
  edge_dropout := None; self_loop_dropout := None;
  use_bias := true; use_batch_norm := false;
  buffer_messages := true; training := false;
  sources := [0]; targets := [1]; edge_types := [0];
  entity_embeddings := [[1; 2]; [3; 4]; [5; 6]]%Z;
  bases := [BasisTensor [[[1; 0]; [0; 1]]%Z]];
  att := [[[2]; [3]; [10]]%Z];
  biases := [[5; -7]%Z]; batch_norms := [];
  activations := Some [Z.max 0];
  enriched_embeddings := None |}.

(** Training mode with both dropout rates 0, over the rationals: two
    nodes, the edge [0 -> 1], one-dimensional embeddings, no caching. *)
Definition dropout_model : @RGCN QArith_base.Q := {|
  num_entities := 2; num_relations := 1; embedding_dim := 1;
  decomposition := "basis"; num_bases := 1; num_layers := 1;
  message_normalization := None;
  edge_dropout := Some (QArith_base.Qmake 0 1);
  self_loop_dropout := Some (QArith_base.Qmake 0 1);
  use_bias := false; use_batch_norm := false;
  buffer_messages := false; training := true;
  sources := [0]; targets := [1]; edge_types := [0];
  entity_embeddings := [[QArith_base.Qmake 1 1]; [QArith_base.Qmake 2 1]];
  bases := [BasisTensor [[[QArith_base.Qmake 1 1]]]];
  att := [[[QArith_base.Qmake 1 1]; [QArith_base.Qmake 1 1]]];
  biases := []; batch_norms := []; activations := None;
  enriched_embeddings := None |}.

(** Draws of [torch.rand]: every entry one half, and every entry 0. *)
Definition draws_half : nat -> QArith_base.Q := fun _ => QArith_base.Qmake 1 2.
Definition draws_zero : nat -> QArith_base.Q := fun _ => QArith_base.Qmake 0 1.

(** A model as the constructor leaves it, over the rationals: two nodes,
    the edge [0 -> 1], basis decomposition, one layer with a bias. *)
Definition fresh_model : @RGCN QArith_base.Q := {|
  num_entities := 2; num_relations := 1; embedding_dim := 2;
  decomposition := "basis"; num_bases := 1; num_layers := 1;
  message_normalization := Some "nonsymmetric";
  edge_dropout := None; self_loop_dropout := None;
  use_bias := true; use_batch_norm := false;
  buffer_messages := true; training := false;
  sources := [0]; targets := [1]; edge_types := [0];
  entity_embeddings := [[QArith_base.Qmake 1 1; QArith_base.Qmake 2 1];
                        [QArith_base.Qmake 3 1; QArith_base.Qmake 4 1]];
  bases := []; att := []; biases := []; batch_norms := [];
  activations := None;
  enriched_embeddings := None |}.

(** The same with batch normalisation and two layers. *)
Definition fresh_batch_norm_model : @RGCN QArith_base.Q := {|
  num_entities := 2; num_relations := 1; embedding_dim := 2;
  decomposition := "basis"; num_bases := 1; num_layers := 2;
  message_normalization := Some "nonsymmetric";
  edge_dropout := None; self_loop_dropout := None;
  use_bias := false; use_batch_norm := true;
  buffer_messages := true; training := false;
  sources := [0]; targets := [1]; edge_types := [0];
  entity_embeddings := [[QArith_base.Qmake 1 1; QArith_base.Qmake 2 1];
                        [QArith_base.Qmake 3 1; QArith_base.Qmake 4 1]];
  bases := []; att := []; biases := []; batch_norms := [];
  activations := None;
  enriched_embeddings := None |}.

(** ReLU with its gain (the square root of two, rounded as [Rsqrt] rounds),
    a batch normalisation that leaves its input as it is, every entry of the
    normal initialisers [entry] and every uniform draw one half. *)
Definition init_env_with (entry : QArith_base.Q) : @init_env QArith_base.Q := {|
  base_model_init := fun e => e;
  activation_cls :=
    Some (fun a => if QArith_base.Qle_bool (QArith_base.Qmake 0 1) a then a
                   else QArith_base.Qmake 0 1);
  calculate_gain := Some (Rsqrt (QArith_base.Qmake 2 1));
  new_batch_norm := fun _ row => row;
  normal := fun _ _ _ _ _ => entry;
  uniform := fun _ _ _ => QArith_base.Qmake 1 2 |}.

(** A base model for [basis_model]: two relation embeddings, and the
    interaction function of DistMult, the sum of the entries of
    [h * r * t]. *)
Definition distmult_base : @base_model Z := {|
  relation_embeddings := [[1; 1]; [2; -1]]%Z;
  interaction_function := fun h r t =>
    fold_left Z.add (zip_with Z.mul (zip_with Z.mul h r) t) 0%Z |}.

(** Arguments of the constructor: block decomposition of dimension four in
    two blocks, with a bias and batch normalisation asked for; and basis
    decomposition over three relations with the number of bases left to the
    heuristic. *)
Definition block_args : Init.args := {|
  Init.create_inverse_triples := false;
  Init.num_relations := 3%Z;
  Init.embedding_dim := 4%Z;
  Init.num_bases_or_blocks := Some 2%Z;
  Init.decomposition := "block";
  Init.message_normalization := Some "symmetric";
  Init.use_bias := true;
  Init.use_batch_norm := true |}.

Definition heuristic_args : Init.args := {|
  Init.create_inverse_triples := false;
  Init.num_relations := 3%Z;
  Init.embedding_dim := 4%Z;
  Init.num_bases_or_blocks := None;
  Init.decomposition := "basis";
  Init.message_normalization := None;
  Init.use_bias := true;
  Init.use_batch_norm := false |}.

(** A world for the pipeline: values are strings, instances are numbers,
    a model is its assumption; the factory makes the instances 7 (and 8 for
    testing), and nothing in the world raises. *)
Definition pipeline_world
  : Pipeline.world string nat unit unit unit string unit unit string := {|
  Pipeline.EXECUTION_MODE := "execution_mode";
  Pipeline.SEED := "random_seed";
  Pipeline.TEST_SET_PATH := "test_set_path";
  Pipeline.TEST_SET_RATIO := "test_set_ratio";
  Pipeline.TRAINING_MODE := "Training_mode";
  Pipeline.HPO_MODE := "HPO_mode";
  Pipeline.CWA := "CWA";
  Pipeline.OWA := "OWA";
  Pipeline.torch_manual_seed := fun _ => None;
  Pipeline.np_random_seed := fun _ => None;
  Pipeline.get_factory := fun _ => inr tt;
  Pipeline.create_instances := fun _ => inr 7;
  Pipeline.create_train_and_test_instances := fun _ => inr (7, 8);
  Pipeline.multimodal_data := fun _ => None;
  Pipeline.new_model_config := fun _ _ => inr tt;
  Pipeline.get_kge_model := fun _ => inr "OWA";
  Pipeline.kg_assumption := fun m => m;
  Pipeline.OWATrainingLoop := fun _ _ _ => inr tt;
  Pipeline.training_loop_train := fun _ => inr ("OWA", tt);
  Pipeline.basic_utils_is_evaluation_requested := fun _ => inr false |}.

(** A configuration that asks for training and for an evaluation. *)
Definition pipeline_config : gmap string string :=
  <["execution_mode" := "Training_mode"]>
    (<["random_seed" := "2"]> (<["test_set_ratio" := "0.2"]> ∅)).

(** Arguments in none of the five cases the checks raise in, for a model
    with [activation_cls = nn.LeakyReLU]; and block decomposition with zero
    blocks. *)
Definition leaky_args : Init.args := {|
  Init.create_inverse_triples := false;
  Init.num_relations := 1%Z;
  Init.embedding_dim := 2%Z;
  Init.num_bases_or_blocks := Some 1%Z;
  Init.decomposition := "basis";
  Init.message_normalization := Some "nonsymmetric";
  Init.use_bias := true;
  Init.use_batch_norm := false |}.

Definition leaky_more : @more_args QArith_base.Q := {|
  arg_num_entities := 2;
  arg_num_layers := 1;
  arg_edge_dropout := None;
  arg_self_loop_dropout := None;
  arg_buffer_messages := true;
  arg_mapped_triples := [(0, 0, 1)];
  arg_entity_embeddings := [[QArith_base.Qmake 1 1; QArith_base.Qmake 2 1];
                            [QArith_base.Qmake 3 1; QArith_base.Qmake 4 1]] |}.

Definition leaky_env : @init_env QArith_base.Q := {|
  base_model_init := fun e => e;
  activation_cls :=
    Some (fun a => if QArith_base.Qle_bool (QArith_base.Qmake 0 1) a then a
                   else Rdiv a (QArith_base.Qmake 100 1));
  calculate_gain := calculate_gain_of (lower "LeakyReLU");
  new_batch_norm := fun _ row => row;
  normal := fun _ _ _ _ _ => QArith_base.Qmake 1 10;
  uniform := fun _ _ _ => QArith_base.Qmake 1 2 |}.

Definition zero_block_args : Init.args := {|
  Init.create_inverse_triples := false;
  Init.num_relations := 1%Z;
  Init.embedding_dim := 2%Z;
  Init.num_bases_or_blocks := Some 0%Z;
  Init.decomposition := "block";
  Init.message_normalization := None;
  Init.use_bias := true;
  Init.use_batch_norm := false |}.

(** Four nodes, the edges [0 -> 1], [0 -> 2] and [3 -> 0] of one relation,
    two layers whose weights are the identity, evaluation mode, no dropout,
    no caching: node 0 is written to twice in the first update of a round
    of the selector. *)
Definition order_model : @RGCN Z := {|
  num_entities := 4; num_relations := 1; embedding_dim := 1;
  decomposition := "basis"; num_bases := 1; num_layers := 2;
  message_normalization := None;
  edge_dropout := None; self_loop_dropout := None;
  use_bias := false; use_batch_norm := false;
  buffer_messages := false; training := false;
  sources := [0; 0; 3]; targets := [1; 2; 0]; edge_types := [0; 0; 0];
  entity_embeddings := [[1]; [10]; [100]; [1000]]%Z;
  bases := [BasisTensor [[[1]]%Z]; BasisTensor [[[1]]%Z]];
  att := [[[1]; [1]]%Z; [[1]; [1]]%Z];
  biases := []; batch_norms := []; activations := None;
  enriched_embeddings := None |}.

End Examples.

(** * Results *)

(** ** Indexing and loops *)

Section IndexingFacts.
Context {A : Type}.
Implicit Types (l : list A) (m : list bool) (idx : list nat).

Lemma foldlM_app {B} (f : B -> A -> option B) l1 l2 (b : B) :
  foldlM f (l1 ++ l2) b = foldlM f l1 b ≫= foldlM f l2.
Proof.
  revert b. induction l1 as [|x l1 IH]; intros b; simpl; [done|].
  destruct (f b x); simpl; [apply IH|done].
Qed.

Lemma foldlM_ext {B} (f g : B -> A -> option B) l (b : B) :
  (forall b x, x ∈ l -> f b x = g b x) -> foldlM f l b = foldlM g l b.
Proof.
  revert b. induction l as [|x l IH]; intros b Hfg; simpl; [done|].
  rewrite Hfg by left. destruct (g b x); simpl; [|done].
  apply IH. intros b' y Hy. apply Hfg. by right.
Qed.

(** An invariant of the loop body holds after the loop. *)
Lemma foldlM_invariant {B} (P : B -> Prop) (f : B -> A -> option B) l b b' :
  (forall b x b', x ∈ l -> P b -> f b x = Some b' -> P b') ->
  P b -> foldlM f l b = Some b' -> P b'.
Proof.
  revert b. induction l as [|x l IH]; intros b Hstep Hb; simpl.
  - by intros [= <-].
  - destruct (f b x) as [b1|] eqn:Hf; simpl; [|done].
    apply IH; [|by eapply Hstep; [left|..]].
    intros b2 y b3 Hy. apply Hstep. by right.
Qed.

(** What a mask selects comes from a position where the mask is set. *)
Lemma elem_of_masked l m x :
  x ∈ masked l m -> exists j, l !! j = Some x /\ m !! j = Some true.
Proof.
  revert m. induction l as [|y l IH]; intros [|b m]; simpl;
    try (by intros ?%elem_of_nil).
  destruct b.
  - intros [->|Hx]%elem_of_cons; [by exists 0|].
    destruct (IH _ Hx) as (j & ? & ?). by exists (S j).
  - intros Hx. destruct (IH _ Hx) as (j & ? & ?). by exists (S j).
Qed.

Lemma mask_select_Some l m k :
  mask_select l m = Some k <-> length m = length l /\ k = masked l m.
Proof.
  unfold mask_select. destruct (decide _) as [Hl|Hl].
  - split; [by intros [= <-]|by intros [_ ->]].
  - split; [done|by intros [? _]].
Qed.

(** Writing back through a mask what a row-wise map made of the selected
    rows changes exactly the selected rows. *)
Lemma mask_put_map (f : A -> A) l m :
  length m = length l ->
  mask_put l m (f <$> masked l m)
  = Some (zip_with (fun x (b : bool) => if b then f x else x) l m).
Proof.
  revert m. induction l as [|x l IH]; intros [|b m] Hlen; simpl in *; try done.
  destruct b; simpl; rewrite IH by lia; done.
Qed.

Lemma index_select_Some l idx k :
  index_select l idx = Some k <-> Forall2 (fun i y => l !! i = Some y) idx k.
Proof. apply mapM_Some. Qed.

Lemma index_select_length l idx k :
  index_select l idx = Some k -> length k = length idx.
Proof. intros ?%index_select_Some. symmetry. by eapply Forall2_length. Qed.

Lemma index_select_is_Some l idx :
  Forall (fun i => i < length l) idx -> is_Some (index_select l idx).
Proof.
  intros Hall. apply mapM_is_Some. eapply Forall_impl; [done|].
  intros i Hi. by apply lookup_lt_is_Some.
Qed.

(** Reading at indices other than [v] does not see what is stored at [v]. *)
Lemma index_select_insert_ne l idx v y :
  v ∉ idx -> index_select (<[v := y]> l) idx = index_select l idx.
Proof.
  unfold index_select. induction idx as [|i idx IH]; intros Hv; simpl; [done|].
  apply not_elem_of_cons in Hv as [Hne Hv].
  rewrite list_lookup_insert_ne by done. by rewrite IH.
Qed.

End IndexingFacts.

Lemma enumerate_lookup {A} (l : list A) j :
  enumerate l !! j = (fun y => (j, y)) <$> l !! j.
Proof.
  unfold enumerate. rewrite lookup_zip_with.
  destruct (l !! j) as [y|] eqn:Hj; simpl.
  - rewrite lookup_seq_lt by (by eapply lookup_lt_Some). done.
  - by destruct (seq 0 (length l) !! j).
Qed.

Lemma existsb_false_lookup {A} (f : A -> bool) (l : list A) j y :
  existsb f l = false -> l !! j = Some y -> f y = false.
Proof.
  revert j. induction l as [|z l IH]; intros [|j]; simpl; try done.
  - intros [? _]%orb_false_iff [= <-]. done.
  - intros [_ ?]%orb_false_iff. by apply IH.
Qed.


(** ** Tensors *)

Section TensorFacts.
Context {R : Type} `{Scalar R}.
Implicit Types (x w m acc : mat R) (row : vec R).

Lemma zeros_like_length x : length (zeros_like x) = length x.
Proof. unfold zeros_like. by rewrite length_fmap. Qed.

Lemma zeros_like_lookup x v :
  zeros_like x !! v = (fun row => replicate (length row) R0) <$> x !! v.
Proof.
  unfold zeros_like. rewrite list_lookup_fmap. destruct (x !! v) as [row|]; [|done].
  simpl. f_equal. induction row; simpl; [done|]. by f_equal.
Qed.

Lemma zeros_like_insert x v row row' :
  x !! v = Some row -> length row' = length row ->
  zeros_like (<[v := row']> x) = zeros_like x.
Proof.
  intros Hv Hlen. apply list_eq. intros j. rewrite !zeros_like_lookup.
  destruct (decide (j = v)) as [->|Hne].
  - rewrite list_lookup_insert_eq by (by eapply lookup_lt_Some).
    rewrite Hv. simpl. by rewrite Hlen.
  - by rewrite list_lookup_insert_ne.
Qed.


Lemma entry_Some n d m j k :
  mat_shape n d m -> j < n -> k < d -> entry m j k = Some (get m j k).
Proof.
  intros [Hlen Hrows] Hj Hk. unfold get, entry.
  destruct (lookup_lt_is_Some_2 m j) as [row Hrow]; [lia|].
  rewrite Hrow. simpl.
  assert (length row = d) as Hd.
  { eapply Forall_lookup_1 in Hrows; [|done]. done. }
  destruct (lookup_lt_is_Some_2 row k) as [e ->]; [lia|]. done.
Qed.

Lemma mat_shape_replicate n d (row : vec R) :
  length row = d -> mat_shape n d (replicate n row).
Proof.
  intros Hd. split; [by rewrite length_replicate|].
  apply Forall_forall. by intros ? [-> _]%elem_of_replicate.
Qed.

Lemma zeros_shape n d : mat_shape n d (zeros n d : mat R).
Proof. apply mat_shape_replicate. by rewrite length_replicate. Qed.

Lemma get_zeros n d j k : j < n -> k < d -> get (zeros n d) j k = R0.
Proof.
  intros Hj Hk. unfold get, entry, zeros.
  rewrite lookup_replicate_2 by done. simpl. by rewrite lookup_replicate_2.
Qed.

Lemma zeros_like_zeros n d m : mat_shape n d m -> zeros_like m = zeros n d.
Proof.
  intros [Hlen Hrows]. apply list_eq. intros j.
  rewrite zeros_like_lookup. unfold zeros.
  destruct (m !! j) as [row|] eqn:Hrow; simpl.
  - rewrite lookup_replicate_2 by (rewrite <- Hlen; by eapply lookup_lt_Some).
    eapply Forall_lookup_1 in Hrows; [|done]. by rewrite Hrows.
  - symmetry. apply lookup_replicate_None. apply lookup_ge_None in Hrow. lia.
Qed.

Lemma mat_add_shape n d (a b : mat R) :
  mat_shape n d a -> mat_shape n d b -> mat_shape n d (mat_add a b).
Proof.
  intros [Hla Hra] [Hlb Hrb]. unfold mat_add. split.
  - rewrite length_zip_with. lia.
  - apply Forall_forall. intros row (ra & rb & -> & Ha & Hb)%elem_of_zip_with.
    rewrite Forall_forall in Hra, Hrb. unfold vec_add.
    rewrite length_zip_with, (Hra _ Ha), (Hrb _ Hb). lia.
Qed.

Lemma get_mat_add n d (a b : mat R) j k :
  mat_shape n d a -> mat_shape n d b -> j < n -> k < d ->
  get (mat_add a b) j k = Radd (get a j k) (get b j k).
Proof.
  intros Ha Hb Hj Hk.
  pose proof (entry_Some _ _ _ _ _ Ha Hj Hk) as Hea.
  pose proof (entry_Some _ _ _ _ _ Hb Hj Hk) as Heb.
  unfold get at 1. unfold entry in *. unfold mat_add, vec_add.
  rewrite lookup_zip_with.
  destruct (a !! j) as [ra|]; simpl in *; [|done].
  destruct (b !! j) as [rb|]; simpl in *; [|done].
  rewrite lookup_zip_with, Hea, Heb. done.
Qed.

Lemma mat_scale_shape n d (c : R) m : mat_shape n d m -> mat_shape n d (mat_scale c m).
Proof.
  intros [Hl Hr]. unfold mat_scale, vec_scale. split; [by rewrite length_fmap|].
  apply Forall_fmap. eapply Forall_impl; [done|]. intros row Hrow. simpl.
  by rewrite length_fmap.
Qed.

Lemma get_mat_scale n d (c : R) m j k :
  mat_shape n d m -> j < n -> k < d ->
  get (mat_scale c m) j k = Rmul c (get m j k).
Proof.
  intros Hm Hj Hk. pose proof (entry_Some _ _ _ _ _ Hm Hj Hk) as He.
  unfold get at 1. unfold entry in *. unfold mat_scale, vec_scale.
  rewrite list_lookup_fmap. destruct (m !! j) as [row|]; simpl in *; [|done].
  by rewrite list_lookup_fmap, He.
Qed.

(** [torch.sum] over the first dimension, entry by entry. *)
Lemma fold_mat_add n d (t : list (mat R)) acc :
  Forall (mat_shape n d) t -> mat_shape n d acc ->
  mat_shape n d (fold_left mat_add t acc)
  /\ forall j k, j < n -> k < d ->
       get (fold_left mat_add t acc) j k
       = fold_left Radd ((fun m => get m j k) <$> t) (get acc j k).
Proof.
  revert acc. induction t as [|m t IH]; intros acc Ht Hacc; simpl; [done|].
  apply Forall_cons in Ht as [Hm Ht].
  destruct (IH (mat_add acc m) Ht (mat_add_shape _ _ _ _ Hacc Hm)) as [Hs He].
  split; [done|]. intros j k Hj Hk.
  by rewrite He, (get_mat_add n d).
Qed.

End TensorFacts.

(** ** The relation weight generator *)

Section Weights.
Context {R : Type} `{Scalar R}.
Implicit Types (self : @RGCN R) (w m acc : mat R) (row : vec R).

Lemma sum_dim0_shape_get d (t : list (mat R)) :
  Forall (mat_shape d d) t ->
  mat_shape d d (sum_dim0 d t)
  /\ forall j k, j < d -> k < d ->
       get (sum_dim0 d t) j k = fold_left Radd ((fun m => get m j k) <$> t) R0.
Proof.
  intros Ht. unfold sum_dim0.
  assert (match t with m :: _ => zeros_like m | [] => zeros d d end = zeros d d)
    as ->.
  { destruct t as [|m t]; [done|]. apply Forall_cons in Ht as [Hm _].
    by apply zeros_like_zeros. }
  destruct (fold_mat_add d d t (zeros d d) Ht (zeros_shape d d)) as [Hs He].
  split; [done|]. intros j k Hj Hk. by rewrite He, get_zeros.
Qed.

Lemma broadcast_mul_same_length (att_r : vec R) (b : list (mat R)) :
  length att_r = length b ->
  broadcast_mul att_r b = Some (zip_with mat_scale att_r b).
Proof.
  intros Hlen. unfold broadcast_mul.
  destruct att_r as [|a [|a' att_r]], b as [|m [|m' b]]; simpl in *; try done.
  all: destruct (decide _) as [|Hne]; [done|]; exfalso; apply Hne; lia.
Qed.

Lemma get_zip_with_mat_scale d (att_r : vec R) (b : list (mat R)) j k :
  Forall (mat_shape d d) b -> j < d -> k < d ->
  (fun m => get m j k) <$> zip_with mat_scale att_r b
  = zip_with (fun a m => Rmul a (get m j k)) att_r b.
Proof.
  intros Hb Hj Hk. revert att_r.
  induction b as [|m b IH]; intros [|a att_r]; try done.
  apply Forall_cons in Hb as [Hm Hb]. cbn.
  rewrite (get_mat_scale d d) by done. f_equal. by apply IH.
Qed.

Lemma zip_with_mat_scale_shape d (att_r : vec R) (b : list (mat R)) :
  Forall (mat_shape d d) b -> Forall (mat_shape d d) (zip_with mat_scale att_r b).
Proof.
  intros Hb. revert att_r.
  induction b as [|m b IH]; intros [|a att_r]; try done.
  apply Forall_cons in Hb as [Hm Hb]. cbn.
  apply Forall_cons. split; [by apply mat_scale_shape|by apply IH].
Qed.

(** The basis branch of [_get_relation_weights]. *)
Lemma get_relation_weights_basis self i r :
  decomposition self = "basis" ->
  get_relation_weights self i r
  = att_r ← att self !! i ≫= (fun a => a !! r);
    b ← bases self !! i ≫= as_bases;
    sum_dim0 (embedding_dim self) <$> broadcast_mul att_r b.
Proof. intros Hdec. unfold get_relation_weights. by rewrite Hdec. Qed.

(** C1.  In basis decomposition, for every layer [i] and every relation
    index [r] up to [num_relations] (the index of the self-loop relation),
    the generated weight matrix is the attention-weighted sum of the base
    matrices of the layer, the weights being row [r] of the attention tensor
    of the layer; replacing another row [r'] of that attention tensor leaves
    the weight matrix of [r] as it is. *)
Theorem basis_weights_weighted_sum self i r :
  basis_params_ok self -> i < num_layers self -> r <= num_relations self ->
  exists a att_r b w,
    att self !! i = Some a /\ a !! r = Some att_r
    /\ bases self !! i = Some (BasisTensor b)
    /\ get_relation_weights self i r = Some w
    /\ mat_shape (embedding_dim self) (embedding_dim self) w
    /\ (forall j k, j < embedding_dim self -> k < embedding_dim self ->
          entry w j k = Some (weighted_sum att_r b j k))
    /\ (forall r' row', r' <> r ->
          get_relation_weights
            (set_att self (<[i := <[r' := row']> a]> (att self))) i r
          = Some w).
Proof.
  intros (Hdec & Hla & Hlb & Hatt & Hbases) Hi Hr.
  destruct (lookup_lt_is_Some_2 (att self) i) as [a Ha]; [lia|].
  destruct (lookup_lt_is_Some_2 (bases self) i) as [t Ht]; [lia|].
  pose proof (Forall_lookup_1 _ _ _ _ Hatt Ha) as [Hrows Hcols].
  pose proof (Forall_lookup_1 _ _ _ _ Hbases Ht) as Hb.
  destruct t as [b|]; [|done]. destruct Hb as [Hnb Hshape].
  destruct (lookup_lt_is_Some_2 a r) as [att_r Hatt_r]; [lia|].
  pose proof (Forall_lookup_1 _ _ _ _ Hcols Hatt_r) as Hlen. simpl in Hlen.
  set (w := sum_dim0 (embedding_dim self) (zip_with mat_scale att_r b)).
  assert (Hw : get_relation_weights self i r = Some w).
  { rewrite get_relation_weights_basis by done.
    rewrite Ha, Ht. simpl. rewrite Hatt_r. simpl.
    rewrite broadcast_mul_same_length by lia. done. }
  destruct (sum_dim0_shape_get (embedding_dim self) (zip_with mat_scale att_r b))
    as [Hws Hwe]; [by apply zip_with_mat_scale_shape|].
  exists a, att_r, b, w. repeat (split; [done|]). split.
  - intros j k Hj Hk. rewrite (entry_Some _ _ w _ _ Hws Hj Hk). f_equal.
    unfold w.
    rewrite Hwe by done. unfold weighted_sum.
    by rewrite (get_zip_with_mat_scale (embedding_dim self)).
  - intros r' row' Hne. rewrite <- Hw.
    rewrite !get_relation_weights_basis by done. simpl.
    rewrite list_lookup_insert_eq by lia. simpl.
    by rewrite list_lookup_insert_ne, Ha.
Qed.

(** *** Block decomposition *)

Lemma range_step_blocks nb bs :
  0 < bs -> range_step (nb * bs) bs = (fun q => q * bs) <$> seq 0 nb.
Proof.
  intros Hbs. unfold range_step. f_equal. f_equal.
  replace (nb * bs + bs - 1) with (nb * bs + (bs - 1)) by lia.
  rewrite Nat.div_add_l by lia. rewrite Nat.div_small by lia. lia.
Qed.

Lemma enumerate_fmap_seq {A} (f : nat -> A) n :
  enumerate (f <$> seq 0 n) = (fun q => (q, f q)) <$> seq 0 n.
Proof.
  apply list_eq. intros j. rewrite enumerate_lookup, !list_lookup_fmap.
  destruct (decide (j < n)).
  - rewrite lookup_seq_lt by done. done.
  - rewrite lookup_seq_ge by lia. done.
Qed.

Lemma assign_block_spec d w s n blk :
  mat_shape d d w -> mat_shape n n blk -> s + n <= d ->
  exists w', assign_block w s (s + n) blk = Some w'
    /\ mat_shape d d w'
    /\ forall j k, j < d -> k < d ->
         get w' j k = if decide ((s <= j < s + n) /\ (s <= k < s + n))
                      then get blk (j - s) (k - s) else get w j k.
Proof.
  intros [Hlw Hrw] [Hlb Hrb] Hle. unfold assign_block.
  replace (s + n - s) with n by lia.
  assert (Hrows : Forall (fun row : vec R => length row = d) (take n (drop s w))).
  { by apply Forall_take, Forall_drop. }
  assert (Hlrows : length (take n (drop s w)) = n).
  { rewrite length_take, length_drop. lia. }
  destruct (decide _) as [_|Hno].
  2: { exfalso. apply Hno. split; [lia|]. split; [|done].
       eapply Forall_impl; [exact Hrows|]. intros row Hrow. simpl in *. lia. }
  eexists. split; [done|].
  set (mid := zip_with (fun row brow : vec R => take s row ++ brow ++ drop (s + n) row)
                (take n (drop s w)) blk).
  assert (Hlmid : length mid = n).
  { unfold mid. rewrite length_zip_with. lia. }
  assert (Hmid : forall i, i < n ->
            exists row brow, w !! (s + i) = Some row /\ blk !! i = Some brow
              /\ length row = d /\ length brow = n
              /\ mid !! i = Some (take s row ++ brow ++ drop (s + n) row)).
  { intros i Hi. unfold mid. rewrite lookup_zip_with.
    rewrite lookup_take_lt, lookup_drop by done.
    destruct (lookup_lt_is_Some_2 w (s + i)) as [row Hrow]; [lia|].
    destruct (lookup_lt_is_Some_2 blk i) as [brow Hbrow]; [lia|].
    exists row, brow. rewrite Hrow, Hbrow. simpl.
    repeat split; try done.
    - by eapply (Forall_lookup_1 _ _ _ _ Hrw).
    - by eapply (Forall_lookup_1 _ _ _ _ Hrb). }
  split.
  - split.
    + rewrite !length_app, length_take, length_drop, Hlmid. lia.
    + rewrite !Forall_app. split; [by apply Forall_take|]. split; [|by apply Forall_drop].
      apply Forall_lookup. intros i row Hi.
      pose proof (lookup_lt_Some _ _ _ Hi) as Hlt. rewrite Hlmid in Hlt.
      destruct (Hmid i Hlt) as (row0 & brow & _ & _ & Hr0 & Hb0 & Hm).
      rewrite Hm in Hi. injection Hi as <-.
      rewrite !length_app, length_take, length_drop. lia.
  - intros j k Hj Hk. unfold get, entry.
    assert (Hlt : length (take s w) = s) by (rewrite length_take; lia).
    destruct (decide (j < s)) as [Hjs|Hjs].
    { rewrite lookup_app_l by lia. rewrite lookup_take_lt by done.
      rewrite decide_False by lia. done. }
    rewrite lookup_app_r by lia. rewrite Hlt.
    destruct (decide (j < s + n)) as [Hjn|Hjn].
    + rewrite lookup_app_l by lia.
      destruct (Hmid (j - s)) as (row & brow & Hrow & Hbrow & Hlr & Hlb' & ->); [lia|].
      replace (s + (j - s)) with j in Hrow by lia. rewrite Hrow, Hbrow. simpl.
      assert (Hltr : length (take s row) = s) by (rewrite length_take; lia).
      destruct (decide (k < s)) as [Hks|Hks].
      { rewrite lookup_app_l by lia. rewrite lookup_take_lt by done.
        rewrite decide_False by lia. done. }
      rewrite lookup_app_r by lia. rewrite Hltr.
      destruct (decide (k < s + n)) as [Hkn|Hkn].
      * rewrite lookup_app_l by lia. rewrite decide_True by lia. done.
      * rewrite lookup_app_r by lia. rewrite lookup_drop, Hlb'.
        replace (s + n + (k - s - n)) with k by lia.
        rewrite decide_False by lia. done.
    + rewrite lookup_app_r by lia. rewrite lookup_drop, Hlmid.
      replace (s + n + (j - s - n)) with j by lia.
      rewrite decide_False by lia. done.
Qed.

Lemma div_eq_iff j bs n : 0 < bs -> j / bs = n <-> n * bs <= j < n * bs + bs.
Proof.
  intros Hbs. pose proof (Nat.div_mod_eq j bs) as Hdm.
  pose proof (Nat.mod_upper_bound j bs) as Hm. split.
  - intros <-. nia.
  - intros [Hlo Hhi]. symmetry. apply (Nat.div_unique j bs n (j - n * bs)); lia.
Qed.

Lemma mod_eq_sub j bs : 0 < bs -> j mod bs = j - j / bs * bs.
Proof. intros Hbs. pose proof (Nat.div_mod_eq j bs). nia. Qed.

(** The loop over the blocks, after its first [n] rounds: the blocks
    written so far are in place, every other entry is still zero. *)
Lemma block_loop d bs (t : list (list (mat R))) r blocks n :
  0 < bs -> t !! r = Some blocks -> Forall (mat_shape bs bs) blocks ->
  length blocks * bs = d -> n <= length blocks ->
  exists w,
    foldlM (fun (w : mat R) '(b, start) =>
              blk ← t !! r ≫= (fun row : list (mat R) => row !! b);
              assign_block w start (start + bs) blk)
           ((fun q => (q, q * bs)) <$> seq 0 n) (zeros d d) = Some w
    /\ mat_shape d d w
    /\ forall j k, j < d -> k < d ->
         get w j k = if decide (j / bs = k / bs /\ j / bs < n)
                     then get (default [] (blocks !! (j / bs))) (j mod bs) (k mod bs)
                     else R0.
Proof.
  intros Hbs Hr Hblocks Hd. induction n as [|n IH]; intros Hn.
  - exists (zeros d d). split; [done|]. split; [apply zeros_shape|].
    intros j k Hj Hk. rewrite get_zeros by done. rewrite decide_False by lia. done.
  - destruct IH as (w & Hloop & Hshape & Hget); [lia|].
    destruct (lookup_lt_is_Some_2 blocks n) as [blk Hblk]; [lia|].
    pose proof (Forall_lookup_1 _ _ _ _ Hblocks Hblk) as Hbshape.
    destruct (assign_block_spec d w (n * bs) bs blk Hshape Hbshape)
      as (w' & Hassign & Hshape' & Hget'); [nia|].
    exists w'. split; [|split; [done|]].
    + rewrite seq_S, fmap_app, foldlM_app, Hloop. simpl.
      rewrite Hr. simpl. rewrite Hblk. simpl. by rewrite Hassign.
    + intros j k Hj Hk. rewrite Hget', Hget by done.
      pose proof (div_eq_iff j bs n Hbs) as Hjn.
      pose proof (div_eq_iff k bs n Hbs) as Hkn.
      destruct (decide ((n * bs <= j < n * bs + bs) /\ (n * bs <= k < n * bs + bs)))
        as [[Hjb Hkb]|Hout].
      * apply Hjn in Hjb. apply Hkn in Hkb.
        rewrite decide_True by lia. rewrite Hjb, Hblk. simpl.
        rewrite !mod_eq_sub by done. by rewrite Hjb, Hkb.
      * destruct (decide (j / bs = k / bs /\ j / bs < n)) as [[Heq Hlt]|Hno].
        { rewrite decide_True by lia. done. }
        rewrite decide_False; [done|]. intros [Heq Hlt]. apply Hout.
        assert (j / bs = n) by (destruct (decide (j / bs = n)); [done|]; exfalso; apply Hno; lia).
        split; [by apply Hjn|apply Hkn; lia].
Qed.

(** C2.  In block decomposition, for every layer [i] and every relation
    index [r] up to [num_relations], the generated weight matrix is a
    [(d, d)] matrix that is block-diagonal: the entries of its [b]-th
    diagonal block, of size [d / num_bases], are those of the stored block
    [blocks[i][r, b]], and every entry outside the diagonal blocks is zero. *)
Theorem block_weights_block_diagonal self i r :
  block_params_ok self -> i < num_layers self -> r <= num_relations self ->
  exists t blocks w,
    bases self !! i = Some (BlockTensor t) /\ t !! r = Some blocks
    /\ get_relation_weights self i r = Some w
    /\ mat_shape (embedding_dim self) (embedding_dim self) w
    /\ (forall b blk u v,
          blocks !! b = Some blk ->
          u < embedding_dim self / num_bases self ->
          v < embedding_dim self / num_bases self ->
          entry w (b * (embedding_dim self / num_bases self) + u)
                  (b * (embedding_dim self / num_bases self) + v)
          = entry blk u v)
    /\ (forall j k,
          j < embedding_dim self -> k < embedding_dim self ->
          j / (embedding_dim self / num_bases self)
          <> k / (embedding_dim self / num_bases self) ->
          entry w j k = Some R0).
Proof.
  intros (Hdec & Hnb & Hdpos & Hmod & Hlb & Hbases) Hi Hr.
  set (d := embedding_dim self) in *. set (nb := num_bases self) in *.
  set (bs := d / nb) in *.
  assert (Hd : nb * bs = d).
  { unfold bs. pose proof (Nat.div_mod_eq d nb). lia. }
  assert (Hbs : 0 < bs) by nia.
  destruct (lookup_lt_is_Some_2 (bases self) i) as [lt Hlt]; [lia|].
  pose proof (Forall_lookup_1 _ _ _ _ Hbases Hlt) as Hok.
  destruct lt as [|t]; [done|]. destruct Hok as [Hlen Hrows].
  destruct (lookup_lt_is_Some_2 t r) as [blocks Hblocks]; [lia|].
  pose proof (Forall_lookup_1 _ _ _ _ Hrows Hblocks) as [Hlbl Hshapes].
  fold bs in Hshapes. fold nb in Hlbl.
  destruct (block_loop d bs t r blocks nb Hbs Hblocks Hshapes) as (w & Hloop & Hshape & Hget);
    [by rewrite Hlbl|lia|].
  exists t, blocks, w. repeat (split; [done|]). split; [|split; [done|split]].
  - unfold get_relation_weights. rewrite Hdec. simpl.
    rewrite Hlt. simpl. fold nb d.
    rewrite decide_False by lia. fold bs. rewrite decide_False by lia.
    rewrite <- Hd at 1. rewrite range_step_blocks by done.
    by rewrite enumerate_fmap_seq.
  - intros b blk u v Hblk Hu Hv.
    pose proof (lookup_lt_Some _ _ _ Hblk) as Hb. rewrite Hlbl in Hb.
    pose proof (Forall_lookup_1 _ _ _ _ Hshapes Hblk) as Hbshape.
    assert (b * bs + u < d /\ b * bs + v < d) as [Hj Hk] by nia.
    rewrite (entry_Some _ _ _ _ _ Hshape Hj Hk), (entry_Some _ _ _ _ _ Hbshape Hu Hv).
    f_equal. rewrite Hget by done.
    assert ((b * bs + u) / bs = b) as Hjb by (apply div_eq_iff; lia).
    assert ((b * bs + v) / bs = b) as Hkb by (apply div_eq_iff; lia).
    rewrite decide_True by lia. rewrite !mod_eq_sub by done.
    rewrite Hjb, Hkb, Hblk. simpl. f_equal; lia.
  - intros j k Hj Hk Hne. rewrite (entry_Some _ _ _ _ _ Hshape Hj Hk). f_equal.
    rewrite Hget by done. by rewrite decide_False by tauto.
Qed.

End Weights.

(** ** The neighbourhood selector *)

Section Selector.
Implicit Types (nm : list bool) (sources targets start_nodes : list nat).

Lemma index_put_length {A} (l : list A) idx vals l' :
  index_put l idx vals = Some l' -> length l' = length l.
Proof.
  revert l vals. induction idx as [|i idx IH]; intros l [|v vals]; simpl; try done.
  - by intros [= <-].
  - destruct (decide _); [|done]. intros ->%IH. by rewrite length_insert.
Qed.

Lemma index_put_in_range {A} (l : list A) idx vals l' i :
  index_put l idx vals = Some l' -> i ∈ idx -> i < length l.
Proof.
  revert l vals. induction idx as [|i' idx IH]; intros l [|v vals]; simpl;
    try done; try (by intros _ ?%elem_of_nil).
  destruct (decide _) as [Hlt|]; [|done].
  intros Hput [->|Hin]%elem_of_cons; [done|].
  rewrite <- (length_insert l i' v). by eapply IH.
Qed.

(** Writing back marks or-ed with anything unmarks no node. *)
Lemma index_put_or_keeps_marks nm0 nm idx (ys zs : list bool) nm' :
  index_select nm0 idx = Some ys ->
  index_put nm idx (zip_with orb ys zs) = Some nm' ->
  (forall v, nm0 !! v = Some true -> nm !! v = Some true) ->
  forall v, nm0 !! v = Some true -> nm' !! v = Some true.
Proof.
  intros Hsel%index_select_Some. revert nm zs.
  induction Hsel as [|i y idx ys Hi Hsel IH]; intros nm zs; simpl.
  - by intros [= <-].
  - destruct zs as [|z zs]; simpl; [done|].
    destruct (decide (i < length nm)) as [Hlt|]; [|done].
    intros Hput Hle. apply (IH _ _ Hput). intros v Hv.
    destruct (decide (v = i)) as [->|Hne].
    + rewrite list_lookup_insert_eq by done.
      rewrite Hi in Hv. by injection Hv as ->.
    + rewrite list_lookup_insert_ne by done. by apply Hle.
Qed.

Lemma index_put_all_true nm idx nm' v :
  index_put nm idx (replicate (length idx) true) = Some nm' ->
  nm' !! v = Some true <-> nm !! v = Some true \/ (v ∈ idx).
Proof.
  revert nm. induction idx as [|i idx IH]; intros nm; simpl.
  - intros [= <-]. rewrite elem_of_nil. tauto.
  - destruct (decide (i < length nm)) as [Hlt|]; [|done].
    intros Hput. rewrite (IH _ Hput), elem_of_cons.
    destruct (decide (v = i)) as [->|Hne].
    + rewrite list_lookup_insert_eq by done. tauto.
    + rewrite list_lookup_insert_ne by done. tauto.
Qed.

(** A round of the selector never unmarks a node. *)
Lemma neighborhood_round_keeps_marks sources targets undirected nm nm' v :
  neighborhood_round sources targets undirected nm = Some nm' ->
  nm !! v = Some true -> nm' !! v = Some true.
Proof.
  unfold neighborhood_round.
  destruct (index_select nm sources) as [at_s|] eqn:Hs; simpl; [|done].
  destruct (index_select nm targets) as [at_t|] eqn:Ht; simpl; [|done].
  destruct (index_put nm sources _) as [nm1|] eqn:Hput; simpl; [|done].
  assert (H1 : forall v, nm !! v = Some true -> nm1 !! v = Some true).
  { by apply (index_put_or_keeps_marks nm nm sources at_s at_t). }
  destruct undirected; [|intros [= <-]; by apply H1].
  destruct (index_select nm1 targets) as [at_t1|] eqn:Ht1; simpl; [|done].
  destruct (index_select nm1 sources) as [at_s1|] eqn:Hs1; simpl; [|done].
  intros Hput2 Hv.
  eapply (index_put_or_keeps_marks nm1 nm1 targets at_t1 at_s1); eauto.
Qed.

Lemma neighborhood_rounds_S sources targets undirected k nm :
  foldlM (fun nm _ => neighborhood_round sources targets undirected nm)
         (seq 0 (S k)) nm
  = foldlM (fun nm _ => neighborhood_round sources targets undirected nm)
           (seq 0 k) nm
    ≫= neighborhood_round sources targets undirected.
Proof.
  rewrite seq_S, foldlM_app. simpl.
  destruct (foldlM _ (seq 0 k) nm) as [nm'|]; simpl; [|done].
  by destruct (neighborhood_round _ _ _ nm').
Qed.

(** The edge mask read off the node mask. *)
Lemma edge_mask_lookup nm sources targets (undirected : bool) em j :
  (edge_mask ← index_select nm targets;
   if undirected then
     at_sources ← index_select nm sources;
     Some (zip_with orb edge_mask at_sources)
   else Some edge_mask) = Some em ->
  em !! j = Some true ->
  (exists t, targets !! j = Some t /\ nm !! t = Some true)
  \/ (undirected = true
      /\ exists s, sources !! j = Some s /\ nm !! s = Some true).
Proof.
  destruct (index_select nm targets) as [at_t|] eqn:Ht; simpl; [|done].
  apply index_select_Some in Ht.
  assert (Hat : forall b, at_t !! j = Some b ->
            exists t, targets !! j = Some t /\ nm !! t = Some b).
  { intros b Hb. destruct (Forall2_lookup_r _ _ _ _ _ Ht Hb) as (t & ? & ?). eauto. }
  destruct undirected.
  - destruct (index_select nm sources) as [at_s|] eqn:Hs; simpl; [|done].
    apply index_select_Some in Hs. intros [= <-].
    rewrite lookup_zip_with.
    destruct (at_t !! j) as [bt|] eqn:Hbt; simpl; [|done].
    destruct (at_s !! j) as [bs|] eqn:Hbs; simpl; [|done].
    intros [= Hor]. apply orb_true_iff in Hor as [-> | ->].
    + left. by apply Hat.
    + right. split; [done|].
      destruct (Forall2_lookup_r _ _ _ _ _ Hs Hbs) as (s & ? & ?). eauto.
  - intros [= <-] Hj. left. by apply Hat.
Qed.

Lemma edge_mask_lookup_true nm sources targets (undirected : bool) em j :
  (edge_mask ← index_select nm targets;
   if undirected then
     at_sources ← index_select nm sources;
     Some (zip_with orb edge_mask at_sources)
   else Some edge_mask) = Some em ->
  ((exists t, targets !! j = Some t /\ nm !! t = Some true)
   \/ (undirected = true
       /\ exists s, sources !! j = Some s /\ nm !! s = Some true)) ->
  j < length em ->
  em !! j = Some true.
Proof.
  destruct (index_select nm targets) as [at_t|] eqn:Ht; simpl; [|done].
  apply index_select_Some in Ht.
  destruct undirected.
  - destruct (index_select nm sources) as [at_s|] eqn:Hs; simpl; [|done].
    apply index_select_Some in Hs. intros [= <-] Hmark Hj.
    rewrite length_zip_with in Hj.
    destruct (lookup_lt_is_Some_2 at_t j) as [bt Hbt]; [lia|].
    destruct (lookup_lt_is_Some_2 at_s j) as [bs Hbs]; [lia|].
    rewrite lookup_zip_with, Hbt, Hbs. simpl. f_equal.
    destruct (Forall2_lookup_r _ _ _ _ _ Ht Hbt) as (t & Htj & Hnt).
    destruct (Forall2_lookup_r _ _ _ _ _ Hs Hbs) as (s & Hsj & Hns).
    destruct Hmark as [(t' & Ht' & Hm)|(_ & s' & Hs' & Hm)].
    + rewrite Htj in Ht'. injection Ht' as <-. rewrite Hnt in Hm.
      by injection Hm as ->.
    + rewrite Hsj in Hs'. injection Hs' as <-. rewrite Hns in Hm.
      injection Hm as ->. by destruct bt.
  - intros [= <-] Hmark Hj.
    destruct (lookup_lt_is_Some_2 at_t j) as [bt Hbt]; [lia|].
    destruct (Forall2_lookup_r _ _ _ _ _ Ht Hbt) as (t & Htj & Hnt).
    destruct Hmark as [(t' & Ht' & Hm)|(? & _)]; [|done].
    rewrite Htj in Ht'. injection Ht' as <-. rewrite Hnt in Hm.
    injection Hm as ->. done.
Qed.

Lemma edge_mask_length nm sources targets (undirected : bool) em :
  (edge_mask ← index_select nm targets;
   if undirected then
     at_sources ← index_select nm sources;
     Some (zip_with orb edge_mask at_sources)
   else Some edge_mask) = Some em ->
  length em = if undirected then length targets `min` length sources
              else length targets.
Proof.
  destruct (index_select nm targets) as [at_t|] eqn:Ht; simpl; [|done].
  apply index_select_length in Ht. destruct undirected.
  - destruct (index_select nm sources) as [at_s|] eqn:Hs; simpl; [|done].
    apply index_select_length in Hs. intros [= <-].
    rewrite length_zip_with. lia.
  - by intros [= <-].
Qed.

(** X1.  With zero hops the selector is exact: it selects the edges whose
    target is a start node and, for an undirected graph, those whose source
    is one. *)
Theorem neighborhood_zero_hops start_nodes sources targets n undirected em j :
  get_neighborhood start_nodes sources targets 0 n undirected = Some em ->
  j < length em ->
  em !! j = Some true
  <-> (exists t, targets !! j = Some t /\ t ∈ start_nodes)
      \/ (undirected = true
          /\ exists s, sources !! j = Some s /\ s ∈ start_nodes).
Proof.
  unfold get_neighborhood.
  destruct (index_put _ start_nodes _) as [nm|] eqn:Hput; simpl; [|done].
  pose proof (index_put_length _ _ _ _ Hput) as Hlen.
  rewrite length_replicate in Hlen.
  assert (Hnm : forall v, nm !! v = Some true <-> v ∈ start_nodes /\ v < n).
  { intros v. rewrite (index_put_all_true _ _ _ v Hput). split.
    - intros [Hf|Hin].
      + apply lookup_replicate in Hf as [? _]. done.
      + split; [done|].
        pose proof (index_put_in_range _ _ _ _ _ Hput Hin) as Hv.
        by rewrite length_replicate in Hv.
    - tauto. }
  intros Hem Hj. split.
  - intros Htrue.
    destruct (edge_mask_lookup _ _ _ _ _ _ Hem Htrue)
      as [(t & Ht & Hm)|(Hu & s & Hs & Hm)].
    + left. exists t. split; [done|]. by apply Hnm.
    + right. split; [done|]. exists s. split; [done|]. by apply Hnm.
  - intros Hmark. apply (edge_mask_lookup_true _ _ _ _ _ _ Hem); [|done].
    destruct (index_select nm targets) as [at_t|] eqn:Ht; simpl in Hem; [|done].
    apply index_select_Some in Ht.
    destruct Hmark as [(t & Htj & Hin)|(Hu & s & Hsj & Hin)].
    + left. exists t. split; [done|].
      destruct (Forall2_lookup_l _ _ _ _ _ Ht Htj) as (b & _ & Hb).
      apply Hnm. split; [done|]. rewrite <- Hlen. by eapply lookup_lt_Some.
    + right. split; [done|]. exists s. split; [done|]. subst undirected.
      destruct (index_select nm sources) as [at_s|] eqn:Hs; simpl in Hem; [|done].
      apply index_select_Some in Hs.
      destruct (Forall2_lookup_l _ _ _ _ _ Hs Hsj) as (b & _ & Hb).
      apply Hnm. split; [done|]. rewrite <- Hlen. by eapply lookup_lt_Some.
Qed.

End Selector.

(** C4.  The selector can miss an edge of the exact neighbourhood.  Start
    node 1; edges [0 -> 2], [0 -> 1], [0 -> 2] and [3 -> 0]; two hops.
    Node 0 is the source of an edge into the start node, so the edge
    [3 -> 0] into node 0 belongs to the neighbourhood after one hop already
    (for an undirected graph every edge does).  The selector returns the
    edge [0 -> 1] alone: [node_mask[sources] = ...] writes to node 0 once per
    edge that starts there, and the value that stays, the first as well as
    the last, comes from an edge [0 -> 2] whose target is not marked. *)
Theorem neighborhood_misses_needed_edge :
  get_neighborhood [1] [0; 0; 0; 3] [2; 1; 2; 0] 2 4 false
  = Some [false; true; false; false]
  /\ neighborhood_edges [1] [0; 0; 0; 3] [2; 1; 2; 0] 1 false
     = [false; true; false; true]
  /\ neighborhood_edges [1] [0; 0; 0; 3] [2; 1; 2; 0] 2 false
     = [false; true; false; true]
  /\ get_neighborhood [1] [0; 0; 0; 3] [2; 1; 2; 0] 2 4 true
     = Some [false; true; false; false]
  /\ neighborhood_edges [1] [0; 0; 0; 3] [2; 1; 2; 0] 1 true
     = [true; true; true; true].
Proof. repeat split; reflexivity. Qed.

(** ** The selector does not select too much *)

Section SelectorSound.
Implicit Types (start_nodes sources targets idx : list nat) (nm : list bool).

Lemma reach_mono start_nodes sources targets undirected k v :
  reach start_nodes sources targets undirected k v = true ->
  reach start_nodes sources targets undirected (S k) v = true.
Proof. intros Hr. cbn. by rewrite Hr. Qed.

(** The source of an edge into a reached node is reached one step later. *)
Lemma reach_source start_nodes sources targets undirected k j s t :
  sources !! j = Some s -> targets !! j = Some t ->
  reach start_nodes sources targets undirected k t = true ->
  reach start_nodes sources targets undirected (S k) s = true.
Proof.
  intros Hs Ht Hr. cbn. apply orb_true_iff. right.
  apply existsb_exists. exists (s, t). split.
  - apply list_elem_of_In, (list_elem_of_lookup_2 _ j).
    rewrite lookup_zip_with, Hs. cbn. by rewrite Ht.
  - by rewrite Nat.eqb_refl, Hr.
Qed.

(** In an undirected graph so is the target of an edge out of one. *)
Lemma reach_target start_nodes sources targets k j s t :
  sources !! j = Some s -> targets !! j = Some t ->
  reach start_nodes sources targets true k s = true ->
  reach start_nodes sources targets true (S k) t = true.
Proof.
  intros Hs Ht Hr. cbn. apply orb_true_iff. right.
  apply existsb_exists. exists (s, t). split.
  - apply list_elem_of_In, (list_elem_of_lookup_2 _ j).
    rewrite lookup_zip_with, Hs. cbn. by rewrite Ht.
  - rewrite Nat.eqb_refl, Hr. by rewrite orb_true_r.
Qed.

(** A mark that [nm[idx] = nm0[idx] | nm0[idx2]] sets comes from a mark
    of [nm0], at the index itself or at its partner. *)
Lemma index_put_or_sound nm0 nm idx idx2 (ys zs : list bool) nm' v :
  index_select nm0 idx = Some ys ->
  index_select nm0 idx2 = Some zs ->
  index_put nm idx (zip_with orb ys zs) = Some nm' ->
  nm' !! v = Some true ->
  nm !! v = Some true
  \/ exists j i2, idx !! j = Some v /\ idx2 !! j = Some i2
                  /\ (nm0 !! v = Some true \/ nm0 !! i2 = Some true).
Proof.
  intros Hys%index_select_Some Hzs%index_select_Some.
  revert nm idx2 zs Hzs.
  induction Hys as [|i y idx ys Hi Hys IH]; intros nm idx2 zs Hzs; cbn.
  - intros [= <-]. by left.
  - destruct Hzs as [|i2 z idx2 zs Hi2 Hzs]; cbn; [done|].
    destruct (decide (i < length nm)) as [Hlt|]; [|done].
    intros Hput Hv.
    destruct (IH _ _ _ Hzs Hput Hv) as [Hnm|(j & i2' & Hj & Hj2 & Hm)].
    + destruct (decide (i = v)) as [->|Hne].
      * rewrite list_lookup_insert_eq in Hnm by done.
        injection Hnm as Hor. right. exists 0, i2.
        split; [done|]. split; [done|].
        apply orb_true_iff in Hor as [-> | ->]; auto.
      * rewrite list_lookup_insert_ne in Hnm by done. by left.
    + right. exists (S j), i2'. done.
Qed.

(** One round marks only nodes one step (two steps when undirected, where
    the second update reads the marks of the first) from a marked node. *)
Lemma neighborhood_round_sound start_nodes sources targets undirected nm nm' m :
  (forall v, nm !! v = Some true ->
     reach start_nodes sources targets undirected m v = true) ->
  neighborhood_round sources targets undirected nm = Some nm' ->
  forall v, nm' !! v = Some true ->
    reach start_nodes sources targets undirected
      (if undirected then S (S m) else S m) v = true.
Proof.
  intros Hinv. unfold neighborhood_round.
  destruct (index_select nm sources) as [at_s|] eqn:Hs;
    cbn [mbind option_bind]; [|done].
  destruct (index_select nm targets) as [at_t|] eqn:Ht;
    cbn [mbind option_bind]; [|done].
  destruct (index_put nm sources _) as [nm1|] eqn:Hput;
    cbn [mbind option_bind]; [|done].
  assert (forall v, nm1 !! v = Some true ->
            reach start_nodes sources targets undirected (S m) v = true)
    as Hinv1.
  { intros v Hv.
    destruct (index_put_or_sound nm nm sources targets at_s at_t nm1 v
                Hs Ht Hput Hv) as [Hnm|(j & t & Hj & Hjt & [Hnm|Hnm])].
    - by apply reach_mono, Hinv.
    - by apply reach_mono, Hinv.
    - eapply reach_source; [done..|]. by apply Hinv. }
  destruct undirected; [|by intros [= <-]].
  destruct (index_select nm1 targets) as [at_t1|] eqn:Ht1;
    cbn [mbind option_bind]; [|done].
  destruct (index_select nm1 sources) as [at_s1|] eqn:Hs1;
    cbn [mbind option_bind]; [|done].
  intros Hput2 v Hv.
  destruct (index_put_or_sound nm1 nm1 targets sources at_t1 at_s1 nm' v
              Ht1 Hs1 Hput2 Hv) as [Hnm|(j & s & Hj & Hjs & [Hnm|Hnm])].
  - by apply reach_mono, Hinv1.
  - by apply reach_mono, Hinv1.
  - eapply reach_target; [done..|]. by apply Hinv1.
Qed.

Lemma neighborhood_rounds_sound start_nodes sources targets undirected k nm nm' :
  (forall v, nm !! v = Some true ->
     reach start_nodes sources targets undirected 0 v = true) ->
  foldlM (fun nm _ => neighborhood_round sources targets undirected nm)
         (seq 0 k) nm = Some nm' ->
  forall v, nm' !! v = Some true ->
    reach start_nodes sources targets undirected
      (if undirected then 2 * k else k) v = true.
Proof.
  intros Hinv. revert nm'. induction k as [|k IH]; intros nm'.
  - cbn. intros [= <-] v Hv. rewrite Tauto.if_same. by apply Hinv.
  - rewrite neighborhood_rounds_S.
    destruct (foldlM _ (seq 0 k) nm) as [nm1|]; cbn [mbind option_bind];
      [|done].
    intros Hround v Hv.
    pose proof (neighborhood_round_sound start_nodes sources targets
                  undirected nm1 nm' _ (IH nm1 eq_refl) Hround v Hv) as Hr.
    destruct undirected; [|done].
    by replace (2 * S k) with (S (S (2 * k))) by lia.
Qed.

(** X19. The selector never selects an edge outside the exact neighbourhood
    of [k] hops when directed and of [2 k] hops when undirected: a selected
    edge ends (or, undirected, starts) at a node that reaches a start node
    within that many steps.  The bound is [2 k] for undirected graphs
    because the second update of a round reads the marks the first one has
    just set. *)
Theorem neighborhood_sound start_nodes sources targets k n undirected em j :
  length sources = length targets ->
  get_neighborhood start_nodes sources targets k n undirected = Some em ->
  em !! j = Some true ->
  neighborhood_edges start_nodes sources targets
    (if undirected then 2 * k else k) undirected !! j = Some true.
Proof.
  intros Hlen. unfold get_neighborhood.
  destruct (index_put _ start_nodes _) as [nm0|] eqn:Hput;
    cbn [mbind option_bind]; [|done].
  destruct (foldlM _ (seq 0 k) nm0) as [nm|] eqn:Hrounds;
    cbn [mbind option_bind]; [|done].
  intros Hem Hj.
  assert (forall v, nm !! v = Some true ->
            reach start_nodes sources targets undirected
              (if undirected then 2 * k else k) v = true) as Hinv.
  { apply (neighborhood_rounds_sound _ _ _ _ _ nm0); [|done].
    intros v Hv. apply (index_put_all_true _ _ _ v) in Hput.
    apply Hput in Hv as [Hv|Hv].
    - by apply lookup_replicate in Hv as [? _].
    - cbn. by apply bool_decide_eq_true_2. }
  pose proof (edge_mask_length _ _ _ _ _ Hem) as Hl.
  pose proof (lookup_lt_Some _ _ _ Hj) as Hjl.
  assert (j < length sources /\ j < length targets) as [Hjs Hjt].
  { destruct undirected; lia. }
  destruct (lookup_lt_is_Some_2 sources j Hjs) as [s Hs].
  destruct (lookup_lt_is_Some_2 targets j Hjt) as [t Ht].
  assert (zip sources targets !! j = Some (s, t)) as Hz.
  { rewrite lookup_zip_with, Hs. cbn. by rewrite Ht. }
  unfold neighborhood_edges. rewrite list_lookup_fmap, Hz.
  cbn [fmap option_fmap option_map]. f_equal. apply orb_true_iff.
  destruct (edge_mask_lookup _ _ _ _ _ _ Hem Hj)
    as [(t' & Ht' & Hm)|(-> & s' & Hs' & Hm)].
  - left. assert (t' = t) as -> by congruence. by apply Hinv.
  - right. assert (s' = s) as -> by congruence. by apply Hinv.
Qed.

End SelectorSound.

(** ** The selector on any kernel *)

Section SelectorKernels.
Implicit Types (start_nodes sources targets idx : list nat) (nm : list bool).
Implicit Types (put : kernel).

Lemma index_put_same_length {A} (l : list A) idx vals l' :
  index_put l idx vals = Some l' -> length vals = length idx.
Proof.
  revert l vals. induction idx as [|i idx IH]; intros l [|v vals]; cbn;
    try done.
  destruct (decide _); [|done]. intros ->%IH. done.
Qed.

(** The serial kernel returns a result the write can have: at an index of
    [idx] the value of its last write. *)
Lemma index_put_resolution {A} (l : list A) idx vals l' :
  index_put l idx vals = Some l' -> write_resolution l idx vals l'.
Proof.
  intros Hput. split; [by eapply index_put_same_length|].
  split.
  { apply Forall_forall. intros i Hi. by eapply index_put_in_range. }
  split; [by eapply index_put_length|].
  revert l vals Hput.
  induction idx as [|i0 idx IH]; intros l [|v0 vals]; cbn; try done.
  - intros [= <-] i. split; [done|]. by intros ?%elem_of_nil.
  - destruct (decide (i0 < length l)) as [Hlt|]; [|done].
    intros Hput i. destruct (IH _ _ Hput i) as [Hout Hin].
    destruct (decide (i ∈ idx)) as [Hi|Hi].
    + split; [intros Hn; by apply not_elem_of_cons in Hn as [_ ?]|].
      intros _. destruct (Hin Hi) as (j & Hj & Hv). by exists (S j).
    + rewrite (Hout Hi). destruct (decide (i = i0)) as [->|Hne].
      * split; [intros Hn; by apply not_elem_of_cons in Hn as [? _]|].
        intros _. exists 0. by rewrite list_lookup_insert_eq.
      * rewrite list_lookup_insert_ne by done.
        split; [done|]. by intros [?|?]%elem_of_cons.
Qed.

Lemma write_resolution_reverse {A} (l : list A) idx vals l' :
  write_resolution l (reverse idx) (reverse vals) l' ->
  write_resolution l idx vals l'.
Proof.
  intros (Hlen & Hrange & Hl & Hi). rewrite !length_reverse in Hlen.
  split; [done|]. split; [by apply Forall_reverse|]. split; [done|].
  intros i. destruct (Hi i) as [Hout Hin]. split.
  - intros Hn. apply Hout. by rewrite elem_of_reverse.
  - intros Hel. destruct Hin as (j & Hj & Hv); [by rewrite elem_of_reverse|].
    apply reverse_lookup_Some in Hj as [Hj Hlt].
    exists (length idx - S j). split; [done|].
    rewrite Hv, reverse_lookup by lia. by rewrite Hlen.
Qed.

Lemma kernel_ok_index_put : kernel_ok index_put.
Proof. intros l idx vals l'. apply index_put_resolution. Qed.

Lemma kernel_ok_index_put_first : kernel_ok index_put_first.
Proof.
  intros l idx vals l' Hput.
  by apply write_resolution_reverse, index_put_resolution.
Qed.

(** Whatever write stays, [nm[idx] = nm[idx] | zs] keeps every mark. *)
Lemma write_or_keeps_marks nm idx (ys zs : list bool) nm' :
  index_select nm idx = Some ys ->
  write_resolution nm idx (zip_with orb ys zs) nm' ->
  forall v, nm !! v = Some true -> nm' !! v = Some true.
Proof.
  intros Hys (Hlen & _ & _ & Hres) v Hv.
  destruct (Hres v) as [Hout Hin].
  destruct (decide (v ∈ idx)) as [Hel|Hel]; [|by rewrite Hout].
  destruct (Hin Hel) as (j & Hj & ->).
  pose proof (proj1 (index_select_Some _ _ _) Hys) as Hf.
  destruct (Forall2_lookup_l _ _ _ _ _ Hf Hj) as (y & Hy & Hnv).
  assert (y = true) as -> by congruence.
  destruct (lookup_lt_is_Some_2 (zip_with orb ys zs) j) as [b Hb].
  { rewrite Hlen. by eapply lookup_lt_Some. }
  rewrite Hb. rewrite lookup_zip_with, Hy in Hb. cbn in Hb.
  destruct (zs !! j); cbn in Hb; [|done]. by injection Hb as <-.
Qed.

Lemma round_with_keeps_marks put sources targets undirected nm nm' v :
  kernel_ok put ->
  neighborhood_round_with put sources targets undirected nm = Some nm' ->
  nm !! v = Some true -> nm' !! v = Some true.
Proof.
  intros Hok. unfold neighborhood_round_with.
  destruct (index_select nm sources) as [at_s|] eqn:Hs;
    cbn [mbind option_bind]; [|done].
  destruct (index_select nm targets) as [at_t|] eqn:Ht;
    cbn [mbind option_bind]; [|done].
  destruct (put nm sources _) as [nm1|] eqn:Hput;
    cbn [mbind option_bind]; [|done].
  intros Hrest Hv.
  assert (nm1 !! v = Some true) as Hv1.
  { by apply (write_or_keeps_marks nm sources at_s at_t nm1 Hs (Hok _ _ _ _ Hput)). }
  destruct undirected; [|by injection Hrest as <-].
  destruct (index_select nm1 targets) as [at_t1|] eqn:Ht1;
    cbn [mbind option_bind] in Hrest; [|done].
  destruct (index_select nm1 sources) as [at_s1|] eqn:Hs1;
    cbn [mbind option_bind] in Hrest; [|done].
  by apply (write_or_keeps_marks nm1 targets at_t1 at_s1 nm' Ht1
              (Hok _ _ _ _ Hrest)).
Qed.

Lemma rounds_with_keep_marks put sources targets undirected k nm nm' v :
  kernel_ok put ->
  foldlM (fun nm _ => neighborhood_round_with put sources targets undirected nm)
         (seq 0 k) nm = Some nm' ->
  nm !! v = Some true -> nm' !! v = Some true.
Proof.
  intros Hok Hrounds Hv. revert Hrounds.
  apply (foldlM_invariant (fun nm : list bool => nm !! v = Some true));
    [|done].
  intros nm1 _ nm2 _ Hv1 Hround. by eapply round_with_keeps_marks.
Qed.

(** X2. Within a run the selector never unmarks a node, whichever write
    stays at an index that occurs more than once: a node marked before a
    round is marked after it.  So every edge that ends at a start node, or
    for an undirected graph starts at one (the edges zero hops select), is
    selected for every number of hops, on every kernel. *)
Theorem neighborhood_never_unmarks put start_nodes sources targets k n
    undirected :
  kernel_ok put ->
  (forall nm nm' v,
     neighborhood_round_with put sources targets undirected nm = Some nm' ->
     nm !! v = Some true -> nm' !! v = Some true)
  /\ (forall em j,
        get_neighborhood_with put start_nodes sources targets k n undirected
        = Some em ->
        j < length em ->
        (exists t, targets !! j = Some t /\ t ∈ start_nodes)
        \/ (undirected = true
            /\ exists s, sources !! j = Some s /\ s ∈ start_nodes) ->
        em !! j = Some true).
Proof.
  intros Hok. split.
  { intros nm nm' v. by apply round_with_keeps_marks. }
  intros em j. unfold get_neighborhood_with.
  destruct (put _ start_nodes _) as [nm0|] eqn:Hput;
    cbn [mbind option_bind]; [|done].
  destruct (foldlM _ (seq 0 k) nm0) as [nm|] eqn:Hrounds;
    cbn [mbind option_bind]; [|done].
  intros Hem Hj Hstart.
  assert (forall v, v ∈ start_nodes -> nm !! v = Some true) as Hmarked.
  { intros v Hv. apply (rounds_with_keep_marks _ _ _ _ _ _ _ _ Hok Hrounds).
    destruct (Hok _ _ _ _ Hput) as (_ & _ & _ & Hres).
    destruct (Hres v) as [_ Hin]. destruct (Hin Hv) as (i & Hi & ->).
    apply lookup_replicate. split; [done|]. by eapply lookup_lt_Some. }
  apply (edge_mask_lookup_true _ _ _ _ _ _ Hem); [|done].
  destruct Hstart as [(t & Ht & Hin)|(Hu & s & Hs & Hin)].
  - left. exists t. split; [done|]. by apply Hmarked.
  - right. split; [done|]. exists s. split; [done|]. by apply Hmarked.
Qed.

End SelectorKernels.

(** ** Message propagation *)

Section Propagation.
Context {R : Type} `{Scalar R}.
Implicit Types (self : @RGCN R) (x acc new_x w : mat R) (row : vec R).
Implicit Types (sources targets edge_types idx : list nat).
Implicit Types (edge_mask keep : option (list bool)).

(** [index_add_] leaves the rows it has no index for as they are. *)
Lemma index_add_frame acc idx (src : mat R) acc' v :
  index_add acc idx src = Some acc' -> v ∉ idx -> acc' !! v = acc !! v.
Proof.
  revert acc src. induction idx as [|i idx IH]; intros acc [|r src]; simpl; try done.
  - by intros [= <-].
  - intros Hadd [Hne Hv]%not_elem_of_cons.
    destruct (acc !! i) as [old|]; simpl in *; [|done].
    rewrite (IH _ _ Hadd Hv). by apply list_lookup_insert_ne.
Qed.

Lemma index_add_length acc idx (src : mat R) acc' :
  index_add acc idx src = Some acc' -> length acc' = length acc.
Proof.
  revert acc src. induction idx as [|i idx IH]; intros acc [|r src]; simpl; try done.
  - by intros [= <-].
  - destruct (acc !! i) as [old|]; simpl; [|done].
    intros ->%IH. by rewrite length_insert.
Qed.

Lemma index_add_is_Some acc idx (src : mat R) :
  length src = length idx -> Forall (fun i => i < length acc) idx ->
  is_Some (index_add acc idx src).
Proof.
  revert acc src. induction idx as [|i idx IH]; intros acc [|r src] Hlen Hall;
    simpl in *; try done.
  apply Forall_cons in Hall as [Hi Hall].
  destruct (lookup_lt_is_Some_2 acc i Hi) as [old ->]. simpl.
  apply IH; [lia|]. by rewrite length_insert.
Qed.

(** The mask of relation [r] is set only at selected edges of type [r]. *)
Lemma relation_mask_lookup edge_types edge_mask r mask j :
  relation_mask edge_types edge_mask r = Some mask ->
  mask !! j = Some true ->
  edge_types !! j = Some r
  /\ (match edge_mask with Some em => em !! j = Some true | None => True end).
Proof.
  unfold relation_mask, restrict_mask. destruct edge_mask as [em|].
  - destruct (decide _); [|done]. intros [= <-].
    rewrite lookup_zip_with, list_lookup_fmap.
    destruct (edge_types !! j) as [ty|]; simpl; [|done].
    destruct (em !! j) as [b|]; simpl; [|done].
    destruct (Nat.eqb_spec ty r) as [->|]; simpl; [|done].
    by intros [= ->].
  - intros [= <-]. rewrite list_lookup_fmap.
    destruct (edge_types !! j) as [ty|]; simpl; [|done].
    destruct (Nat.eqb_spec ty r) as [->|]; simpl; [|done]. done.
Qed.

(** A node that is not [incident] is no end of an edge that carries
    messages. *)
Lemma incident_false n sources targets edge_types edge_mask v j s t ty :
  incident n sources targets edge_types edge_mask v = false ->
  sources !! j = Some s -> targets !! j = Some t -> edge_types !! j = Some ty ->
  ty < n ->
  (match edge_mask with Some em => em !! j = Some true | None => True end) ->
  s <> v /\ t <> v.
Proof.
  unfold incident. intros Hinc Hs Ht Hty Hlt Hsel.
  assert (Hj : enumerate (zip (zip sources targets) edge_types) !! j
               = Some (j, (s, t, ty))).
  { rewrite enumerate_lookup, !lookup_zip_with, Hs, Ht, Hty. done. }
  pose proof (existsb_false_lookup _ _ _ _ Hinc Hj) as Hf. simpl in Hf.
  destruct (Nat.ltb_spec ty n); [|lia].
  assert ((match edge_mask with
           | Some em => default false (em !! j) | None => true end) = true) as Hm.
  { destruct edge_mask as [em|]; [|done]. by rewrite Hsel. }
  rewrite Hm in Hf. simpl in Hf. apply orb_false_iff in Hf as [Hsv Htv].
  split; by apply Nat.eqb_neq.
Qed.

(** The nodes relation [r] reads from and writes to are ends of edges that
    carry messages. *)
Lemma relation_ends_not_incident self r sources targets edge_types edge_mask
    mask sources_r targets_r v :
  r < num_relations self ->
  incident (num_relations self) sources targets edge_types edge_mask v = false ->
  relation_mask edge_types edge_mask r = Some mask ->
  mask_select sources mask = Some sources_r ->
  mask_select targets mask = Some targets_r ->
  (v ∉ sources_r ++ targets_r) /\ (v ∉ targets_r ++ sources_r).
Proof.
  intros Hr Hinc Hmask [Hls ->]%mask_select_Some [Hlt ->]%mask_select_Some.
  assert ((v ∉ masked sources mask) /\ (v ∉ masked targets mask)) as [Hs Ht].
  { split; intros (j & Hj & Hm)%elem_of_masked.
    all: destruct (relation_mask_lookup _ _ _ _ _ Hmask Hm) as [Hty Hsel].
    all: pose proof (lookup_lt_Some _ _ _ Hm) as Hjm.
    - destruct (lookup_lt_is_Some_2 targets j) as [t Htj]; [lia|].
      by destruct (incident_false _ _ _ _ _ _ _ _ _ _ Hinc Hj Htj Hty Hr Hsel).
    - destruct (lookup_lt_is_Some_2 sources j) as [s Hsj]; [lia|].
      by destruct (incident_false _ _ _ _ _ _ _ _ _ _ Hinc Hsj Hj Hty Hr Hsel). }
  split; intros [?|?]%elem_of_app; done.
Qed.

(** Relation [r] leaves the accumulator row of a node alone that no edge
    carrying messages reaches. *)
Lemma relation_messages_frame self i r x sources targets edge_types edge_mask
    acc acc' v :
  r < num_relations self ->
  incident (num_relations self) sources targets edge_types edge_mask v = false ->
  relation_messages self i r x sources targets edge_types edge_mask acc = Some acc' ->
  acc' !! v = acc !! v.
Proof.
  intros Hr Hinc. unfold relation_messages.
  destruct (relation_mask edge_types edge_mask r) as [mask|] eqn:Hmask; simpl; [|done].
  destruct (existsb id mask); simpl; [|by intros [= <-]].
  destruct (mask_select sources mask) as [sources_r|] eqn:Hs; simpl; [|done].
  destruct (mask_select targets mask) as [targets_r|] eqn:Ht; simpl; [|done].
  destruct (relation_ends_not_incident _ _ _ _ _ _ _ _ _ _ Hr Hinc Hmask Hs Ht)
    as [_ Hv].
  destruct (index_select x _) as [x_s|]; simpl; [|done].
  destruct (get_relation_weights self i r) as [w|]; simpl; [|done].
  destruct (normalize _ _ _ _) as [m_r|]; simpl; [|done].
  intros Hadd. by eapply index_add_frame.
Qed.

(** ... and does not read the embedding of such a node. *)
Lemma relation_messages_insert self i r x sources targets edge_types edge_mask
    acc v row :
  r < num_relations self ->
  incident (num_relations self) sources targets edge_types edge_mask v = false ->
  relation_messages self i r (<[v := row]> x) sources targets edge_types edge_mask acc
  = relation_messages self i r x sources targets edge_types edge_mask acc.
Proof.
  intros Hr Hinc. unfold relation_messages.
  destruct (relation_mask edge_types edge_mask r) as [mask|] eqn:Hmask; simpl; [|done].
  destruct (existsb id mask); simpl; [|done].
  destruct (mask_select sources mask) as [sources_r|] eqn:Hs; simpl; [|done].
  destruct (mask_select targets mask) as [targets_r|] eqn:Ht; simpl; [|done].
  destruct (relation_ends_not_incident _ _ _ _ _ _ _ _ _ _ Hr Hinc Hmask Hs Ht)
    as [Hv _].
  by rewrite index_select_insert_ne.
Qed.

Lemma aggregate_frame self i x sources targets edge_types edge_mask acc v :
  incident (num_relations self) sources targets edge_types edge_mask v = false ->
  aggregate self i x sources targets edge_types edge_mask = Some acc ->
  acc !! v = zeros_like x !! v.
Proof.
  intros Hinc. unfold aggregate.
  apply (foldlM_invariant (fun acc => acc !! v = zeros_like x !! v)); [|done].
  intros b r b' [_ Hr]%elem_of_seq Hb Hstep. rewrite <- Hb.
  eapply relation_messages_frame; [|done..]. simpl in Hr. lia.
Qed.

Lemma aggregate_insert self i x sources targets edge_types edge_mask v old row :
  incident (num_relations self) sources targets edge_types edge_mask v = false ->
  x !! v = Some old -> length row = length old ->
  aggregate self i (<[v := row]> x) sources targets edge_types edge_mask
  = aggregate self i x sources targets edge_types edge_mask.
Proof.
  intros Hinc Hv Hlen. unfold aggregate.
  rewrite (zeros_like_insert _ _ _ _ Hv Hlen).
  apply foldlM_ext. intros b r [_ Hr]%elem_of_seq.
  apply relation_messages_insert; [simpl in Hr; lia|done].
Qed.

Lemma zip_with_fmap_r {A B C} (f : A -> B -> C) (g : A -> B) (l : list A) :
  zip_with f l (g <$> l) = (fun y => f y (g y)) <$> l.
Proof. induction l as [|y l IH]; [done|]. cbn. f_equal. apply IH. Qed.

(** The self-loop, row by row. *)
Lemma self_loop_rowwise new_x w keep :
  self_loop new_x w keep = self_loop_rows new_x w keep.
Proof.
  unfold self_loop, self_loop_rows, mat_add, matmul. destruct keep as [km|].
  - unfold mask_select. destruct (decide _) as [Hlen|Hlen]; simpl; [|done].
    rewrite zip_with_fmap_r.
    by rewrite (mask_put_map (fun row => vec_add row (vec_mat row w))).
  - by rewrite zip_with_fmap_r.
Qed.

(** C7.  In every layer the self-loop works on the accumulator of that
    layer and not on the embeddings [x] the layer started from: the layer is
    the aggregation of the messages, then the self-loop on the aggregate,
    then bias, batch normalisation and activation.  The self-loop adds to
    every row of the accumulator that row's own image under the self-loop
    weights, the weights of relation [num_relations]; under a keep mask it
    does so for the rows the mask keeps and leaves the other rows as they
    are (a mask whose length is not the number of rows is an error). *)
Theorem self_loop_on_accumulator self i sources targets edge_types edge_mask
    keep x :
  (forall acc w, self_loop acc w keep = self_loop_rows acc w keep)
  /\ layer self i sources targets edge_types edge_mask keep x
     = (acc ← aggregate self i x sources targets edge_types edge_mask;
        self_w ← get_relation_weights self i (num_relations self);
        looped ← self_loop_rows acc self_w keep;
        biased ← add_bias self i looped;
        normed ← apply_batch_norm self i biased;
        apply_activation self i normed).
Proof.
  split; [intros; apply self_loop_rowwise|].
  unfold layer.
  destruct (aggregate _ _ _ _ _ _ _) as [acc|]; simpl; [|done].
  destruct (get_relation_weights _ _ _) as [w|]; simpl; [|done].
  by rewrite self_loop_rowwise.
Qed.

Lemma self_loop_rows_lookup acc w keep looped v row :
  self_loop_rows acc w keep = Some looped -> acc !! v = Some row ->
  looped !! v = Some row \/ looped !! v = Some (vec_add row (vec_mat row w)).
Proof.
  unfold self_loop_rows. destruct keep as [km|].
  - destruct (decide _) as [Hlen|]; [|done]. intros [= <-] Hv.
    rewrite lookup_zip_with, Hv. simpl.
    destruct (lookup_lt_is_Some_2 km v) as [b ->].
    { rewrite Hlen. by eapply lookup_lt_Some. }
    simpl. destruct b; auto.
  - intros [= <-] Hv. rewrite list_lookup_fmap, Hv. auto.
Qed.

Section Zero.
Context `{!ScalarZero R}.

Lemma vec_add_zeros_l row : vec_add (replicate (length row) R0) row = row.
Proof.
  unfold vec_add. induction row as [|a row IH]; [done|].
  cbn. by rewrite Radd_0_l, IH.
Qed.

Lemma vec_scale_zero row : vec_scale R0 row = replicate (length row) R0.
Proof.
  unfold vec_scale. induction row as [|a row IH]; [done|].
  cbn. by rewrite Rmul_0_l, IH.
Qed.

Lemma mat_shape_ncols d w : mat_shape d d w -> ncols w = d.
Proof.
  intros [Hlen Hrows]. destruct w as [|r w]; simpl in *; [done|].
  by apply Forall_cons in Hrows as [? _].
Qed.

(** The zero row times a matrix is the zero row. *)
Lemma vec_mat_zeros d w :
  mat_shape d d w -> vec_mat (replicate d R0) w = replicate d R0.
Proof.
  intros Hw. unfold vec_mat. rewrite (mat_shape_ncols _ _ Hw).
  destruct Hw as [_ Hrows]. generalize d at 1 as n.
  induction w as [|r w IH]; intros [|n]; simpl; try done.
  apply Forall_cons in Hrows as [Hr Hrows].
  rewrite vec_scale_zero, Hr.
  replace (vec_add (replicate d R0) (replicate d R0)) with (replicate d R0 : vec R).
  - by apply IH.
  - rewrite <- (length_replicate d (R0 : R)) at 2. by rewrite vec_add_zeros_l.
Qed.

End Zero.

(** *** Degrees *)

Lemma elem_of_insert_unique (y x : nat) (l : list nat) :
  y ∈ insert_unique x l <-> y = x \/ y ∈ l.
Proof.
  induction l as [|z l IH]; simpl.
  - rewrite list_elem_of_singleton. split; [auto|]. intros [?|?%elem_of_nil]; done.
  - destruct (Nat.ltb_spec x z).
    { by rewrite elem_of_cons. }
    destruct (Nat.eqb_spec x z) as [->|].
    { rewrite elem_of_cons. tauto. }
    rewrite !elem_of_cons, IH. tauto.
Qed.

Lemma elem_of_unique (y : nat) (l : list nat) :
  y ∈ foldr insert_unique [] l <-> y ∈ l.
Proof.
  induction l as [|z l IH]; simpl; [done|].
  by rewrite elem_of_insert_unique, elem_of_cons, IH.
Qed.

Lemma position_lookup (y : nat) (l : list nat) :
  y ∈ l -> l !! position y l = Some y.
Proof.
  induction l as [|z l IH]; simpl; [by intros ?%elem_of_nil|].
  destruct (Nat.eqb_spec y z) as [->|Hne]; [done|].
  intros [?|?]%elem_of_cons; [done|]. by apply IH.
Qed.

Lemma occurrences_pos (y : nat) (l : list nat) : y ∈ l -> 1 <= occurrences y l.
Proof.
  induction l as [|z l IH]; simpl; [by intros ?%elem_of_nil|].
  destruct (Nat.eqb_spec y z) as [->|Hne]; [lia|].
  intros [?|?]%elem_of_cons; [done|]. by apply IH.
Qed.

Lemma index_select_fmap_Some {A B} (cnt : list B) (h : A -> nat) (g : A -> B)
    (l : list A) :
  (forall y, y ∈ l -> cnt !! h y = Some (g y)) ->
  index_select cnt (h <$> l) = Some (g <$> l).
Proof.
  unfold index_select. induction l as [|y l IH]; intros Hl; [done|].
  cbn. rewrite Hl by left. cbn. rewrite IH; [done|].
  intros z Hz. apply Hl. by right.
Qed.

(** The divisors of the normalisation: for every end of a message the
    number of messages with that end, which is at least one. *)
Lemma degrees_occurrences (idx : list nat) :
  degrees idx = Some ((fun v => occurrences v idx) <$> idx).
Proof.
  unfold degrees, unique. apply index_select_fmap_Some. intros y Hy.
  rewrite list_lookup_fmap, position_lookup; [done|]. by apply elem_of_unique.
Qed.

Lemma degrees_pos (idx : list nat) :
  Forall (fun c => 1 <= c) ((fun v => occurrences v idx) <$> idx).
Proof.
  apply Forall_fmap, Forall_forall. intros y Hy. by apply occurrences_pos.
Qed.

(** C8.  Propagation does not fail on a relation without edges and does
    not divide by zero.  (1) When no selected edge has type [r] (the mask of
    the relation has no entry set), the step of relation [r] ends without
    error and leaves the accumulator as it is.  (2) The counts the messages
    are divided by (their square roots, for the symmetric normalisation) are,
    for every end of a message, the number of messages with that end; each
    is at least one, and both normalisations end without error.  (3) After
    the loop over the relations, the row of a node that no message-carrying
    edge starts or ends at is the zero row the accumulator started with. *)
Theorem propagation_empty_relations_and_degrees self i r x
    sources targets edge_types edge_mask acc (sources_r targets_r : list nat)
    (m_r : mat R) :
  (forall mask,
      relation_mask edge_types edge_mask r = Some mask ->
      existsb id mask = false ->
      relation_messages self i r x sources targets edge_types edge_mask acc
      = Some acc)
  /\ (degrees targets_r = Some ((fun v => occurrences v targets_r) <$> targets_r)
      /\ Forall (fun c => 1 <= c) ((fun v => occurrences v targets_r) <$> targets_r)
      /\ Forall (fun c => 1 <= c) ((fun v => occurrences v sources_r) <$> sources_r)
      /\ normalize (Some "nonsymmetric") sources_r targets_r m_r
         = Some (div_rows m_r
                   ((fun v => Rofnat (occurrences v targets_r)) <$> targets_r))
      /\ normalize (Some "symmetric") sources_r targets_r m_r
         = Some (div_rows
                   (div_rows m_r
                      ((fun v => Rsqrt (Rofnat (occurrences v targets_r)))
                         <$> targets_r))
                   ((fun v => Rsqrt (Rofnat (occurrences v sources_r)))
                      <$> sources_r)))
  /\ (forall out v,
        aggregate self i x sources targets edge_types edge_mask = Some out ->
        incident (num_relations self) sources targets edge_types edge_mask v
        = false ->
        out !! v = zeros_like x !! v).
Proof.
  split; [|split].
  - intros mask Hmask Hempty. unfold relation_messages.
    rewrite Hmask. simpl. by rewrite Hempty.
  - split; [apply degrees_occurrences|]. do 2 (split; [apply degrees_pos|]).
    unfold normalize. simpl. rewrite !degrees_occurrences. simpl.
    by rewrite <- !list_fmap_compose.
  - intros out v Hagg Hinc. by eapply aggregate_frame.
Qed.

(** *** Nodes without edges *)

(** The layer does not read the embedding of a node that no
    message-carrying edge starts or ends at. *)
Lemma layer_insert self i sources targets edge_types edge_mask keep x v old row :
  incident (num_relations self) sources targets edge_types edge_mask v = false ->
  x !! v = Some old -> length row = length old ->
  layer self i sources targets edge_types edge_mask keep (<[v := row]> x)
  = layer self i sources targets edge_types edge_mask keep x.
Proof.
  intros Hinc Hv Hlen. unfold layer. by rewrite (aggregate_insert _ _ _ _ _ _ _ _ _ _ Hinc Hv Hlen).
Qed.

Section IsolatedNode.
Context `{!ScalarZero R}.

Lemma self_loop_rows_zero acc w keep looped v d :
  mat_shape d d w ->
  self_loop_rows acc w keep = Some looped ->
  acc !! v = Some (replicate d R0) ->
  looped !! v = Some (replicate d R0).
Proof.
  intros Hw Hloop Hv.
  destruct (self_loop_rows_lookup _ _ _ _ _ _ Hloop Hv) as [->| ->]; [done|].
  rewrite (vec_mat_zeros _ _ Hw).
  rewrite <- (length_replicate d (R0 : R)) at 1. by rewrite vec_add_zeros_l.
Qed.

(** C10.  A node [v] that no message-carrying edge of the layer starts or
    ends at has a zero accumulator row, also after the self-loop; the row the
    layer returns for it is the activation of the batch-normalised bias (of
    the batch-normalised zero row when no bias is used), and the layer
    returns the same embeddings whatever row of the same length stands in
    for the embedding of [v] before the layer. *)
Theorem isolated_node_row self i sources targets edge_types edge_mask keep
    x out v row self_w :
  layer self i sources targets edge_types edge_mask keep x = Some out ->
  incident (num_relations self) sources targets edge_types edge_mask v = false ->
  x !! v = Some row ->
  get_relation_weights self i (num_relations self) = Some self_w ->
  mat_shape (length row) (length row) self_w ->
  (forall bias, use_bias self = true -> biases self !! i = Some bias ->
                length bias = length row) ->
  (exists acc looped biased b,
      aggregate self i x sources targets edge_types edge_mask = Some acc
      /\ acc !! v = Some (replicate (length row) R0)
      /\ self_loop acc self_w keep = Some looped
      /\ looped !! v = Some (replicate (length row) R0)
      /\ add_bias self i looped = Some biased
      /\ bias_or_zero self i (length row) = Some b
      /\ biased !! v = Some b
      /\ out !! v = normalize_activate_row self i biased b)
  /\ (forall row', length row' = length row ->
        layer self i sources targets edge_types edge_mask keep (<[v := row']> x)
        = Some out).
Proof.
  intros Hlayer Hinc Hv Hw Hshape Hbias. split.
  2: { intros row' Hlen. by rewrite (layer_insert _ _ _ _ _ _ _ _ _ _ _ Hinc Hv Hlen). }
  unfold layer in Hlayer.
  destruct (aggregate _ _ _ _ _ _ _) as [acc|] eqn:Hagg; simpl in Hlayer; [|done].
  rewrite Hw in Hlayer. simpl in Hlayer.
  destruct (self_loop acc self_w keep) as [looped|] eqn:Hloop; simpl in Hlayer; [|done].
  destruct (add_bias self i looped) as [biased|] eqn:Hb; simpl in Hlayer; [|done].
  destruct (apply_batch_norm self i biased) as [normed|] eqn:Hn; simpl in Hlayer; [|done].
  assert (Hacc : acc !! v = Some (replicate (length row) R0)).
  { rewrite (aggregate_frame _ _ _ _ _ _ _ _ _ Hinc Hagg), zeros_like_lookup, Hv. done. }
  assert (Hlooped : looped !! v = Some (replicate (length row) R0)).
  { rewrite self_loop_rowwise in Hloop. by eapply self_loop_rows_zero. }
  assert (exists b, bias_or_zero self i (length row) = Some b
                    /\ biased !! v = Some b) as (b & Hboz & Hbv).
  { unfold add_bias, bias_or_zero in *. destruct (use_bias self) eqn:Hub.
    - destruct (biases self !! i) as [bias|] eqn:Hbi; simpl in Hb; [|done].
      injection Hb as <-. exists bias. split; [done|].
      rewrite list_lookup_fmap, Hlooped. simpl.
      rewrite <- (Hbias bias eq_refl eq_refl). by rewrite vec_add_zeros_l.
    - injection Hb as <-. eauto. }
  exists acc, looped, biased, b. repeat (split; [done|]).
  unfold normalize_activate_row, batch_norm_row, activate_row.
  unfold apply_batch_norm in Hn. unfold apply_activation in Hlayer.
  destruct (use_batch_norm self).
  - destruct (batch_norms self !! i) as [bn|]; simpl in *; [|done].
    injection Hn as <-.
    destruct (activations self) as [acts|]; simpl in *.
    + destruct (acts !! i) as [a|]; simpl in *; [|done]. injection Hlayer as <-.
      by rewrite !list_lookup_fmap, Hbv.
    + injection Hlayer as <-. by rewrite list_lookup_fmap, Hbv.
  - injection Hn as <-. simpl.
    destruct (activations self) as [acts|]; simpl in *.
    + destruct (acts !! i) as [a|]; simpl in *; [|done]. injection Hlayer as <-.
      by rewrite list_lookup_fmap, Hbv.
    + by injection Hlayer as <-.
Qed.

End IsolatedNode.

End Propagation.

(** ** The checks of the constructor *)

Section InitChecks.
Import Init.

Lemma check_decomposition_raised (a : args) :
  raised (check_decomposition a) = true <->
    (decomposition a <> "basis" /\ decomposition a <> "block")
    \/ (decomposition a = "block"
        /\ ~ divisible_by (embedding_dim a) (effective_num a))
    \/ (decomposition a = "basis" /\ (effective_num a > num_relations a)%Z).
Proof.
  unfold check_decomposition, effective_num, py_mod, divisible_by.
  destruct (String.eqb_spec (decomposition a) "basis") as [Hb|Hb].
  - rewrite Hb. rewrite !Z.gtb_ltb.
    destruct (num_bases_or_blocks a) as [n|].
    all: match goal with |- context [(?x <? ?y)%Z] => destruct (Z.ltb_spec x y) end; simpl.
    all: split; [intros ?; first [discriminate | right; right; split; [done|lia]] | ].
    all: intros [[? ?]|[[? ?]|[? ?]]]; try done; try lia.
  - destruct (String.eqb_spec (decomposition a) "block") as [Hk|Hk].
    + destruct (num_bases_or_blocks a) as [n|]; simpl.
      * destruct (decide (n = 0%Z)) as [->|Hn]; simpl.
        { split; [intros _|done]. right; left. split; [done|]. intros [? _]. done. }
        destruct (decide ((embedding_dim a mod n)%Z <> 0%Z)); simpl.
        { split; [intros _|done]. right; left. split; [done|]. intros [_ ?]. done. }
        split; [done|]. intros [[_ ?]|[[_ Hc]|[? _]]]; try done.
        exfalso. apply Hc. split; [done|]. lia.
      * destruct (decide ((embedding_dim a mod 2)%Z <> 0%Z)); simpl.
        { split; [intros _|done]. right; left. split; [done|]. intros [_ ?]. done. }
        split; [done|]. intros [[_ ?]|[[_ Hc]|[? _]]]; try done.
        exfalso. apply Hc. split; [done|]. lia.
    + simpl. split; [intros _; left; done|done].
Qed.

Lemma check_decomposition_kind (a : args) e :
  check_decomposition a = Raise e ->
  (e = ZeroDivisionError <-> decomposition a = "block" /\ effective_num a = 0%Z).
Proof.
  unfold check_decomposition, effective_num, py_mod.
  destruct (String.eqb_spec (decomposition a) "basis") as [Hb|Hb].
  - rewrite Hb. destruct (_ >? _)%Z; [|done]. intros [= <-]. split; [done|]. intros [? _]; done.
  - destruct (String.eqb_spec (decomposition a) "block") as [Hk|Hk].
    + destruct (num_bases_or_blocks a) as [n|]; simpl.
      * destruct (decide (n = 0%Z)) as [->|Hn]; simpl.
        { intros [= <-]. done. }
        destruct (decide _); simpl; [|done]. intros [= <-]. split; [done|]. intros [_ ?]; done.
      * destruct (decide _); simpl; [|done]. intros [= <-]. split; [done|]. intros [_ ?]; done.
    + intros [= <-]. split; [done|]. intros [? _]; done.
Qed.

(** The checks raise exactly in the five cases; what they raise is a
    [ValueError], for zero blocks a [ZeroDivisionError]. *)
Lemma checks_raise_exactly (a : args) :
  (raised (init a) = true <->
     (decomposition a <> "basis" /\ decomposition a <> "block")
     \/ (decomposition a = "block"
         /\ ~ divisible_by (embedding_dim a) (effective_num a))
     \/ (decomposition a = "basis" /\ (effective_num a > num_relations a)%Z)
     \/ (message_normalization a <> None
         /\ message_normalization a <> Some "nonsymmetric"
         /\ message_normalization a <> Some "symmetric")
     \/ create_inverse_triples a = true)
  /\ match init a with
     | Raise ZeroDivisionError =>
         decomposition a = "block" /\ effective_num a = 0%Z
     | _ => True
     end.
Proof.
  pose proof (check_decomposition_raised a) as Hd.
  pose proof (check_decomposition_kind a) as Hk.
  assert (Hn : allowed_normalization (message_normalization a) = false <->
            message_normalization a <> None
            /\ message_normalization a <> Some "nonsymmetric"
            /\ message_normalization a <> Some "symmetric").
  { unfold allowed_normalization. destruct (message_normalization a) as [s|].
    - destruct (String.eqb_spec s "symmetric") as [->|]; simpl.
      { split; [done|]. intros (_ & _ & ?); done. }
      destruct (String.eqb_spec s "nonsymmetric") as [->|]; simpl.
      { split; [done|]. intros (_ & ? & _); done. }
      split; [intros _|done]. repeat split; congruence.
    - split; [done|]. intros (? & _); done. }
  unfold init. destruct (create_inverse_triples a).
  { split; [split; [intros _; do 4 right; done|done]|done]. }
  destruct (check_decomposition a) as [n|e0] eqn:Hc; simpl in *.
  - destruct (allowed_normalization _) eqn:Ha; simpl.
    + split; [|done]. split; [done|].
      intros [?|[?|[?|[?|?]]]]; try done; try (by apply Hd; auto).
      symmetry. by apply Hn.
    + split; [|done].
      split; [intros _|done]. do 3 right. left. by apply Hn.
  - split.
    + split; [intros _|done].
      destruct Hd as [Hd _]. destruct (Hd eq_refl) as [?|[?|?]]; auto.
    + destruct e0 as [msg|]; [done|]. by apply (Hk ZeroDivisionError).
Qed.

Lemma listed_case_iff (a : args) :
  listed_case a <->
    (decomposition a <> "basis" /\ decomposition a <> "block")
    \/ (decomposition a = "block"
        /\ ~ divisible_by (embedding_dim a) (effective_num a))
    \/ (decomposition a = "basis" /\ (effective_num a > num_relations a)%Z)
    \/ (message_normalization a <> None
        /\ message_normalization a <> Some "nonsymmetric"
        /\ message_normalization a <> Some "symmetric")
    \/ create_inverse_triples a = true.
Proof.
  unfold listed_case, divisible_by.
  assert (effective_num a = 0%Z
          \/ (embedding_dim a mod effective_num a)%Z <> 0%Z
          <-> ~ (effective_num a <> 0%Z
                 /\ (embedding_dim a mod effective_num a)%Z = 0%Z)) as Hdiv.
  { split.
    - intros [Hz|Hr] [Hnz Hm]; done.
    - intros Hn. destruct (decide (effective_num a = 0%Z)); [by left|].
      right. intros Hm. by apply Hn. }
  rewrite Hdiv. done.
Qed.

(** What the checks raise. *)
Lemma checks_raise_kind (a : args) e :
  init a = Raise e ->
  (e = ZeroDivisionError <->
     create_inverse_triples a = false /\ decomposition a = "block"
     /\ effective_num a = 0%Z)
  /\ (e <> ZeroDivisionError -> exists msg, e = ValueError msg).
Proof.
  intros He. split; [|destruct e; eauto; done].
  revert He. unfold init. destruct (create_inverse_triples a).
  { intros [= <-]. split; [done|]. by intros [? _]. }
  destruct (check_decomposition a) as [n|e0] eqn:Hc; simpl.
  - destruct (negb _); [|done]. intros [= <-]. split; [done|].
    intros (_ & Hk & Hz).
    pose proof (check_decomposition_raised a) as [_ Hr].
    rewrite Hc in Hr. simpl in Hr. exfalso.
    assert (false = true); [|done]. apply Hr. right. left. split; [done|].
    intros [Hnz _]. done.
  - intros [= <-]. rewrite (check_decomposition_kind a e0 Hc). tauto.
Qed.

(** C3, as the code has it.  Once the constructors of the base model and of
    the base class have returned, the constructor raises before any weight is
    allocated exactly in the five cases: the decomposition is neither "basis"
    nor "block"; block mode and an embedding dimension that the number of
    blocks does not divide; basis mode and more bases than relations; a
    message normalisation that is none of [None], "nonsymmetric" and
    "symmetric"; inverse triples.  What it raises there is the same whatever
    the allocation would do: a [ValueError], and for zero blocks, where the
    remainder is undefined, Python's [ZeroDivisionError].  In every other
    case the constructor allocates the weights, and raises exactly when that
    raises. *)
Theorem constructor_raises_exactly (super_init : result unit)
    (init_weights_on_device : checked -> result unit) (a : args) :
  (raised (construct super_init init_weights_on_device a) = true <->
     raised super_init = true
     \/ listed_case a
     \/ exists c, init a = Ok c /\ raised (init_weights_on_device c) = true)
  /\ (raised super_init = false -> listed_case a ->
      exists e,
        (forall allocation, construct super_init allocation a = Raise e)
        /\ (e = ZeroDivisionError <->
              create_inverse_triples a = false /\ decomposition a = "block"
              /\ effective_num a = 0%Z)
        /\ (e <> ZeroDivisionError -> exists msg, e = ValueError msg))
  /\ (raised super_init = false -> ~ listed_case a ->
      exists c, init a = Ok c
        /\ construct super_init init_weights_on_device a
           = bind (init_weights_on_device c) (fun _ => Ok c)).
Proof.
  pose proof (checks_raise_exactly a) as [Hchecks _].
  rewrite <- listed_case_iff in Hchecks.
  unfold construct. destruct super_init as [[]|e0]; simpl.
  - destruct (init a) as [c|e] eqn:Hinit; simpl in *.
    + assert (~ listed_case a) as Hnot.
      { intros Hl. by apply Hchecks in Hl. }
      split; [|split].
      * split.
        -- intros Hr. right. right. exists c. split; [done|].
           by destruct (init_weights_on_device c).
        -- intros [?|[?|(c' & [= <-] & Hr)]]; [done..|].
           by destruct (init_weights_on_device c).
      * intros _ Hl. done.
      * intros _ _. by exists c.
    + assert (listed_case a) as Hl by (by apply Hchecks).
      split; [|split].
      * split; [auto|done].
      * intros _ _. exists e. split; [done|].
        by apply checks_raise_kind.
      * intros _ Hnot. done.
  - split; [|split]; [|done..]. split; [auto|done].
Qed.

End InitChecks.

(** C3, as stated, fails.  With [activation_cls = nn.LeakyReLU] and
    arguments that are in none of the five cases the constructor raises all
    the same: the allocation asks [calculate_gain] for the gain of
    ["leakyrelu"], the lower-cased class name, which it does not know.  And
    for zero blocks, one of the five cases, what is raised is a
    [ZeroDivisionError], not a configuration error. *)
Lemma constructor_raises_outside_listed_cases :
  let a := Examples.leaky_args in
  ~ listed_case a
  /\ lower "LeakyReLU" = "leakyrelu"
  /\ calculate_gain Examples.leaky_env = None
  /\ (exists c,
        Init.init a = Init.Ok c
        /\ construct (Init.Ok tt)
             (fun c => init_weights_on_device Examples.leaky_env
                         (after_checks a c Examples.leaky_more)) a
           = Init.Raise (Init.ValueError "Unsupported nonlinearity"))
  /\ listed_case Examples.zero_block_args
  /\ Init.init Examples.zero_block_args = Init.Raise Init.ZeroDivisionError.
Proof.
  cbv zeta. split.
  { intros [[Hb _]|[[Hk _]|[[_ Hn]|[(_ & Hn & _)|Hi]]]];
      first [done | by vm_compute in Hn]. }
  split; [reflexivity|]. split; [reflexivity|]. split.
  { eexists. split; [reflexivity|]. reflexivity. }
  split; [|reflexivity].
  right. left. split; [reflexivity|]. by left.
Qed.

(** ** The embedding cache *)

Section Cache.
Context {R : Type} `{Scalar R}.
Implicit Types (self : @RGCN R) (batch : option (list triple)).

Lemma enriched_set_enriched self e :
  enriched_embeddings (set_enriched_embeddings self e) = e.
Proof. reflexivity. Qed.

(** The propagation reads every field of the model but the cache. *)
Lemma propagate_set_enriched self e batch er nr :
  propagate (set_enriched_embeddings self e) batch er nr
  = propagate self batch er nr.
Proof. reflexivity. Qed.

(** What a call returns: the cached embeddings on a hit, else what the
    propagation computes. *)
Lemma enrich_result self batch (er nr : nat -> R) :
  (enrich_embeddings self batch er nr).1
  = match batch, enriched_embeddings self with
    | None, Some cached => Some cached
    | _, _ => propagate self batch er nr
    end.
Proof.
  unfold enrich_embeddings. destruct batch as [b|].
  - by destruct (enriched_embeddings self), (propagate self (Some b) er nr).
  - by destruct (enriched_embeddings self), (propagate self None er nr).
Qed.

(** The model after a call: the model before it, up to the cache. *)
Lemma enrich_model self batch (er nr : nat -> R) :
  (enrich_embeddings self batch er nr).2 = self
  \/ exists x, propagate self batch er nr = Some x
       /\ batch = None /\ enriched_embeddings self = None
       /\ (enrich_embeddings self batch er nr).2
          = set_enriched_embeddings self (Some x).
Proof.
  unfold enrich_embeddings.
  destruct batch as [b|].
  - left. rewrite bool_decide_eq_false_2 by done.
    by destruct (enriched_embeddings self), (propagate self (Some b) er nr).
  - destruct (enriched_embeddings self) as [e|] eqn:He; [by left|].
    destruct (propagate self None er nr) as [x|]; [|by left].
    destruct (buffer_messages self); simpl; [|by left].
    right. by exists x.
Qed.

(** C5.  A call without a batch that finds cached embeddings returns them
    as they are and leaves the model as it is, whatever the parameters and
    the draws: nothing is computed.  The hook [post_parameter_update] empties
    the cache, and the next call without a batch returns what the propagation
    computes from the parameters the model then has. *)
Theorem enrich_cache_hit_and_invalidation
    (super : @RGCN R -> @RGCN R) self (cached : mat R) (er nr : nat -> R) :
  let hit := set_enriched_embeddings self (Some cached) in
  let updated := post_parameter_update super hit in
  enrich_embeddings hit None er nr = (Some cached, hit)
  /\ enriched_embeddings updated = None
  /\ (enrich_embeddings updated None er nr).1
     = propagate (super hit) None er nr.
Proof.
  intros hit updated. split; [reflexivity|]. split; [reflexivity|].
  rewrite enrich_result. unfold updated, post_parameter_update.
  by rewrite enriched_set_enriched, propagate_set_enriched.
Qed.

(** C6.  A call with a batch leaves the cache as it was.  A call without a
    batch stores its result only when the cache was empty, buffering is on
    and the propagation returned; in every other case the cache is left as
    it was too. *)
Theorem enrich_cache_writes self (b : list triple) (er nr : nat -> R) :
  enriched_embeddings (enrich_embeddings self (Some b) er nr).2
  = enriched_embeddings self
  /\ enriched_embeddings (enrich_embeddings self None er nr).2
     = match enriched_embeddings self, buffer_messages self,
             propagate self None er nr with
       | None, true, Some x => Some x
       | _, _, _ => enriched_embeddings self
       end.
Proof.
  unfold enrich_embeddings. split.
  - rewrite bool_decide_eq_false_2 by done.
    destruct (enriched_embeddings self) eqn:He,
      (propagate self (Some b) er nr); simpl; by rewrite ?He.
  - destruct (enriched_embeddings self) as [e|] eqn:He; [simpl; by rewrite He|].
    destruct (propagate self None er nr), (buffer_messages self);
      simpl; by rewrite ?He.
Qed.

End Cache.

(** ** Propagation returns *)

Section Totality.
Context {R : Type} `{Scalar R}.
Implicit Types (self : @RGCN R) (x acc new_x w : mat R) (row : vec R).
Implicit Types (sources targets edge_types idx : list nat) (nm : list bool).

Lemma foldlM_is_Some {A B} (P : B -> Prop) (f : B -> A -> option B) l b :
  (forall b y, y ∈ l -> P b -> exists b', f b y = Some b' /\ P b') ->
  P b -> exists b', foldlM f l b = Some b' /\ P b'.
Proof.
  revert b. induction l as [|y l IH]; intros b Hstep Hb; simpl; [eauto|].
  destruct (Hstep b y) as (b1 & -> & Hb1); [by left|done|]. simpl.
  apply IH; [|done]. intros b2 z Hz. apply Hstep. by right.
Qed.

Lemma masked_Forall {A} (P : A -> Prop) (l : list A) m :
  Forall P l -> Forall P (masked l m).
Proof.
  revert m. induction l as [|y l IH]; intros m Hl; [by destruct m|].
  apply Forall_cons in Hl as [Hy Hl]. destruct m as [|[] m]; simpl; [done| |].
  - apply Forall_cons. split; [done|by apply IH].
  - by apply IH.
Qed.

Lemma masked_same_length {A B} (l : list A) (k : list B) m :
  length l = length k -> length (masked l m) = length (masked k m).
Proof.
  revert k m. induction l as [|y l IH]; intros [|z k] [|[] m]; simpl; try done.
  all: intros [= Hl]; by rewrite ?(IH k m Hl).
Qed.

Lemma index_put_is_Some {A} (l : list A) idx vals :
  Forall (fun i => i < length l) idx -> length vals = length idx ->
  exists l', index_put l idx vals = Some l' /\ length l' = length l.
Proof.
  revert l vals. induction idx as [|i idx IH]; intros l [|v vals] Hall Hlen;
    simpl in *; try done; [eauto|].
  apply Forall_cons in Hall as [Hi Hall]. rewrite decide_True by done.
  destruct (IH (<[i := v]> l) vals) as (l' & -> & Hl'); [|lia|].
  - by rewrite length_insert.
  - exists l'. by rewrite Hl', length_insert.
Qed.

Lemma index_select_in_range {A} (l : list A) idx :
  Forall (fun i => i < length l) idx ->
  exists k, index_select l idx = Some k /\ length k = length idx.
Proof.
  intros [k Hk]%index_select_is_Some. exists k. split; [done|].
  by eapply index_select_length.
Qed.

Lemma neighborhood_round_is_Some sources targets undirected nm :
  Forall (fun v => v < length nm) sources ->
  Forall (fun v => v < length nm) targets ->
  length targets = length sources ->
  exists nm', neighborhood_round sources targets undirected nm = Some nm'
              /\ length nm' = length nm.
Proof.
  intros Hs Ht Hlen. unfold neighborhood_round.
  destruct (index_select_in_range nm sources Hs) as (at_s & -> & Hls).
  destruct (index_select_in_range nm targets Ht) as (at_t & -> & Hlt). simpl.
  destruct (index_put_is_Some nm sources (zip_with orb at_s at_t) Hs)
    as (nm1 & -> & Hl1); [rewrite length_zip_with; lia|]. simpl.
  destruct undirected; [|eauto].
  rewrite <- Hl1 in Hs, Ht.
  destruct (index_select_in_range nm1 targets Ht) as (at_t1 & -> & Hlt1).
  destruct (index_select_in_range nm1 sources Hs) as (at_s1 & -> & Hls1). simpl.
  destruct (index_put_is_Some nm1 targets (zip_with orb at_t1 at_s1) Ht)
    as (nm2 & -> & Hl2); [rewrite length_zip_with; lia|].
  exists nm2. split; [done|]. lia.
Qed.

(** The selector returns a mask with one entry per edge when the start
    nodes and the ends of the edges are nodes. *)
Lemma get_neighborhood_is_Some start_nodes sources targets k n undirected :
  Forall (fun v => v < n) start_nodes ->
  Forall (fun v => v < n) sources -> Forall (fun v => v < n) targets ->
  length targets = length sources ->
  exists em, get_neighborhood start_nodes sources targets k n undirected = Some em
             /\ length em = length sources.
Proof.
  intros Hstart Hs Ht Hlen. unfold get_neighborhood.
  destruct (index_put_is_Some (replicate n false) start_nodes
              (replicate (length start_nodes) true)) as (nm0 & -> & Hl0).
  { by rewrite length_replicate. }
  { by rewrite length_replicate. }
  rewrite length_replicate in Hl0. simpl.
  destruct (foldlM_is_Some (fun nm => length nm = n)
              (fun nm (_ : nat) => neighborhood_round sources targets undirected nm)
              (seq 0 k) nm0) as (nm & -> & Hl); [|done|].
  { intros nm _ _ Hnm. rewrite <- Hnm in Hs, Ht.
    destruct (neighborhood_round_is_Some sources targets undirected nm Hs Ht Hlen)
      as (nm' & ? & ?). exists nm'. split; [done|]. lia. }
  simpl. rewrite <- Hl in Hs, Ht.
  destruct (index_select_in_range nm targets Ht) as (em & -> & Hle). simpl.
  destruct undirected; [|exists em; split; [done|lia]].
  destruct (index_select_in_range nm sources Hs) as (at_s & -> & Hlas). simpl.
  eexists. split; [done|]. rewrite length_zip_with. lia.
Qed.

(** On parameters as allocated the weight generator returns. *)
Lemma get_relation_weights_is_Some self i r :
  basis_params_ok self \/ block_params_ok self ->
  i < num_layers self -> r <= num_relations self ->
  is_Some (get_relation_weights self i r).
Proof.
  intros [(Hdec & Hla & Hlb & Hatt & Hbases)|Hblock] Hi Hr.
  - destruct (lookup_lt_is_Some_2 (att self) i) as [a Ha]; [lia|].
    destruct (lookup_lt_is_Some_2 (bases self) i) as [t Ht]; [lia|].
    pose proof (Forall_lookup_1 _ _ _ _ Hatt Ha) as [Hrows Hcols].
    pose proof (Forall_lookup_1 _ _ _ _ Hbases Ht) as Hb.
    destruct t as [b|]; [|done]. destruct Hb as [Hnb _].
    destruct (lookup_lt_is_Some_2 a r) as [att_r Hatt_r]; [lia|].
    pose proof (Forall_lookup_1 _ _ _ _ Hcols Hatt_r) as Hlen. simpl in Hlen.
    rewrite get_relation_weights_basis by done.
    rewrite Ha, Ht. simpl. rewrite Hatt_r. simpl.
    rewrite broadcast_mul_same_length by lia. done.
  - destruct Hblock as (Hdec & Hnb & Hdpos & Hmod & Hlb & Hbases).
    assert (Hd : num_bases self * (embedding_dim self / num_bases self)
                 = embedding_dim self).
    { pose proof (Nat.div_mod_eq (embedding_dim self) (num_bases self)). lia. }
    assert (Hbs : 0 < embedding_dim self / num_bases self) by nia.
    destruct (lookup_lt_is_Some_2 (bases self) i) as [lt Hlt]; [lia|].
    pose proof (Forall_lookup_1 _ _ _ _ Hbases Hlt) as Hok.
    destruct lt as [|t]; [done|]. destruct Hok as [Hlen Hrows].
    destruct (lookup_lt_is_Some_2 t r) as [blocks Hblocks]; [lia|].
    pose proof (Forall_lookup_1 _ _ _ _ Hrows Hblocks) as [Hlbl Hshapes].
    destruct (block_loop (embedding_dim self) _ t r blocks (num_bases self)
                Hbs Hblocks Hshapes) as (w & Hloop & _); [by rewrite Hlbl|lia|].
    exists w. unfold get_relation_weights. rewrite Hdec. simpl.
    rewrite Hlt. simpl. rewrite !decide_False by lia.
    rewrite <- Hd at 1. rewrite range_step_blocks by done.
    by rewrite enumerate_fmap_seq.
Qed.

Lemma div_rows_length (m_r : mat R) (c : list R) :
  length c = length m_r -> length (div_rows m_r c) = length m_r.
Proof. intros Hc. unfold div_rows. rewrite length_zip_with. lia. Qed.

Lemma normalize_is_Some norm (sources_r targets_r : list nat) (m_r : mat R) :
  norm = None \/ norm = Some "nonsymmetric" \/ norm = Some "symmetric" ->
  length sources_r = length m_r -> length targets_r = length m_r ->
  exists m', normalize norm sources_r targets_r m_r = Some m'
             /\ length m' = length m_r.
Proof.
  intros [->|[->| ->]] Hs Ht; unfold normalize; simpl.
  - eauto.
  - rewrite degrees_occurrences. simpl. eexists. split; [done|].
    apply div_rows_length. by rewrite !length_fmap.
  - rewrite !degrees_occurrences. simpl. eexists. split; [done|].
    match goal with |- length (div_rows ?m1 _) = _ =>
      assert (length m1 = length m_r) as Hl1
        by (apply div_rows_length; by rewrite !length_fmap) end.
    rewrite div_rows_length; [done|]. by rewrite Hl1, !length_fmap.
Qed.

Lemma relation_messages_is_Some self i r x sources targets edge_types
    edge_mask acc n :
  length x = n -> length acc = n ->
  length targets = length sources -> length edge_types = length sources ->
  Forall (fun v => v < n) sources -> Forall (fun v => v < n) targets ->
  (forall em, edge_mask = Some em -> length em = length sources) ->
  is_Some (get_relation_weights self i r) ->
  (message_normalization self = None
   \/ message_normalization self = Some "nonsymmetric"
   \/ message_normalization self = Some "symmetric") ->
  exists acc',
    relation_messages self i r x sources targets edge_types edge_mask acc
    = Some acc'
    /\ length acc' = n.
Proof.
  intros Hx Hacc Hlt Hle Hs Ht Hem [w Hw] Hnorm. unfold relation_messages.
  assert (exists mask, relation_mask edge_types edge_mask r = Some mask
                       /\ length mask = length sources) as (mask & -> & Hlm).
  { unfold relation_mask, restrict_mask. destruct edge_mask as [em|].
    - rewrite decide_True by (rewrite length_fmap, (Hem em eq_refl); lia).
      eexists. split; [done|]. rewrite length_zip_with, length_fmap, (Hem em eq_refl). lia.
    - eexists. split; [done|]. by rewrite length_fmap. }
  simpl. destruct (existsb id mask); simpl; [|eauto].
  unfold mask_select. rewrite !decide_True by lia. simpl.
  assert (Hidx : Forall (fun v => v < length x)
                   (masked sources mask ++ masked targets mask)).
  { rewrite Hx. apply Forall_app. split; by apply masked_Forall. }
  destruct (index_select_in_range x _ Hidx) as (x_s & -> & Hlx). simpl.
  rewrite Hw. simpl.
  pose proof (masked_same_length targets sources mask Hlt) as Hmm.
  destruct (normalize_is_Some (message_normalization self)
              (masked sources mask ++ masked targets mask)
              (masked targets mask ++ masked sources mask)
              (matmul x_s w) Hnorm) as (m' & -> & Hlm').
  { unfold matmul. rewrite length_fmap. done. }
  { unfold matmul. rewrite length_fmap, Hlx, !length_app. lia. }
  simpl.
  destruct (index_add_is_Some acc (masked targets mask ++ masked sources mask) m')
    as [acc' Hadd].
  { rewrite Hlm'. unfold matmul. rewrite length_fmap, Hlx, !length_app. lia. }
  { rewrite Hacc. apply Forall_app. split; by apply masked_Forall. }
  exists acc'. split; [done|]. by rewrite (index_add_length _ _ _ _ Hadd).
Qed.

Lemma keep_mask_length (rand : nat -> R) n rate :
  length (keep_mask rand n rate) = n.
Proof. unfold keep_mask. by rewrite length_fmap, length_seq. Qed.

Lemma self_loop_is_Some acc w keep :
  (forall km, keep = Some km -> length km = length acc) ->
  exists looped, self_loop acc w keep = Some looped
                 /\ length looped = length acc.
Proof.
  intros Hkeep. rewrite self_loop_rowwise. unfold self_loop_rows.
  destruct keep as [km|].
  - rewrite decide_True by (by apply Hkeep). eexists. split; [done|].
    rewrite length_zip_with, (Hkeep km eq_refl). lia.
  - eexists. split; [done|]. by rewrite length_fmap.
Qed.

(** A layer of a model that is [model_ok] returns, with one row per
    entity. *)
Lemma layer_is_Some self i sources targets edge_types edge_mask keep x :
  model_ok self -> i < num_layers self ->
  length x = num_entities self ->
  length targets = length sources -> length edge_types = length sources ->
  Forall (fun v => v < num_entities self) sources ->
  Forall (fun v => v < num_entities self) targets ->
  (forall em, edge_mask = Some em -> length em = length sources) ->
  (forall km, keep = Some km -> length km = num_entities self) ->
  exists out, layer self i sources targets edge_types edge_mask keep x = Some out
              /\ length out = num_entities self.
Proof.
  intros (Hparams & _ & _ & _ & _ & _ & Hnorm & Hbias & Hbn & Hact)
    Hi Hx Hlt Hle Hs Ht Hem Hkeep.
  unfold layer, aggregate.
  destruct (foldlM_is_Some (fun acc : mat R => length acc = num_entities self)
              (fun new_x r => relation_messages self i r x sources targets
                                edge_types edge_mask new_x)
              (seq 0 (num_relations self)) (zeros_like x))
    as (acc & -> & Hacc).
  { intros acc r [_ Hr]%elem_of_seq Hlacc.
    apply relation_messages_is_Some; try done.
    apply get_relation_weights_is_Some; [done|done|simpl in Hr; lia]. }
  { by rewrite zeros_like_length. }
  simpl.
  destruct (get_relation_weights_is_Some self i (num_relations self))
    as [self_w ->]; [done..|]. simpl.
  destruct (self_loop_is_Some acc self_w keep) as (looped & -> & Hlooped).
  { intros km Hkm. rewrite Hacc. by apply Hkeep. }
  simpl.
  assert (exists biased, add_bias self i looped = Some biased
                         /\ length biased = length looped)
    as (biased & -> & Hbiased).
  { unfold add_bias. destruct (use_bias self); [|eauto].
    destruct (lookup_lt_is_Some_2 (biases self) i) as [bias ->].
    { specialize (Hbias eq_refl). lia. }
    simpl. eexists. split; [done|]. by rewrite length_fmap. }
  simpl.
  assert (exists normed, apply_batch_norm self i biased = Some normed
                         /\ length normed = length biased)
    as (normed & -> & Hnormed).
  { unfold apply_batch_norm. destruct (use_batch_norm self); [|eauto].
    destruct (batch_norms self !! i) as [bn|] eqn:Hlookup.
    2: { apply lookup_ge_None in Hlookup. specialize (Hbn eq_refl).
         unfold batch_norm in *. lia. }
    simpl. eexists. split; [done|]. by rewrite length_fmap. }
  simpl. unfold apply_activation.
  destruct (activations self) as [acts|] eqn:Hacts.
  - destruct (lookup_lt_is_Some_2 acts i) as [a ->].
    { specialize (Hact acts eq_refl). lia. }
    simpl. eexists. split; [done|]. rewrite length_fmap. lia.
  - eexists. split; [done|]. lia.
Qed.

(** Edge dropout keeps the three columns of the graph aligned. *)
Lemma drop_edges_ok self (er : nat -> R) :
  length (targets self) = length (sources self) ->
  length (edge_types self) = length (sources self) ->
  Forall (fun v => v < num_entities self) (sources self) ->
  Forall (fun v => v < num_entities self) (targets self) ->
  exists s t e, drop_edges self er = Some (s, t, e)
    /\ length t = length s /\ length e = length s
    /\ Forall (fun v => v < num_entities self) s
    /\ Forall (fun v => v < num_entities self) t.
Proof.
  intros Hlt Hle Hs Ht.
  unfold drop_edges. destruct (training self); [|by eauto 10].
  destruct (edge_dropout self) as [rate|]; [|by eauto 10].
  unfold mask_select. rewrite !decide_True by (rewrite keep_mask_length; lia).
  simpl. do 3 eexists. split; [done|].
  split; [by apply masked_same_length|]. split; [by apply masked_same_length|].
  split; by apply masked_Forall.
Qed.

Lemma propagate_after_dropout self batch (er nr : nat -> R) s t e :
  drop_edges self er = Some (s, t, e) ->
  propagate self batch er nr
  = edge_mask ← match batch with
                | Some b =>
                    Some <$> get_neighborhood
                               (((fun hrt : triple => hrt.1.1) <$> b)
                                ++ ((fun hrt : triple => hrt.2) <$> b))
                               s t (num_layers self) (num_entities self) true
                | None => Some None
                end;
    foldlM (fun x i => layer self i s t e edge_mask (node_mask self nr) x)
           (seq 0 (num_layers self)) (entity_embeddings self).
Proof. intros Hdrop. unfold propagate. by rewrite Hdrop. Qed.

(** X3.  On a model that is [model_ok] and whose tensors have the widths
    the operations ask for (entity embeddings of shape
    [(num_entities, embedding_dim)], biases of length [embedding_dim], batch
    normalisations that keep the length of a row), with a batch whose nodes
    are entities, the propagation returns embeddings, one row per entity,
    whatever the draws; [enrich] returns them when nothing is cached, and
    returns embeddings in every case. *)
Theorem propagate_returns self batch (er nr : nat -> R) :
  model_ok self -> layer_shapes_ok self ->
  mat_shape (num_entities self) (embedding_dim self) (entity_embeddings self) ->
  batch_ok self batch ->
  exists x, propagate self batch er nr = Some x
            /\ length x = num_entities self
            /\ (enriched_embeddings self = None ->
                (enrich_embeddings self batch er nr).1 = Some x)
            /\ is_Some (enrich_embeddings self batch er nr).1.
Proof.
  intros Hok _ _ Hbatch.
  pose proof Hok as (_ & Hx & Hlt & Hle & Hs & Ht & _).
  destruct (drop_edges_ok self er Hlt Hle Hs Ht)
    as (s & t & e & Hdrop & Hlt' & Hle' & Hs' & Ht').
  assert (Hlayers : forall edge_mask,
            (forall em, edge_mask = Some em -> length em = length s) ->
            exists x,
              foldlM (fun x i => layer self i s t e edge_mask (node_mask self nr) x)
                     (seq 0 (num_layers self)) (entity_embeddings self) = Some x
              /\ length x = num_entities self).
  { intros edge_mask Hlem.
    apply (foldlM_is_Some (fun x : mat R => length x = num_entities self));
      [|done].
    intros x i [_ Hi]%elem_of_seq Hlx. apply layer_is_Some; try done.
    unfold node_mask. intros km.
    destruct (training self); [|done].
    destruct (self_loop_dropout self); [|done].
    intros [= <-]. apply keep_mask_length. }
  assert (exists x, propagate self batch er nr = Some x
                    /\ length x = num_entities self) as (x & Hprop & Hlen).
  { rewrite (propagate_after_dropout _ _ _ _ _ _ _ Hdrop).
    destruct batch as [b|].
    - destruct (get_neighborhood_is_Some
                  (((fun hrt : triple => hrt.1.1) <$> b)
                   ++ ((fun hrt : triple => hrt.2) <$> b))
                  s t (num_layers self) (num_entities self) true)
        as (em & Hem & Hlen); try done.
      { simpl in Hbatch. apply Forall_app.
        split; apply Forall_fmap; eapply Forall_impl; try exact Hbatch;
          by intros hrt [? ?]. }
      simpl. rewrite Hem. simpl. apply Hlayers. by intros ? [= <-].
    - simpl. by apply Hlayers. }
  exists x. split; [done|]. split; [done|]. split.
  - intros Hnone. by rewrite enrich_result, Hnone, Hprop; destruct batch.
  - rewrite enrich_result, Hprop.
    by destruct batch, (enriched_embeddings self).
Qed.

(** *** A batch that covers every node *)

Lemma all_true_replicate (em : list bool) :
  (forall j, j < length em -> em !! j = Some true) ->
  em = replicate (length em) true.
Proof.
  intros Hall. apply list_eq. intros j.
  destruct (decide (j < length em)) as [Hj|Hj].
  - rewrite Hall by done. symmetry. by apply lookup_replicate_2.
  - rewrite (proj2 (lookup_ge_None em j)) by lia.
    symmetry. apply lookup_replicate_None. lia.
Qed.

Lemma zip_with_andb_true (mask : list bool) :
  zip_with andb mask (replicate (length mask) true) = mask.
Proof.
  induction mask as [|b mask IH]; [done|]. cbn. rewrite IH. by destruct b.
Qed.

Lemma neighborhood_round_length sources targets undirected (nm nm' : list bool) :
  neighborhood_round sources targets undirected nm = Some nm' ->
  length nm' = length nm.
Proof.
  unfold neighborhood_round.
  destruct (index_select nm sources) as [at_s|]; simpl; [|done].
  destruct (index_select nm targets) as [at_t|]; simpl; [|done].
  destruct (index_put nm sources _) as [nm1|] eqn:Hput; simpl; [|done].
  apply index_put_length in Hput.
  destruct undirected; [|intros [= <-]; done].
  destruct (index_select nm1 targets) as [at_t1|]; simpl; [|done].
  destruct (index_select nm1 sources) as [at_s1|]; simpl; [|done].
  intros Hput2%index_put_length. lia.
Qed.

(** When every node is a start node the selector selects every edge. *)
Lemma get_neighborhood_all start_nodes sources targets k n undirected em :
  (forall v, v < n -> v ∈ start_nodes) ->
  get_neighborhood start_nodes sources targets k n undirected = Some em ->
  em = replicate (length em) true.
Proof.
  intros Hcover. unfold get_neighborhood.
  destruct (index_put _ start_nodes _) as [nm0|] eqn:Hput; cbn -[seq]; [|done].
  destruct (foldlM _ (seq 0 k) nm0) as [nm|] eqn:Hrounds; cbn -[seq]; [|done].
  intros Hem. apply all_true_replicate. intros j Hj.
  assert (length nm = n /\ forall v, v < n -> nm !! v = Some true)
    as [Hln Hnm].
  { eapply (foldlM_invariant
              (fun nm : list bool =>
                 length nm = n /\ forall v, v < n -> nm !! v = Some true));
      [| |exact Hrounds].
    - intros nm1 i nm2 _ [Hl Hm] Hround. split.
      + by rewrite (neighborhood_round_length _ _ _ _ _ Hround).
      + intros v Hv. eapply neighborhood_round_keeps_marks; eauto.
    - split.
      + rewrite (index_put_length _ _ _ _ Hput). by rewrite length_replicate.
      + intros v Hv. apply (index_put_all_true _ _ _ v Hput). right.
        by apply Hcover. }
  apply (edge_mask_lookup_true _ _ _ _ _ _ Hem); [|done].
  left.
  assert (j < length targets) as Hjt.
  { rewrite (edge_mask_length _ _ _ _ _ Hem) in Hj. destruct undirected; lia. }
  destruct (lookup_lt_is_Some_2 targets j Hjt) as [t Ht].
  exists t. split; [done|]. apply Hnm.
  destruct (index_select nm targets) as [at_t|] eqn:Hsel; simpl in Hem; [|done].
  apply index_select_Some in Hsel.
  destruct (Forall2_lookup_l _ _ _ _ _ Hsel Ht) as (b & _ & Hb).
  rewrite <- Hln. by eapply lookup_lt_Some.
Qed.

Lemma relation_messages_all_selected self i r x sources targets edge_types acc :
  relation_messages self i r x sources targets edge_types
    (Some (replicate (length edge_types) true)) acc
  = relation_messages self i r x sources targets edge_types None acc.
Proof.
  unfold relation_messages, relation_mask, restrict_mask.
  rewrite decide_True by (by rewrite length_replicate, length_fmap).
  rewrite <- (length_fmap (fun t => t =? r) edge_types) at 1.
  by rewrite zip_with_andb_true.
Qed.

(** X4.  When the batch covers every node, the propagation restricted to
    the batch returns what the propagation over the whole graph returns. *)
Theorem propagate_batch_covering_all_nodes self (b : list triple)
    (er nr : nat -> R) :
  length (targets self) = length (sources self) ->
  length (edge_types self) = length (sources self) ->
  Forall (fun v => v < num_entities self) (sources self) ->
  Forall (fun v => v < num_entities self) (targets self) ->
  batch_ok self (Some b) ->
  (forall v, v < num_entities self ->
             v ∈ ((fun hrt : triple => hrt.1.1) <$> b)
                 ++ ((fun hrt : triple => hrt.2) <$> b)) ->
  propagate self (Some b) er nr = propagate self None er nr.
Proof.
  intros Hlt Hle Hs Ht Hbatch Hcover.
  destruct (drop_edges_ok self er Hlt Hle Hs Ht)
    as (s & t & e & Hdrop & Hlt' & Hle' & Hs' & Ht').
  rewrite !(propagate_after_dropout _ _ _ _ _ _ _ Hdrop).
  destruct (get_neighborhood_is_Some
              (((fun hrt : triple => hrt.1.1) <$> b)
               ++ ((fun hrt : triple => hrt.2) <$> b))
              s t (num_layers self) (num_entities self) true)
    as (em & Hem & Hlen); try done.
  { simpl in Hbatch. apply Forall_app.
    split; apply Forall_fmap; eapply Forall_impl; try exact Hbatch;
      by intros hrt [? ?]. }
  rewrite Hem. simpl.
  rewrite (get_neighborhood_all _ _ _ _ _ _ _ Hcover Hem), Hlen, <- Hle'.
  apply foldlM_ext. intros x i _. unfold layer, aggregate.
  rewrite (foldlM_ext _
             (fun new_x r => relation_messages self i r x s t e None new_x));
    [done|].
  intros acc r _. apply relation_messages_all_selected.
Qed.

End Totality.

(** ** Determinism *)

Section Determinism.
Context {R : Type} `{Scalar R}.
Implicit Types (self : @RGCN R) (batch : option (list triple)).

Lemma forallb_id_replicate (l : list bool) :
  forallb id l = true -> l = replicate (length l) true.
Proof.
  induction l as [|b l IH]; simpl; [done|].
  intros [Hb Hl]%andb_true_iff. rewrite <- IH by done. by destruct b.
Qed.

(** A rate below every draw keeps everything. *)
Lemma keeps_all_mask (rand : nat -> R) n rate :
  keeps_all rand n (Some rate) = true -> keep_mask rand n rate = replicate n true.
Proof.
  unfold keeps_all. intros Hall%forallb_id_replicate.
  rewrite Hall. unfold keep_mask. by rewrite length_fmap, length_seq.
Qed.

(** The draws enter the propagation through the two keep masks only. *)
Lemma propagate_masks self batch (er1 nr1 er2 nr2 : nat -> R) :
  drop_edges self er1 = drop_edges self er2 ->
  node_mask self nr1 = node_mask self nr2 ->
  propagate self batch er1 nr1 = propagate self batch er2 nr2.
Proof. intros He Hn. unfold propagate. by rewrite He, Hn. Qed.

Lemma propagate_without_dropout self batch (er1 nr1 er2 nr2 : nat -> R) :
  dropout_inactive self er1 nr1 = true ->
  dropout_inactive self er2 nr2 = true ->
  propagate self batch er1 nr1 = propagate self batch er2 nr2.
Proof.
  unfold dropout_inactive. intros H1 H2. apply propagate_masks.
  - unfold drop_edges. destruct (training self); [|done].
    destruct (edge_dropout self) as [rate|]; [|done]. simpl in *.
    apply andb_true_iff in H1 as [H1 _]. apply andb_true_iff in H2 as [H2 _].
    by rewrite (keeps_all_mask _ _ _ H1), (keeps_all_mask _ _ _ H2).
  - unfold node_mask. destruct (training self); [|done].
    destruct (self_loop_dropout self) as [rate|]; [|done]. simpl in *.
    apply andb_true_iff in H1 as [_ H1]. apply andb_true_iff in H2 as [_ H2].
    by rewrite (keeps_all_mask _ _ _ H1), (keeps_all_mask _ _ _ H2).
Qed.

(** The draws enter through the two keep masks only, and dropout that is
    inactive in two calls gives them the same masks. *)
Lemma dropout_inactive_masks self (er1 nr1 er2 nr2 : nat -> R) :
  dropout_inactive self er1 nr1 = true ->
  dropout_inactive self er2 nr2 = true ->
  drop_edges self er1 = drop_edges self er2
  /\ node_mask self nr1 = node_mask self nr2.
Proof.
  unfold dropout_inactive. intros H1 H2. split.
  - unfold drop_edges. destruct (training self); [|done].
    destruct (edge_dropout self) as [rate|]; [|done]. simpl in *.
    apply andb_true_iff in H1 as [H1 _]. apply andb_true_iff in H2 as [H2 _].
    by rewrite (keeps_all_mask _ _ _ H1), (keeps_all_mask _ _ _ H2).
  - unfold node_mask. destruct (training self); [|done].
    destruct (self_loop_dropout self) as [rate|]; [|done]. simpl in *.
    apply andb_true_iff in H1 as [_ H1]. apply andb_true_iff in H2 as [_ H2].
    by rewrite (keeps_all_mask _ _ _ H1), (keeps_all_mask _ _ _ H2).
Qed.

(** With the selector above the propagation is the one above. *)
Lemma propagate_with_index_put self batch (er nr : nat -> R) :
  propagate_with get_neighborhood self batch er nr = propagate self batch er nr.
Proof. reflexivity. Qed.

Lemma enrich_embeddings_with_index_put self batch (er nr : nat -> R) :
  enrich_embeddings_with get_neighborhood self batch er nr
  = enrich_embeddings self batch er nr.
Proof. reflexivity. Qed.

Lemma enrich_with_result select self batch (er nr : nat -> R) :
  (enrich_embeddings_with select self batch er nr).1
  = match batch, enriched_embeddings self with
    | None, Some cached => Some cached
    | _, _ => propagate_with select self batch er nr
    end.
Proof.
  unfold enrich_embeddings_with. destruct batch as [b|].
  - by destruct (enriched_embeddings self), (propagate_with select self (Some b) er nr).
  - by destruct (enriched_embeddings self), (propagate_with select self None er nr).
Qed.

Lemma enrich_with_model select self batch (er nr : nat -> R) :
  (enrich_embeddings_with select self batch er nr).2 = self
  \/ exists x, propagate_with select self batch er nr = Some x
       /\ batch = None /\ enriched_embeddings self = None
       /\ (enrich_embeddings_with select self batch er nr).2
          = set_enriched_embeddings self (Some x).
Proof.
  unfold enrich_embeddings_with.
  destruct batch as [b|].
  - left. rewrite bool_decide_eq_false_2 by done.
    by destruct (enriched_embeddings self), (propagate_with select self (Some b) er nr).
  - destruct (enriched_embeddings self) as [e|] eqn:He; [by left|].
    destruct (propagate_with select self None er nr) as [x|]; [|by left].
    destruct (buffer_messages self); simpl; [|by left].
    right. by exists x.
Qed.

(** The selector enters the propagation through the edge mask only. *)
Lemma propagate_with_selector select1 select2 self batch (er1 nr1 er2 nr2 : nat -> R) :
  drop_edges self er1 = drop_edges self er2 ->
  node_mask self nr1 = node_mask self nr2 ->
  selector_agrees select1 select2 self batch er1 ->
  propagate_with select1 self batch er1 nr1 = propagate_with select2 self batch er2 nr2.
Proof.
  intros He Hn Hsel. unfold propagate_with. rewrite <- He, <- Hn.
  unfold selector_agrees in Hsel.
  destruct (drop_edges self er1) as [[[s t] e]|]; [|done].
  cbn [mbind option_bind]. destruct batch as [b|]; [|done].
  by rewrite Hsel.
Qed.

(** C9, as the code has it.  When dropout is inactive in both calls
    (evaluation mode, or rates that are unset or below every draw: for the
    rate 0, no draw is 0) and the parameters are fixed, two calls of
    [enrich] without a batch return the same embeddings, whatever the draws
    and whatever the selector would return; and so do two calls with the
    same batch in which the selector returns the same edge mask.  A second
    call made after the first returns what the first returned. *)
Theorem enrich_deterministic_up_to_selector select1 select2 self batch
    (er1 nr1 er2 nr2 : nat -> R) :
  dropout_inactive self er1 nr1 = true ->
  dropout_inactive self er2 nr2 = true ->
  selector_agrees select1 select2 self batch er1 ->
  (enrich_embeddings_with select1 self batch er1 nr1).1
  = (enrich_embeddings_with select2 self batch er2 nr2).1
  /\ (enrich_embeddings_with select2
        (enrich_embeddings_with select1 self batch er1 nr1).2 batch er2 nr2).1
     = (enrich_embeddings_with select1 self batch er1 nr1).1
  /\ (batch = None ->
      forall select, (enrich_embeddings_with select self batch er2 nr2).1
                  = (enrich_embeddings self batch er1 nr1).1).
Proof.
  intros H1 H2 Hsel.
  destruct (dropout_inactive_masks self _ _ _ _ H1 H2) as [He Hn].
  pose proof (propagate_with_selector select1 select2 self batch _ _ _ _ He Hn Hsel)
    as Hp.
  assert (Hsame : (enrich_embeddings_with select1 self batch er1 nr1).1
                  = (enrich_embeddings_with select2 self batch er2 nr2).1).
  { rewrite !enrich_with_result. by rewrite Hp. }
  split; [done|]. split.
  - destruct (enrich_with_model select1 self batch er1 nr1)
      as [->|(x & Hx & -> & Hc & ->)]; [done|].
    rewrite !enrich_with_result, enriched_set_enriched, Hc. done.
  - intros -> select. rewrite <- enrich_embeddings_with_index_put.
    rewrite !enrich_with_result.
    destruct (enriched_embeddings self); [done|].
    symmetry. by apply propagate_with_selector.
Qed.

End Determinism.

(** C9, as stated, fails, in two ways.  In training mode with both rates 0
    the random draws still decide: an edge whose draw is 0 is dropped, since
    [0 > 0] is false, and with the draw one half it is kept.  And in
    evaluation mode, without any dropout, a call with a batch depends on the
    write that stays at a repeated index of the node mask: on [order_model]
    with the batch [(1, 0, 1)] node 0 is written to twice, and the kernel in
    which the last write stays and the one in which the first stays return
    different embeddings, also for node 1 of the batch. *)
Lemma enrich_not_deterministic :
  (let self := Examples.dropout_model in
   let batch := Some [(0, 0, 1)] in
   let first := enrich_embeddings self batch Examples.draws_half Examples.draws_half in
   let second := enrich_embeddings first.2 batch Examples.draws_zero Examples.draws_half in
   training self = true
   /\ edge_dropout self = Some (QArith_base.Qmake 0 1)
   /\ self_loop_dropout self = Some (QArith_base.Qmake 0 1)
   /\ first.1 = Some [[QArith_base.Qmake 4 1]; [QArith_base.Qmake 2 1]]
   /\ second.1 = Some [[QArith_base.Qmake 0 1]; [QArith_base.Qmake 0 1]]
   /\ first.1 <> second.1)
  /\ (let self := Examples.order_model in
      let batch := Some [(1, 0, 1)] in
      let draws := fun _ : nat => 0%Z in
      let first := enrich_embeddings_with (get_neighborhood_with index_put) self batch draws draws in
      let second := enrich_embeddings_with (get_neighborhood_with index_put_first) first.2 batch draws draws in
      training self = false
      /\ edge_dropout self = None /\ self_loop_dropout self = None
      /\ kernel_ok index_put /\ kernel_ok index_put_first
      /\ get_neighborhood_with index_put [1; 1] (sources self) (targets self)
           2 4 true = Some [true; false; false]
      /\ get_neighborhood_with index_put_first [1; 1] (sources self)
           (targets self) 2 4 true = Some [true; true; true]
      /\ first.1 = Some [[4]; [40]; [0]; [0]]%Z
      /\ second.1 = Some [[12]; [4440]; [4440]; [4440]]%Z
      /\ first.1 <> second.1).
Proof.
  cbv zeta. split.
  - repeat split; try reflexivity. vm_compute. discriminate.
  - split; [reflexivity|]. split; [reflexivity|]. split; [reflexivity|].
    split; [apply kernel_ok_index_put|].
    split; [apply kernel_ok_index_put_first|].
    repeat split; try reflexivity. vm_compute. discriminate.
Qed.

(** ** Parameter allocation *)

Section Allocation.
Context {R : Type} `{Scalar R} `{!ScalarNorm R}.
Implicit Types (self m : @RGCN R) (env : @init_env R).

Lemma tabulate_length {A} n (f : nat -> A) : length (tabulate n f) = n.
Proof. unfold tabulate. by rewrite length_fmap, length_seq. Qed.

Lemma tabulate_Forall {A} (P : A -> Prop) n (f : nat -> A) :
  (forall i, i < n -> P (f i)) -> Forall P (tabulate n f).
Proof.
  intros Hf. unfold tabulate. apply Forall_fmap, Forall_forall.
  intros i Hi%elem_of_seq. apply Hf. lia.
Qed.

Lemma tabulate_shape n d (f : nat -> nat -> R) :
  mat_shape n d (tabulate n (fun j => tabulate d (f j))).
Proof.
  split; [apply tabulate_length|].
  apply tabulate_Forall. intros j _. apply tabulate_length.
Qed.

Lemma l1_normalize_length (row : vec R) :
  length (l1_normalize row) = length row.
Proof. unfold l1_normalize. by rewrite length_fmap. Qed.

(** A loop whose body only needs the gain returns one tensor per layer. *)
Lemma mapM_gain {A B} (g : option R) (f : A -> B) (l : list A) :
  (l = [] \/ is_Some g) ->
  mapM (fun i => _ ← g; Some (f i)) l = Some (f <$> l).
Proof.
  intros [->|[gain ->]]; [done|].
  apply mapM_Some, Forall2_fmap_r, Forall_Forall2_diag, Forall_true. done.
Qed.

Lemma mapM_gain_inv {A B} (g : option R) (f : A -> B) (l : list A) k :
  mapM (fun i => _ ← g; Some (f i)) l = Some k -> k = f <$> l.
Proof.
  revert k. induction l as [|a l IH]; intros k; cbn; [by intros [= <-]|].
  destruct g as [gain|]; cbn; [|done].
  destruct (mapM _ l) as [k'|] eqn:Hk; cbn; [|done].
  intros [= <-]. f_equal. by apply IH.
Qed.

Lemma new_basis_bases_inv env self b :
  new_basis_bases env self = Some b ->
  length b = num_layers self
  /\ Forall (basis_tensor_ok (num_bases self) (embedding_dim self)) b.
Proof.
  unfold new_basis_bases. intros ->%mapM_gain_inv. split.
  - by rewrite length_fmap, length_seq.
  - apply Forall_fmap, Forall_forall. intros i _. split.
    + apply tabulate_length.
    + apply tabulate_Forall. intros n _. apply tabulate_shape.
Qed.

Lemma new_block_bases_inv env self b :
  new_block_bases env self = Some b ->
  num_bases self <> 0
  /\ length b = num_layers self
  /\ Forall (block_tensor_ok (S (num_relations self)) (num_bases self)
               (embedding_dim self / num_bases self)) b.
Proof.
  unfold new_block_bases. case_decide; [done|].
  intros ->%mapM_gain_inv. split; [done|]. split.
  - by rewrite length_fmap, length_seq.
  - apply Forall_fmap, Forall_forall. intros i _. split.
    + apply tabulate_length.
    + apply tabulate_Forall. intros r _. split; [apply tabulate_length|].
      apply tabulate_Forall. intros b _. apply tabulate_shape.
Qed.

Lemma new_att_shape env self :
  length (new_att env self) = num_layers self
  /\ Forall (mat_shape (S (num_relations self)) (num_bases self))
       (new_att env self).
Proof.
  unfold new_att. split; [apply tabulate_length|].
  apply tabulate_Forall. intros i _. split; [apply tabulate_length|].
  apply tabulate_Forall. intros r _.
  by rewrite l1_normalize_length, tabulate_length.
Qed.

Lemma init_empty_weights_inv env self m :
  init_empty_weights_ env self = Some m ->
  exists b a,
    allocate_decomposition env self = Some (b, a)
    /\ m = set_parameters self (base_model_init env (entity_embeddings self))
             b a (allocate_biases self) (allocate_batch_norms env self)
             (allocate_activations env self).
Proof.
  unfold init_empty_weights_.
  destruct (allocate_decomposition env self) as [[b a]|]; [|done].
  intros [= <-]. eauto.
Qed.

(** [init_empty_weights_] returns unless the gain is needed and undefined,
    or the block size cannot be computed. *)
Lemma allocate_decomposition_is_Some env self :
  (num_layers self = 0 \/ is_Some (calculate_gain env)) ->
  (decomposition self = "block" -> num_bases self <> 0) ->
  is_Some (allocate_decomposition env self).
Proof.
  intros Hgain Hnb. unfold allocate_decomposition.
  assert (seq 0 (num_layers self) = [] \/ is_Some (calculate_gain env)) as Hg.
  { destruct Hgain as [->|]; auto. }
  destruct (String.eqb_spec (decomposition self) "basis") as [Hb|Hb].
  - destruct (bases self); [|by eexists].
    unfold new_basis_bases. rewrite mapM_gain by done. by eexists.
  - destruct (String.eqb_spec (decomposition self) "block") as [Hk|Hk];
      [|by eexists].
    destruct (bases self); [|by eexists].
    unfold new_block_bases. rewrite decide_False by auto.
    rewrite mapM_gain by done. by eexists.
Qed.

Lemma allocate_biases_length self :
  biases self = [] -> use_bias self = true ->
  length (allocate_biases self) = num_layers self.
Proof.
  intros Hb Hu. unfold allocate_biases. rewrite Hb, Hu.
  apply tabulate_length.
Qed.

Lemma allocate_activations_length env self acts :
  activations self = None ->
  allocate_activations env self = Some acts ->
  length acts = num_layers self.
Proof.
  intros Ha. unfold allocate_activations. rewrite Ha.
  destruct (activation_cls env); [|done].
  intros [= <-]. apply tabulate_length.
Qed.

(** The parameters of the decomposition after allocation from nothing. *)
Lemma allocate_decomposition_ok env self b a :
  bases self = [] -> att self = [] ->
  allocate_decomposition env self = Some (b, a) ->
  (decomposition self = "basis" ->
     length a = num_layers self /\ length b = num_layers self
     /\ Forall (mat_shape (S (num_relations self)) (num_bases self)) a
     /\ Forall (basis_tensor_ok (num_bases self) (embedding_dim self)) b)
  /\ (decomposition self = "block" ->
        length b = num_layers self
        /\ Forall (block_tensor_ok (S (num_relations self)) (num_bases self)
                     (embedding_dim self / num_bases self)) b).
Proof.
  intros Hb Ha. unfold allocate_decomposition. rewrite Hb, Ha.
  destruct (String.eqb_spec (decomposition self) "basis") as [Hd|Hd].
  - destruct (new_basis_bases env self) as [b'|] eqn:Hnew; [|done].
    cbn. intros [= <- <-].
    apply new_basis_bases_inv in Hnew as [Hl Hf].
    destruct (new_att_shape env self) as [Hal Haf].
    split; [done|]. rewrite Hd. done.
  - destruct (String.eqb_spec (decomposition self) "block") as [Hk|Hk].
    + destruct (new_block_bases env self) as [b'|] eqn:Hnew; [|done].
      cbn. intros [= <- <-].
      apply new_block_bases_inv in Hnew as (_ & Hl & Hf). done.
    + done.
Qed.

(** X5. From the state the constructor leaves (no parameter allocated), with
    a configuration its checks accept and positive dimensions, a well-formed
    graph, one embedding row per entity from the base model and a gain for
    the activation,
    [init_empty_weights_] returns a model the propagation can run on, as
    long as batch normalisation is off or there is at most one layer; on
    that model a weight matrix is generated for every layer and every
    relation, the self-loop included.  The cache is as before. *)
Theorem init_empty_weights_allocates env self :
  unallocated self -> config_ok self -> graph_ok self ->
  length (base_model_init env (entity_embeddings self)) = num_entities self ->
  is_Some (calculate_gain env) ->
  (use_batch_norm self = true -> num_layers self <= 1) ->
  exists m,
    init_empty_weights_ env self = Some m
    /\ model_ok m
    /\ (forall i r, i < num_layers self -> r <= num_relations self ->
          is_Some (get_relation_weights m i r))
    /\ enriched_embeddings m = enriched_embeddings self.
Proof.
  intros (Hb & Ha & Hbi & Hbn & Hact) (Hnb & Hd0 & Hdec & Hnorm)
    (Ht & He & Hs & Htt) Hlen Hgain Hbn1.
  destruct (allocate_decomposition_is_Some env self) as [[b a] Hba]; [auto| |].
  { intros _. lia. }
  destruct (allocate_decomposition_ok env self b a Hb Ha Hba) as [Hbasis Hblock].
  unfold init_empty_weights_. rewrite Hba. cbn. eexists. split; [done|].
  assert (model_ok (set_parameters self
            (base_model_init env (entity_embeddings self)) b a
            (allocate_biases self) (allocate_batch_norms env self)
            (allocate_activations env self))) as Hok.
  { split.
    - destruct Hdec as [Hd|(Hd & Hmod)].
      + left. destruct (Hbasis Hd) as (? & ? & ? & ?). by repeat split.
      + right. destruct (Hblock Hd) as (? & ?). by repeat split.
    - repeat split; try done; cbn.
      + intros Hu. by rewrite allocate_biases_length.
      + intros Hu. unfold allocate_batch_norms. rewrite Hbn, Hu. cbn. auto.
      + intros acts Hacts.
        by rewrite (allocate_activations_length env self acts). }
  split; [done|]. split; [|done].
  intros i r Hi Hr.
  apply get_relation_weights_is_Some; [apply Hok|exact Hi|exact Hr].
Qed.

Lemma tabulate_nil_inv {A} n (f : nat -> A) : tabulate n f = [] -> n = 0.
Proof. intros Hn. rewrite <-(tabulate_length n f), Hn. done. Qed.

Lemma new_basis_bases_again env env' self m :
  num_layers m = num_layers self ->
  new_basis_bases env self = Some [] -> new_basis_bases env' m = Some [].
Proof.
  intros Hl Hnew. apply new_basis_bases_inv in Hnew as [Hlen _].
  unfold new_basis_bases. rewrite Hl, <-Hlen. done.
Qed.

Lemma new_block_bases_again env env' self m :
  num_layers m = num_layers self -> num_bases m = num_bases self ->
  new_block_bases env self = Some [] -> new_block_bases env' m = Some [].
Proof.
  intros Hl Hn Hnew. apply new_block_bases_inv in Hnew as (Hnb & Hlen & _).
  unfold new_block_bases. rewrite Hl, Hn, <-Hlen, decide_False by done. done.
Qed.

Lemma new_att_again env env' self m :
  num_layers m = num_layers self ->
  new_att env self = [] -> new_att env' m = [].
Proof.
  intros Hl Hnew. apply tabulate_nil_inv in Hnew.
  unfold new_att. rewrite Hl, Hnew. done.
Qed.

Lemma allocate_decomposition_kept env self b a :
  allocate_decomposition env self = Some (b, a) ->
  (bases self <> [] -> b = bases self) /\ (att self <> [] -> a = att self).
Proof.
  unfold allocate_decomposition.
  destruct (String.eqb (decomposition self) "basis");
    [|destruct (String.eqb (decomposition self) "block")].
  - destruct (bases self) as [|t ts] eqn:Hb, (att self) as [|u us] eqn:Ha;
      cbn; try destruct (new_basis_bases env self); cbn;
      intros [= <- <-]; done.
  - destruct (bases self) as [|t ts] eqn:Hb;
      cbn; try destruct (new_block_bases env self); cbn;
      intros [= <- <-]; done.
  - by intros [= <- <-].
Qed.

Lemma allocate_decomposition_again env env' self m b a :
  allocate_decomposition env self = Some (b, a) ->
  bases m = b -> att m = a ->
  decomposition m = decomposition self ->
  num_layers m = num_layers self -> num_bases m = num_bases self ->
  allocate_decomposition env' m = Some (b, a).
Proof.
  intros Hba Hb Ha Hd Hl Hn. revert Hba. unfold allocate_decomposition.
  rewrite Hd, Hb, Ha.
  destruct (String.eqb (decomposition self) "basis");
    [|destruct (String.eqb (decomposition self) "block")].
  - destruct (match bases self with [] => _ | _ :: _ => _ end)
      as [b'|] eqn:Hb1; [|done].
    cbn. intros [= -> Ha1].
    assert (match b with [] => new_basis_bases env' m | _ :: _ => Some b end
            = Some b) as ->.
    { destruct b; [|done]. destruct (bases self); [|done].
      by eapply new_basis_bases_again. }
    cbn. do 2 f_equal.
    destruct a; [|done]. destruct (att self); [|done].
    by eapply new_att_again.
  - destruct (match bases self with [] => _ | _ :: _ => _ end)
      as [b'|] eqn:Hb1; [|done].
    cbn. intros [= -> Ha1].
    assert (match b with [] => new_block_bases env' m | _ :: _ => Some b end
            = Some b) as ->.
    { destruct b; [|done]. destruct (bases self); [|done].
      by eapply new_block_bases_again. }
    done.
  - by intros [= <- <-].
Qed.

Lemma allocate_biases_again self m :
  biases m = allocate_biases self ->
  use_bias m = use_bias self -> num_layers m = num_layers self ->
  embedding_dim m = embedding_dim self ->
  allocate_biases m = allocate_biases self.
Proof.
  intros Hb Hu Hl Hd. unfold allocate_biases at 1. rewrite Hb, Hu, Hl, Hd.
  destruct (allocate_biases self) eqn:Ha; [|done].
  revert Ha. unfold allocate_biases.
  by destruct (biases self), (use_bias self).
Qed.

Lemma allocate_batch_norms_again env env' self m :
  batch_norms m = allocate_batch_norms env self ->
  use_batch_norm m = use_batch_norm self ->
  allocate_batch_norms env' m = allocate_batch_norms env self.
Proof.
  intros Hb Hu. unfold allocate_batch_norms at 1. rewrite Hb, Hu.
  unfold allocate_batch_norms.
  by destruct (batch_norms self), (use_batch_norm self).
Qed.

Lemma allocate_activations_again env env' self m :
  activation_cls env' = activation_cls env ->
  activations m = allocate_activations env self ->
  allocate_activations env' m = allocate_activations env self.
Proof.
  intros Hc Ha. unfold allocate_activations at 1. rewrite Hc, Ha.
  unfold allocate_activations.
  by destruct (activation_cls env), (activations self).
Qed.

(** X6. [init_empty_weights_] never replaces a parameter list that exists:
    bases, attention, biases, batch normalisations and activations that are
    there are kept.  So a second call, whatever the random entries and the
    gain of that call, returns and leaves the parameters of the first call
    in place. *)
Theorem init_empty_weights_keeps_parameters env env' self m :
  init_empty_weights_ env self = Some m ->
  activation_cls env' = activation_cls env ->
  (bases self <> [] -> bases m = bases self)
  /\ (att self <> [] -> att m = att self)
  /\ (biases self <> [] -> biases m = biases self)
  /\ (batch_norms self <> [] -> batch_norms m = batch_norms self)
  /\ (forall acts, activations self = Some acts -> activations m = Some acts)
  /\ exists m',
       init_empty_weights_ env' m = Some m'
       /\ bases m' = bases m /\ att m' = att m /\ biases m' = biases m
       /\ batch_norms m' = batch_norms m /\ activations m' = activations m.
Proof.
  intros (b & a & Hba & ->)%init_empty_weights_inv Hcls.
  destruct (allocate_decomposition_kept env self b a Hba) as [Hkb Hka].
  cbn. split; [done|]. split; [done|]. split.
  { unfold allocate_biases. by destruct (biases self). }
  split.
  { unfold allocate_batch_norms. by destruct (batch_norms self). }
  split.
  { intros acts Hacts. unfold allocate_activations. rewrite Hacts.
    by destruct (activation_cls env). }
  unfold init_empty_weights_.
  erewrite allocate_decomposition_again by (done || reflexivity).
  cbn. eexists. split; [done|]. cbn.
  split; [done|]. split; [done|]. split.
  { by apply allocate_biases_again. }
  split.
  { by eapply allocate_batch_norms_again. }
  by apply allocate_activations_again.
Qed.

(** A loop stops with the failure of a body that fails on every state. *)
Lemma foldlM_None_at {A B} (f : B -> A -> option B) l (b : B) y :
  y ∈ l -> (forall b, f b y = None) -> foldlM f l b = None.
Proof.
  intros Hy Hf. revert b.
  induction l as [|z l IH]; intros b; [by apply elem_of_nil in Hy|].
  cbn. apply elem_of_cons in Hy as [<-|Hy]; [by rewrite Hf|].
  destruct (f b z) as [b'|]; cbn; [by apply IH|done].
Qed.

(** A layer that finds no batch normalisation at its index raises. *)
Lemma layer_batch_norm_missing self i sources targets edge_types edge_mask
    keep (x : mat R) :
  use_batch_norm self = true -> length (batch_norms self) <= i ->
  layer self i sources targets edge_types edge_mask keep x = None.
Proof.
  intros Hu Hi. unfold layer.
  destruct (aggregate _ _ _ _ _ _ _); cbn; [|done].
  destruct (get_relation_weights _ _ _); cbn; [|done].
  destruct (self_loop _ _ _); cbn; [|done].
  destruct (add_bias _ _ _); cbn; [|done].
  unfold apply_batch_norm. rewrite Hu.
  destruct (batch_norms self !! i) as [bn|] eqn:Hbn; [|done].
  apply lookup_lt_Some in Hbn. unfold batch_norm in *. lia.
Qed.

Lemma propagate_batch_norm_missing self batch (edge_rand node_rand : nat -> R) :
  use_batch_norm self = true ->
  length (batch_norms self) < num_layers self ->
  propagate self batch edge_rand node_rand = None.
Proof.
  intros Hu Hl. unfold propagate.
  destruct (drop_edges self edge_rand) as [[[s t] e]|]; cbn; [|done].
  destruct (match batch with Some _ => _ | None => _ end) as [em|];
    cbn; [|done].
  apply (foldlM_None_at _ _ _ (length (batch_norms self))).
  - apply elem_of_seq. lia.
  - intros x. by apply layer_batch_norm_missing.
Qed.

(** X7. With batch normalisation switched on, [init_empty_weights_]
    allocates one batch normalisation module, whatever the number of layers,
    while layer [i] of the propagation reads [self.batch_norms[i]].  So on a
    model of two or more layers every propagation raises: for every batch
    and all draws [_enrich_embeddings] returns nothing, unless it answers
    from the cache. *)
Theorem batch_norm_allocated_once env self m :
  init_empty_weights_ env self = Some m ->
  batch_norms self = [] -> use_batch_norm self = true ->
  batch_norms m = [new_batch_norm env]
  /\ (2 <= num_layers self ->
      forall batch edge_rand node_rand,
        propagate m batch edge_rand node_rand = None
        /\ (batch <> None \/ enriched_embeddings self = None ->
            enrich_embeddings m batch edge_rand node_rand = (None, m))).
Proof.
  intros (b & a & Hba & ->)%init_empty_weights_inv Hbn Hu.
  assert (allocate_batch_norms env self = [new_batch_norm env]) as Hone.
  { unfold allocate_batch_norms. by rewrite Hbn, Hu. }
  split; [exact Hone|]. intros Hl batch edge_rand node_rand.
  match goal with |- ?P /\ _ => assert P as Hp end.
  { apply propagate_batch_norm_missing; [exact Hu|]. cbn. rewrite Hone.
    cbn. lia. }
  split; [exact Hp|]. intros Hcache.
  unfold enrich_embeddings. rewrite Hp.
  destruct batch as [bt|]; [done|]. cbn.
  destruct Hcache as [Hb'|Hc]; [done|]. by rewrite Hc.
Qed.

Lemma get_relation_weights_cleared self i r :
  bases self = [] -> att self = [] -> get_relation_weights self i r = None.
Proof.
  intros Hb Ha. unfold get_relation_weights. rewrite Hb, Ha.
  by repeat case_match.
Qed.

Lemma propagate_weights_missing self batch (edge_rand node_rand : nat -> R) :
  0 < num_layers self ->
  get_relation_weights self 0 (num_relations self) = None ->
  propagate self batch edge_rand node_rand = None.
Proof.
  intros Hl Hw. unfold propagate.
  destruct (drop_edges self edge_rand) as [[[s t] e]|]; cbn; [|done].
  destruct (match batch with Some _ => _ | None => _ end) as [em|];
    cbn; [|done].
  apply (foldlM_None_at _ _ _ 0).
  - apply elem_of_seq. lia.
  - intros x. unfold layer.
    destruct (aggregate _ _ _ _ _ _ _); cbn; [|done]. by rewrite Hw.
Qed.

(** X8. [clear_weights_] empties the four parameter lists and nothing
    else: no relation weight can be generated any more and a propagation of
    one or more layers raises, but the activations and the embedding cache
    stay.  A buffered result is therefore still returned after the weights
    were cleared, and also after [init_empty_weights_] has allocated new
    ones. *)
Theorem clear_weights_keeps_cache env self :
  (bases (clear_weights_ self) = [] /\ att (clear_weights_ self) = []
   /\ biases (clear_weights_ self) = []
   /\ batch_norms (clear_weights_ self) = [])
  /\ activations (clear_weights_ self) = activations self
  /\ (forall i r, get_relation_weights (clear_weights_ self) i r = None)
  /\ (0 < num_layers self -> forall batch edge_rand node_rand,
        propagate (clear_weights_ self) batch edge_rand node_rand = None)
  /\ (forall cached edge_rand node_rand,
        enriched_embeddings self = Some cached ->
        enrich_embeddings (clear_weights_ self) None edge_rand node_rand
        = (Some cached, clear_weights_ self)
        /\ forall m, init_empty_weights_ env (clear_weights_ self) = Some m ->
             enrich_embeddings m None edge_rand node_rand = (Some cached, m)).
Proof.
  split; [done|]. split; [done|].
  assert (forall i r, get_relation_weights (clear_weights_ self) i r = None)
    as Hw by (intros i r; by apply get_relation_weights_cleared).
  split; [exact Hw|]. split.
  - intros Hl batch edge_rand node_rand.
    apply propagate_weights_missing; [exact Hl|apply Hw].
  - intros cached edge_rand node_rand Hc. split.
    + unfold enrich_embeddings. cbn. by rewrite Hc.
    + intros m (b & a & _ & ->)%init_empty_weights_inv.
      unfold enrich_embeddings. cbn. by rewrite Hc.
Qed.

End Allocation.

(** ** What the constructor leaves *)

Section Constructed.
Import Init.

(** X9. When the checks of [__init__] pass, the model holds: no inverse
    triples; as number of bases or blocks the argument, or the heuristic
    value when that is [None]; in basis mode at most as many bases as
    relations, in block mode a number of blocks that is not zero and divides
    the embedding dimension; an allowed normalisation; and never both a bias
    and a batch normalisation: batch normalisation switches the bias off. *)
Theorem init_ok_postconditions (a : args) (c : checked) :
  init a = Ok c ->
  create_inverse_triples a = false
  /\ self_num_bases c = effective_num a
  /\ self_decomposition c = decomposition a
  /\ self_message_normalization c = message_normalization a
  /\ allowed_normalization (message_normalization a) = true
  /\ ((decomposition a = "basis"
       /\ (self_num_bases c <= num_relations a)%Z)
      \/ (decomposition a = "block"
          /\ divisible_by (embedding_dim a) (self_num_bases c)))
  /\ self_use_batch_norm c = use_batch_norm a
  /\ self_use_bias c = use_bias a && negb (use_batch_norm a)
  /\ self_use_bias c && self_use_batch_norm c = false.
Proof.
  unfold init. destruct (create_inverse_triples a); [done|].
  destruct (check_decomposition a) as [n|e] eqn:Hc; cbn; [|done].
  destruct (allowed_normalization (message_normalization a)); cbn; [|done].
  intros [= <-]. cbn.
  assert (n = effective_num a
          /\ ((decomposition a = "basis" /\ (n <= num_relations a)%Z)
              \/ (decomposition a = "block"
                  /\ divisible_by (embedding_dim a) n))) as [Hn Hdec].
  { revert Hc. unfold check_decomposition, effective_num, py_mod, divisible_by.
    destruct (String.eqb_spec (decomposition a) "basis") as [Hb|Hb].
    - destruct (num_bases_or_blocks a) as [m|].
      all: match goal with
           | |- context [(?u >? ?v)%Z] => destruct (Z.gtb_spec u v)
           end; [done|].
      all: intros [= <-]; split; [done|]; left; split; [done|].
      all: lia.
    - destruct (String.eqb_spec (decomposition a) "block") as [Hk|Hk]; [|done].
      destruct (num_bases_or_blocks a) as [m|].
      all: destruct (decide _) as [Hz|Hz]; cbn; [done|].
      all: destruct (decide _) as [Hr|Hr]; cbn; [done|].
      all: intros [= <-]; split; [done|]; right; split; [done|].
      all: split; [done|].
      all: match goal with
           | |- ?u = 0%Z => by destruct (decide (u = 0%Z))
           end. }
  repeat split; try done.
  - by destruct (use_batch_norm a), (use_bias a).
  - by destruct (use_batch_norm a), (use_bias a).
Qed.

(** The checks with the heuristic value. *)
Lemma checks_heuristic (a : args) :
  num_bases_or_blocks a = None ->
  create_inverse_triples a = false ->
  allowed_normalization (message_normalization a) = true ->
  (decomposition a = "basis" ->
     (raised (init a) = false <-> (1 <= num_relations a)%Z)
     /\ forall c, init a = Ok c ->
          self_num_bases c = (num_relations a / 2 + 1)%Z
          /\ (1 <= self_num_bases c <= num_relations a)%Z)
  /\ (decomposition a = "block" ->
        (raised (init a) = false <-> (embedding_dim a mod 2 = 0)%Z)
        /\ forall c, init a = Ok c -> self_num_bases c = 2%Z).
Proof.
  intros Hnone Hinv Hnorm. unfold init, check_decomposition, py_mod.
  rewrite Hnone, Hinv, Hnorm. split; intros Hd; rewrite Hd; cbn.
  - assert ((1 <= num_relations a)%Z ->
            (0 <= num_relations a / 2 < num_relations a)%Z) as Hpos.
    { intros Hr. split; [apply Z.div_pos; lia|apply Z.div_lt; lia]. }
    assert ((num_relations a <= 0)%Z ->
            (num_relations a <= num_relations a / 2)%Z) as Hneg.
    { intros Hr. apply Z.div_le_lower_bound; lia. }
    destruct (Z.gtb_spec (num_relations a / 2 + 1) (num_relations a))
      as [Hgt|Hle]; cbn.
    + split; [|done]. split; [done|]. intros Hr. lia.
    + assert (1 <= num_relations a)%Z as Hr by lia.
      split; [done|]. intros c [= <-]. cbn. split; [done|]. lia.
  - destruct (decide (2 = 0)%Z) as [?|_]; [done|]. cbn.
    destruct (decide ((embedding_dim a mod 2)%Z <> 0%Z)) as [Hr|Hr]; cbn.
    + split; [|done]. split; [done|]. intros Hm. by rewrite Hm in Hr.
    + split.
      * split; [intros _|done].
        by destruct (decide ((embedding_dim a mod 2)%Z = 0%Z)).
      * by intros c [= <-].
Qed.

(** The constructor returns exactly when the base constructors return, the
    checks pass and the allocation of the weights returns. *)
Lemma construct_returns_iff (super_init : result unit)
    (init_weights_on_device : checked -> result unit) (a : args) :
  raised (construct super_init init_weights_on_device a) = false <->
    raised super_init = false
    /\ exists c, init a = Ok c /\ raised (init_weights_on_device c) = false.
Proof.
  unfold construct. destruct super_init as [[]|e]; simpl.
  - destruct (init a) as [c|e]; simpl.
    + destruct (init_weights_on_device c) as [[]|e] eqn:Hh; simpl.
      * split; [intros _|done]. split; [done|]. exists c. by rewrite Hh.
      * split; [done|]. intros [_ (c' & [= <-] & Hr)]. by rewrite Hh in Hr.
    + split; [done|]. by intros [_ (c & ? & _)].
  - split; [done|]. by intros [? _].
Qed.

(** X10. With [num_bases_or_blocks = None] the heuristic decides.  In basis
    mode the checks pass exactly when there is at least one relation, so the
    constructor returns exactly when, besides, the constructors of the base
    model and the base class return and the allocation of the weights
    returns; the number of bases is [num_relations // 2 + 1], between one
    and the number of relations.  In block mode the checks pass exactly when
    the embedding dimension is even, the constructor returns under the same
    two further conditions, and the number of blocks is two. *)
Theorem init_heuristic (super_init : result unit)
    (init_weights_on_device : checked -> result unit) (a : args) :
  num_bases_or_blocks a = None ->
  create_inverse_triples a = false ->
  allowed_normalization (message_normalization a) = true ->
  (decomposition a = "basis" ->
     (raised (init a) = false <-> (1 <= num_relations a)%Z)
     /\ (raised (construct super_init init_weights_on_device a) = false <->
           raised super_init = false
           /\ (1 <= num_relations a)%Z
           /\ exists c, init a = Ok c
                /\ raised (init_weights_on_device c) = false)
     /\ forall c, init a = Ok c ->
          self_num_bases c = (num_relations a / 2 + 1)%Z
          /\ (1 <= self_num_bases c <= num_relations a)%Z)
  /\ (decomposition a = "block" ->
        (raised (init a) = false <-> (embedding_dim a mod 2 = 0)%Z)
        /\ (raised (construct super_init init_weights_on_device a) = false <->
              raised super_init = false
              /\ (embedding_dim a mod 2 = 0)%Z
              /\ exists c, init a = Ok c
                   /\ raised (init_weights_on_device c) = false)
        /\ forall c, init a = Ok c -> self_num_bases c = 2%Z).
Proof.
  intros Hnone Hinv Hnorm.
  destruct (checks_heuristic a Hnone Hinv Hnorm) as [Hbasis Hblock].
  split; intros Hd.
  - destruct (Hbasis Hd) as [Hiff Hnb]. split; [done|]. split; [|done].
    rewrite construct_returns_iff. split.
    + intros (Hs & c & Hc & Hh). split; [done|]. split; [|by exists c].
      apply Hiff. by rewrite Hc.
    + intros (Hs & _ & Hc). done.
  - destruct (Hblock Hd) as [Hiff Hnb]. split; [done|]. split; [|done].
    rewrite construct_returns_iff. split.
    + intros (Hs & c & Hc & Hh). split; [done|]. split; [|by exists c].
      apply Hiff. by rewrite Hc.
    + intros (Hs & _ & Hc). done.
Qed.

End Constructed.

(** ** The shape of the enriched embeddings *)

Section Shape.
Context {R : Type} `{Scalar R}.
Implicit Types (self : @RGCN R) (x acc new_x w : mat R) (row : vec R).

Lemma get_relation_weights_shape self i r w :
  basis_params_ok self \/ block_params_ok self ->
  i < num_layers self -> r <= num_relations self ->
  get_relation_weights self i r = Some w ->
  mat_shape (embedding_dim self) (embedding_dim self) w.
Proof.
  intros [(Hdec & Hla & Hlb & Hatt & Hbases)|Hblock] Hi Hr.
  - destruct (lookup_lt_is_Some_2 (att self) i) as [a Ha]; [lia|].
    destruct (lookup_lt_is_Some_2 (bases self) i) as [t Ht]; [lia|].
    pose proof (Forall_lookup_1 _ _ _ _ Hatt Ha) as [Hrows Hcols].
    pose proof (Forall_lookup_1 _ _ _ _ Hbases Ht) as Hb.
    destruct t as [b|]; [|done]. destruct Hb as [Hnb Hshapes].
    destruct (lookup_lt_is_Some_2 a r) as [att_r Hatt_r]; [lia|].
    pose proof (Forall_lookup_1 _ _ _ _ Hcols Hatt_r) as Hlen. simpl in Hlen.
    rewrite get_relation_weights_basis by done.
    rewrite Ha, Ht. simpl. rewrite Hatt_r. simpl.
    rewrite broadcast_mul_same_length by lia. intros [= <-].
    apply sum_dim0_shape_get. by apply zip_with_mat_scale_shape.
  - destruct Hblock as (Hdec & Hnb & Hdpos & Hmod & Hlb & Hbases).
    assert (Hd : num_bases self * (embedding_dim self / num_bases self)
                 = embedding_dim self).
    { pose proof (Nat.div_mod_eq (embedding_dim self) (num_bases self)). lia. }
    assert (Hbs : 0 < embedding_dim self / num_bases self) by nia.
    destruct (lookup_lt_is_Some_2 (bases self) i) as [lt Hlt]; [lia|].
    pose proof (Forall_lookup_1 _ _ _ _ Hbases Hlt) as Hok.
    destruct lt as [|t]; [done|]. destruct Hok as [Hlen Hrows].
    destruct (lookup_lt_is_Some_2 t r) as [blocks Hblocks]; [lia|].
    pose proof (Forall_lookup_1 _ _ _ _ Hrows Hblocks) as [Hlbl Hshapes].
    destruct (block_loop (embedding_dim self) _ t r blocks (num_bases self)
                Hbs Hblocks Hshapes) as (w' & Hloop & Hshape & _);
      [by rewrite Hlbl|lia|].
    unfold get_relation_weights. rewrite Hdec. simpl.
    rewrite Hlt. simpl. rewrite !decide_False by lia.
    rewrite <- Hd at 1. rewrite range_step_blocks by done.
    rewrite enumerate_fmap_seq, Hloop. by intros [= <-].
Qed.

Lemma fold_left_vec_add_length d (l : list (vec R)) (a : vec R) :
  length a = d -> Forall (fun v => length v = d) l ->
  length (fold_left vec_add l a) = d.
Proof.
  revert a. induction l as [|v l IH]; intros a Ha Hl; cbn; [done|].
  apply Forall_cons in Hl as [Hv Hl]. apply IH; [|done].
  unfold vec_add. rewrite length_zip_with. lia.
Qed.

Lemma vec_mat_length d row w :
  mat_shape d d w -> length (vec_mat row w) = d.
Proof.
  intros Hw. unfold vec_mat. apply fold_left_vec_add_length.
  - by rewrite length_replicate, (mat_shape_ncols d).
  - destruct Hw as [_ Hrows]. clear -Hrows. revert row.
    induction Hrows as [|wr w Hwr Hrows IH]; intros [|a row]; cbn;
      try by constructor.
    constructor; [|apply IH]. unfold vec_scale. by rewrite length_fmap.
Qed.

Lemma matmul_rows d x w :
  mat_shape d d w -> Forall (fun row => length row = d) (matmul x w).
Proof.
  intros Hw. unfold matmul. apply Forall_fmap, Forall_forall.
  intros row _. by apply vec_mat_length.
Qed.

Lemma div_rows_rows d (m : mat R) (c : list R) :
  Forall (fun row => length row = d) m ->
  Forall (fun row => length row = d) (div_rows m c).
Proof.
  intros Hm. unfold div_rows. revert c.
  induction Hm as [|row m Hrow Hm IH]; intros [|a c]; cbn; try by constructor.
  constructor; [by rewrite length_fmap|apply IH].
Qed.

Lemma normalize_rows d norm (sources_r targets_r : list nat) (m m' : mat R) :
  normalize norm sources_r targets_r m = Some m' ->
  Forall (fun row => length row = d) m ->
  Forall (fun row => length row = d) m'.
Proof.
  unfold normalize. destruct norm as [s|]; [|by intros [= <-]].
  destruct (String.eqb s "nonsymmetric").
  { destruct (degrees targets_r); cbn [mbind option_bind]; [|done].
    intros [= <-] Hm. by apply div_rows_rows. }
  destruct (String.eqb s "symmetric"); [|done].
  destruct (degrees targets_r); cbn [mbind option_bind]; [|done].
  destruct (degrees sources_r); cbn [mbind option_bind]; [|done].
  intros [= <-] Hm. by do 2 apply div_rows_rows.
Qed.

Lemma index_add_rows d acc (idx : list nat) (src : mat R) acc' :
  index_add acc idx src = Some acc' ->
  Forall (fun row => length row = d) acc ->
  Forall (fun row => length row = d) src ->
  Forall (fun row => length row = d) acc'.
Proof.
  revert acc src. induction idx as [|i idx IH]; intros acc [|row src]; cbn;
    try done.
  - by intros [= <-].
  - destruct (acc !! i) as [old|] eqn:Hold; cbn; [|done].
    intros Hadd Hacc [Hrow Hsrc]%Forall_cons.
    apply (IH _ _ Hadd); [|done].
    apply Forall_insert; [done|].
    pose proof (Forall_lookup_1 _ _ _ _ Hacc Hold) as Ho. cbn in Ho.
    unfold vec_add. rewrite length_zip_with. lia.
Qed.

Lemma layer_rows self i (sources targets edge_types : list nat)
    (edge_mask keep : option (list bool)) x out :
  basis_params_ok self \/ block_params_ok self ->
  layer_shapes_ok self -> i < num_layers self ->
  Forall (fun row => length row = embedding_dim self) x ->
  layer self i sources targets edge_types edge_mask keep x = Some out ->
  Forall (fun row => length row = embedding_dim self) out.
Proof.
  intros Hparams [Hbias Hbn] Hi Hx. unfold layer.
  destruct (aggregate _ _ _ _ _ _ _) as [agg|] eqn:Hagg; cbn [mbind option_bind]; [|done].
  destruct (get_relation_weights self i (num_relations self))
    as [self_w|] eqn:Hw; cbn [mbind option_bind]; [|done].
  destruct (self_loop agg self_w keep) as [looped|] eqn:Hloop; cbn [mbind option_bind]; [|done].
  destruct (add_bias self i looped) as [biased|] eqn:Hb; cbn [mbind option_bind]; [|done].
  destruct (apply_batch_norm self i biased) as [normed|] eqn:Hn; cbn [mbind option_bind]; [|done].
  intros Hact.
  assert (Forall (fun row => length row = embedding_dim self) agg) as Hagg'.
  { revert Hagg. unfold aggregate.
    apply (foldlM_invariant
             (fun acc : mat R =>
                Forall (fun row => length row = embedding_dim self) acc)).
    - intros acc r acc' [_ Hr]%elem_of_seq Hacc. unfold relation_messages.
      destruct (relation_mask _ _ _) as [mask|];
        cbn [mbind option_bind]; [|done].
      destruct (negb (existsb id mask)); [by intros [= <-]|].
      destruct (mask_select sources mask) as [s|];
        cbn [mbind option_bind]; [|done].
      destruct (mask_select targets mask) as [t|];
        cbn [mbind option_bind]; [|done].
      destruct (index_select x (s ++ t)) as [x_s|];
        cbn [mbind option_bind]; [|done].
      destruct (get_relation_weights self i r) as [w|] eqn:Hwr;
        cbn [mbind option_bind]; [|done].
      destruct (normalize _ _ _ _) as [m|] eqn:Hm;
        cbn [mbind option_bind]; [|done].
      intros Hadd. apply (index_add_rows _ _ _ _ _ Hadd Hacc).
      apply (normalize_rows _ _ _ _ _ _ Hm). apply matmul_rows.
      apply (get_relation_weights_shape self i r); try done. cbn in Hr. lia.
    - unfold zeros_like. apply Forall_fmap.
      eapply Forall_impl; [exact Hx|]. intros row Hrow. cbn in Hrow |- *.
      by rewrite length_fmap. }
  pose proof (get_relation_weights_shape self i _ _ Hparams Hi
                (Nat.le_refl _) Hw) as Hsw.
  assert (Forall (fun row => length row = embedding_dim self) looped) as Hl.
  { revert Hloop. rewrite self_loop_rowwise. unfold self_loop_rows.
    destruct keep as [km|].
    - case_decide; [|done]. intros [= <-].
      clear -Hagg' Hsw. revert km.
      induction Hagg' as [|row agg Hrow Hagg IH]; intros [|[] km]; cbn;
        try by constructor.
      constructor; [|apply IH]. unfold vec_add.
      rewrite length_zip_with, (vec_mat_length _ _ _ Hsw). lia.
    - intros [= <-]. apply Forall_fmap.
      eapply Forall_impl; [exact Hagg'|]. intros row Hrow. cbn in Hrow |- *.
      unfold vec_add. rewrite length_zip_with, (vec_mat_length _ _ _ Hsw). lia. }
  assert (Forall (fun row => length row = embedding_dim self) biased) as Hbd.
  { revert Hb. unfold add_bias. destruct (use_bias self); [|by intros [= <-]].
    destruct (biases self !! i) as [bias|] eqn:Hbi;
      cbn [mbind option_bind]; [|done].
    intros [= <-]. apply Forall_fmap.
    pose proof (Forall_lookup_1 _ _ _ _ Hbias Hbi) as Hlb. cbn in Hlb.
    eapply Forall_impl; [exact Hl|]. intros row Hrow. cbn in Hrow |- *.
    unfold vec_add. rewrite length_zip_with. lia. }
  assert (Forall (fun row => length row = embedding_dim self) normed) as Hnd.
  { revert Hn. unfold apply_batch_norm.
    destruct (use_batch_norm self); [|by intros [= <-]].
    destruct (batch_norms self !! i) as [bn|] eqn:Hbni;
      cbn [mbind option_bind]; [|done].
    intros [= <-]. apply Forall_fmap.
    pose proof (Forall_lookup_1 _ _ _ _ Hbn Hbni) as Hlbn. cbn in Hlbn.
    eapply Forall_impl; [exact Hbd|]. intros row Hrow. cbn in Hrow |- *.
    by rewrite Hlbn. }
  revert Hact. unfold apply_activation.
  destruct (activations self) as [acts|]; [|by intros [= <-]].
  destruct (acts !! i) as [activation|]; cbn [mbind option_bind]; [|done].
  intros [= <-]. apply Forall_fmap.
  eapply Forall_impl; [exact Hnd|]. intros row Hrow. cbn in Hrow |- *.
  by rewrite length_fmap.
Qed.

(** X11. The enriched embeddings have the shape of the entity embeddings:
    on a well-formed model whose entity embeddings have shape
    [(num_entities, embedding_dim)], whose biases have length
    [embedding_dim] and whose batch normalisations keep the length of a row,
    the propagation returns, for every batch of entities and all draws, a
    tensor of shape [(num_entities, embedding_dim)]. *)
Theorem propagate_shape self batch (edge_rand node_rand : nat -> R) :
  model_ok self -> layer_shapes_ok self -> batch_ok self batch ->
  mat_shape (num_entities self) (embedding_dim self) (entity_embeddings self) ->
  exists x,
    propagate self batch edge_rand node_rand = Some x
    /\ mat_shape (num_entities self) (embedding_dim self) x.
Proof.
  intros Hok Hshapes Hbatch [Hx Hrows].
  pose proof Hok as (Hparams & _ & Hlt & Hle & Hs & Ht & _).
  destruct (drop_edges_ok self edge_rand Hlt Hle Hs Ht)
    as (s & t & e & Hdrop & Hlt' & Hle' & Hs' & Ht').
  assert (Hlayers : forall edge_mask,
            (forall em, edge_mask = Some em -> length em = length s) ->
            exists x,
              foldlM (fun x i => layer self i s t e edge_mask
                                   (node_mask self node_rand) x)
                     (seq 0 (num_layers self)) (entity_embeddings self) = Some x
              /\ mat_shape (num_entities self) (embedding_dim self) x).
  { intros edge_mask Hlem.
    apply (foldlM_is_Some
             (fun x : mat R =>
                mat_shape (num_entities self) (embedding_dim self) x));
      [|done].
    intros x i [_ Hi]%elem_of_seq [Hlx Hrx].
    destruct (layer_is_Some self i s t e edge_mask (node_mask self node_rand) x)
      as (out & Hout & Hlen); try done.
    { unfold node_mask. intros km.
      destruct (training self); [|done].
      destruct (self_loop_dropout self); [|done].
      intros [= <-]. apply keep_mask_length. }
    exists out. split; [done|]. split; [done|].
    by apply (layer_rows self i s t e edge_mask (node_mask self node_rand) x). }
  rewrite (propagate_after_dropout _ _ _ _ _ _ _ Hdrop).
  destruct batch as [b|].
  - destruct (get_neighborhood_is_Some
                (((fun hrt : triple => hrt.1.1) <$> b)
                 ++ ((fun hrt : triple => hrt.2) <$> b))
                s t (num_layers self) (num_entities self) true)
      as (em & Hem & Hlen); try done.
    { simpl in Hbatch. apply Forall_app.
      split; apply Forall_fmap; eapply Forall_impl; try exact Hbatch;
        by intros hrt [? ?]. }
    simpl. rewrite Hem. simpl. apply Hlayers. by intros ? [= <-].
  - simpl. by apply Hlayers.
Qed.

End Shape.

(** ** The scoring methods *)

Section Scoring.
Context {R : Type} `{Scalar R}.
Implicit Types (self : @RGCN R) (base : @base_model R) (x : mat R).

(** The scores of [score_hrt] on enriched embeddings [x]. *)
Lemma score_hrt_eq self base sparse hrt_batch (edge_rand node_rand : nat -> R) :
  score_hrt self base sparse hrt_batch edge_rand node_rand
  = let e := enrich_embeddings self
               (if sparse then Some hrt_batch else None) edge_rand node_rand in
    (x ← e.1;
     h ← index_select x ((fun hrt : triple => hrt.1.1) <$> hrt_batch);
     r ← index_select (relation_embeddings base)
           ((fun hrt : triple => hrt.1.2) <$> hrt_batch);
     t ← index_select x ((fun hrt : triple => hrt.2) <$> hrt_batch);
     Some ((fun '(h, r, t) => [interaction_function base h r t])
             <$> zip (zip h r) t),
     e.2).
Proof. unfold score_hrt. by destruct (enrich_embeddings _ _ _ _). Qed.

Lemma score_t_eq self base hr_batch (edge_rand node_rand : nat -> R) :
  score_t self base hr_batch edge_rand node_rand
  = let e := enrich_embeddings self None edge_rand node_rand in
    (x ← e.1;
     h ← index_select x (fst <$> hr_batch);
     r ← index_select (relation_embeddings base) (snd <$> hr_batch);
     Some (zip_with
             (fun h r => (fun t => interaction_function base h r t) <$> x) h r),
     e.2).
Proof. unfold score_t. by destruct (enrich_embeddings _ _ _ _). Qed.

Lemma score_h_eq self base rt_batch (edge_rand node_rand : nat -> R) :
  score_h self base rt_batch edge_rand node_rand
  = let e := enrich_embeddings self None edge_rand node_rand in
    (x ← e.1;
     r ← index_select (relation_embeddings base) (fst <$> rt_batch);
     t ← index_select x (snd <$> rt_batch);
     Some (zip_with
             (fun r t => (fun h => interaction_function base h r t) <$> x) r t),
     e.2).
Proof. unfold score_h. by destruct (enrich_embeddings _ _ _ _). Qed.

Lemma index_select_lookup {A} (l : list A) idx k b i :
  index_select l idx = Some k -> idx !! b = Some i -> k !! b = l !! i.
Proof.
  intros Hk%index_select_Some Hb.
  destruct (Forall2_lookup_l _ _ _ _ _ Hk Hb) as (y & Hy & Hl). congruence.
Qed.

(** The score of a single triple on enriched embeddings [x]. *)
Lemma score_one base x h r t :
  (h' ← index_select x ((fun hrt : triple => hrt.1.1) <$> [(h, r, t)]);
   r' ← index_select (relation_embeddings base)
          ((fun hrt : triple => hrt.1.2) <$> [(h, r, t)]);
   t' ← index_select x ((fun hrt : triple => hrt.2) <$> [(h, r, t)]);
   Some ((fun '(h, r, t) => [interaction_function base h r t])
           <$> zip (zip h' r') t'))
  = (xh ← x !! h; xr ← relation_embeddings base !! r; xt ← x !! t;
     Some [[interaction_function base xh xr xt]]).
Proof.
  unfold index_select. cbn.
  destruct (x !! h); cbn; [|done].
  destruct (relation_embeddings base !! r); cbn; [|done].
  by destruct (x !! t).
Qed.

(** X12. [score_t] agrees with [score_hrt]: when [score_t] returns, it
    returns one row per [(h, r)] pair of the batch, and entry [t] of the row
    of [(h, r)] is the score [score_hrt] gives the triple [(h, r, t)] on the
    whole graph ([sparse_messages_owa] off), for the same draws; where the
    row has no entry [t], [score_hrt] raises.  Both calls leave the model,
    and so the embedding cache, in the same state. *)
Theorem score_t_agrees_with_score_hrt self base hr_batch
    (edge_rand node_rand : nat -> R) scores :
  (score_t self base hr_batch edge_rand node_rand).1 = Some scores ->
  length scores = length hr_batch
  /\ forall b h r t,
       hr_batch !! b = Some (h, r) ->
       exists row,
         scores !! b = Some row
         /\ (score_hrt self base false [(h, r, t)] edge_rand node_rand).1
            = (fun s => [[s]]) <$> row !! t
         /\ (score_hrt self base false [(h, r, t)] edge_rand node_rand).2
            = (score_t self base hr_batch edge_rand node_rand).2.
Proof.
  rewrite score_t_eq. cbv zeta. cbn [fst snd].
  destruct ((enrich_embeddings self None edge_rand node_rand).1)
    as [x|] eqn:Hx; cbn [mbind option_bind]; [|done].
  destruct (index_select x (fst <$> hr_batch)) as [hs|] eqn:Hh; cbn [mbind option_bind]; [|done].
  destruct (index_select (relation_embeddings base) (snd <$> hr_batch))
    as [rs|] eqn:Hr; cbn [mbind option_bind]; [|done].
  intros [= <-].
  pose proof (index_select_length _ _ _ Hh) as Hlh.
  pose proof (index_select_length _ _ _ Hr) as Hlr.
  rewrite length_fmap in Hlh, Hlr. split.
  { rewrite length_zip_with. lia. }
  intros b h r t Hb.
  assert (hs !! b = x !! h) as Hhb.
  { apply (index_select_lookup _ _ _ _ _ Hh). by rewrite list_lookup_fmap, Hb. }
  assert (rs !! b = relation_embeddings base !! r) as Hrb.
  { apply (index_select_lookup _ _ _ _ _ Hr). by rewrite list_lookup_fmap, Hb. }
  destruct (lookup_lt_is_Some_2 hs b) as [xh Hxh].
  { apply lookup_lt_Some in Hb. lia. }
  destruct (lookup_lt_is_Some_2 rs b) as [xr Hxr].
  { apply lookup_lt_Some in Hb. lia. }
  eexists. split.
  { rewrite lookup_zip_with, Hxh. cbn. rewrite Hxr. done. }
  rewrite score_hrt_eq. cbv zeta. cbn [fst snd]. rewrite Hx.
  cbn [mbind option_bind]. split; [|done].
  rewrite score_one, <-Hhb, <-Hrb, Hxh, Hxr. cbn.
  rewrite list_lookup_fmap. by destruct (x !! t).
Qed.

(** X13. [score_h] agrees with [score_hrt] in the same way: entry [h] of
    the row of the pair [(r, t)] is the score of the triple [(h, r, t)] on
    the whole graph. *)
Theorem score_h_agrees_with_score_hrt self base rt_batch
    (edge_rand node_rand : nat -> R) scores :
  (score_h self base rt_batch edge_rand node_rand).1 = Some scores ->
  length scores = length rt_batch
  /\ forall b h r t,
       rt_batch !! b = Some (r, t) ->
       exists row,
         scores !! b = Some row
         /\ (score_hrt self base false [(h, r, t)] edge_rand node_rand).1
            = (fun s => [[s]]) <$> row !! h
         /\ (score_hrt self base false [(h, r, t)] edge_rand node_rand).2
            = (score_h self base rt_batch edge_rand node_rand).2.
Proof.
  rewrite score_h_eq. cbv zeta. cbn [fst snd].
  destruct ((enrich_embeddings self None edge_rand node_rand).1)
    as [x|] eqn:Hx; cbn [mbind option_bind]; [|done].
  destruct (index_select (relation_embeddings base) (fst <$> rt_batch))
    as [rs|] eqn:Hr; cbn [mbind option_bind]; [|done].
  destruct (index_select x (snd <$> rt_batch)) as [ts|] eqn:Ht; cbn [mbind option_bind]; [|done].
  intros [= <-].
  pose proof (index_select_length _ _ _ Ht) as Hlt.
  pose proof (index_select_length _ _ _ Hr) as Hlr.
  rewrite length_fmap in Hlt, Hlr. split.
  { rewrite length_zip_with. lia. }
  intros b h r t Hb.
  assert (ts !! b = x !! t) as Htb.
  { apply (index_select_lookup _ _ _ _ _ Ht). by rewrite list_lookup_fmap, Hb. }
  assert (rs !! b = relation_embeddings base !! r) as Hrb.
  { apply (index_select_lookup _ _ _ _ _ Hr). by rewrite list_lookup_fmap, Hb. }
  destruct (lookup_lt_is_Some_2 ts b) as [xt Hxt].
  { apply lookup_lt_Some in Hb. lia. }
  destruct (lookup_lt_is_Some_2 rs b) as [xr Hxr].
  { apply lookup_lt_Some in Hb. lia. }
  eexists. split.
  { rewrite lookup_zip_with, Hxr. cbn. rewrite Hxt. done. }
  rewrite score_hrt_eq. cbv zeta. cbn [fst snd]. rewrite Hx.
  cbn [mbind option_bind]. split; [|done].
  rewrite score_one, <-Htb, <-Hrb, Hxt, Hxr. cbn.
  rewrite list_lookup_fmap. by destruct (x !! h).
Qed.

Lemma index_select_is_Some_iff {A} (l : list A) idx :
  is_Some (index_select l idx) <-> Forall (fun i => i < length l) idx.
Proof.
  split; [|apply index_select_is_Some].
  intros [k Hk%index_select_Some]. apply Forall_forall. intros i Hi.
  apply list_elem_of_lookup in Hi as [j Hj].
  destruct (Forall2_lookup_l _ _ _ _ _ Hk Hj) as (y & _ & Hy).
  by apply lookup_lt_Some in Hy.
Qed.

(** X14. On enriched embeddings [x], [score_hrt] returns exactly when every
    head and tail of the batch is a row of [x] and every relation a row of
    the relation embeddings (else the lookup raises); it then returns one
    row of one score per triple of the batch.  With [sparse_messages_owa]
    on it passes its batch to the enrichment and so never changes the
    model: it neither reads nor writes the embedding cache. *)
Theorem score_hrt_returns_iff self base (sparse : bool)
    (hrt_batch : list triple) (edge_rand node_rand : nat -> R) x :
  (enrich_embeddings self (if sparse then Some hrt_batch else None)
     edge_rand node_rand).1 = Some x ->
  (is_Some (score_hrt self base sparse hrt_batch edge_rand node_rand).1 <->
     Forall (fun hrt : triple =>
               hrt.1.1 < length x
               /\ hrt.1.2 < length (relation_embeddings base)
               /\ hrt.2 < length x) hrt_batch)
  /\ (forall scores,
        (score_hrt self base sparse hrt_batch edge_rand node_rand).1
        = Some scores ->
        length scores = length hrt_batch
        /\ Forall (fun row => length row = 1) scores)
  /\ (sparse = true ->
      (score_hrt self base sparse hrt_batch edge_rand node_rand).2 = self
      /\ (score_hrt self base sparse hrt_batch edge_rand node_rand).1
         = (score_hrt (set_enriched_embeddings self None) base sparse
              hrt_batch edge_rand node_rand).1).
Proof.
  intros Hx. rewrite !score_hrt_eq. cbv zeta. cbn [fst snd]. rewrite Hx.
  cbn [mbind option_bind].
  pose proof (index_select_is_Some_iff x
                ((fun hrt : triple => hrt.1.1) <$> hrt_batch)) as Hh.
  pose proof (index_select_is_Some_iff (relation_embeddings base)
                ((fun hrt : triple => hrt.1.2) <$> hrt_batch)) as Hr.
  pose proof (index_select_is_Some_iff x
                ((fun hrt : triple => hrt.2) <$> hrt_batch)) as Ht.
  rewrite Forall_fmap in Hh, Hr, Ht.
  split; [|split].
  - split.
    + intros Hs. apply Forall_and. split; [|apply Forall_and; split].
      * apply Hh. destruct (index_select x _); [done|].
        by destruct Hs.
      * apply Hr. destruct (index_select x _); [|by destruct Hs].
        cbn [mbind option_bind] in Hs.
        destruct (index_select (relation_embeddings base) _); [done|].
        by destruct Hs.
      * apply Ht. destruct (index_select x ((fun hrt : triple => hrt.1.1) <$> _));
          [|by destruct Hs].
        cbn [mbind option_bind] in Hs.
        destruct (index_select (relation_embeddings base) _);
          [|by destruct Hs].
        cbn [mbind option_bind] in Hs.
        destruct (index_select x _); [done|]. by destruct Hs.
    + intros (Hh' & (Hr' & Ht')%Forall_and)%Forall_and.
      destruct (proj2 Hh Hh') as [hs ->].
      destruct (proj2 Hr Hr') as [rs ->].
      destruct (proj2 Ht Ht') as [ts ->]. done.
  - intros scores.
    destruct (index_select x ((fun hrt : triple => hrt.1.1) <$> _))
      as [hs|] eqn:Hhs; cbn [mbind option_bind]; [|done].
    destruct (index_select (relation_embeddings base) _)
      as [rs|] eqn:Hrs; cbn [mbind option_bind]; [|done].
    destruct (index_select x ((fun hrt : triple => hrt.2) <$> _))
      as [ts|] eqn:Hts; cbn [mbind option_bind]; [|done].
    intros [= <-].
    apply index_select_length in Hhs, Hrs, Hts.
    rewrite length_fmap in Hhs, Hrs, Hts. split.
    + rewrite length_fmap, !length_zip. lia.
    + apply Forall_fmap, Forall_forall. by intros [[h r] t] _.
  - intros ->. split.
    + destruct (enrich_model self (Some hrt_batch) edge_rand node_rand)
        as [Hm|(_ & _ & ? & _)]; done.
    + assert ((enrich_embeddings (set_enriched_embeddings self None)
                 (Some hrt_batch) edge_rand node_rand).1 = Some x) as ->;
        [|done].
      by rewrite enrich_result in *.
Qed.

End Scoring.

(** ** Reversing the edges *)

Section Reversal.
Context {R : Type} `{Scalar R} `{!ScalarAddComm R}.
Implicit Types (self : @RGCN R) (x acc : mat R) (row : vec R) (src : mat R).
Implicit Types (idx : list nat).

Lemma vec_add_right_comm (a b c : vec R) :
  vec_add (vec_add a b) c = vec_add (vec_add a c) b.
Proof.
  unfold vec_add. revert b c.
  induction a as [|u a IH]; intros [|v b] [|w c]; cbn; try done.
  f_equal; [apply Radd_right_comm|apply IH].
Qed.

Lemma index_add_cons acc i idx row src :
  index_add acc (i :: idx) (row :: src)
  = index_add acc [i] [row] ≫= fun a => index_add a idx src.
Proof. cbn. by destruct (acc !! i). Qed.

(** Two single additions commute. *)
Lemma index_add_one_comm acc i j row row' :
  index_add acc [i] [row] ≫= (fun a => index_add a [j] [row'])
  = index_add acc [j] [row'] ≫= (fun a => index_add a [i] [row]).
Proof.
  cbn. destruct (decide (i = j)) as [->|Hne].
  - destruct (acc !! j) as [old|] eqn:Ho; cbn; [|done].
    pose proof (lookup_lt_Some _ _ _ Ho) as Hlt.
    rewrite !list_lookup_insert_eq by done. cbn.
    rewrite !list_insert_insert_eq. do 2 f_equal. apply vec_add_right_comm.
  - destruct (acc !! i) as [oi|] eqn:Hi, (acc !! j) as [oj|] eqn:Hj; cbn;
      rewrite ?list_lookup_insert_ne by done; rewrite ?Hi, ?Hj; cbn; try done.
    f_equal. by apply list_insert_insert_ne.
Qed.

Lemma index_add_one_comm_many acc i row idx src :
  index_add acc [i] [row] ≫= (fun a => index_add a idx src)
  = index_add acc idx src ≫= (fun a => index_add a [i] [row]).
Proof.
  revert acc src. induction idx as [|j idx IH]; intros acc [|row' src].
  - cbn. by destruct (acc !! i).
  - cbn. by destruct (acc !! i).
  - cbn. by destruct (acc !! i).
  - rewrite (index_add_cons acc j).
    rewrite !option_bind_assoc.
    transitivity
      ((index_add acc [i] [row] ≫= (fun a : mat R => index_add a [j] [row']))
       ≫= (fun a : mat R => index_add a idx src)).
    { rewrite option_bind_assoc. apply option_bind_ext_fun. intros a. cbn.
      apply index_add_cons. }
    rewrite index_add_one_comm, option_bind_assoc.
    apply option_bind_ext_fun. intros a. cbn. apply IH.
Qed.

(** Two batches of additions commute. *)
Lemma index_add_comm acc idx1 src1 idx2 src2 :
  index_add acc idx1 src1 ≫= (fun a => index_add a idx2 src2)
  = index_add acc idx2 src2 ≫= (fun a => index_add a idx1 src1).
Proof.
  revert acc src1. induction idx1 as [|i idx1 IH]; intros acc [|row src1].
  - cbn. by destruct (index_add acc idx2 src2).
  - cbn. by destruct (index_add acc idx2 src2).
  - cbn. by destruct (index_add acc idx2 src2).
  - rewrite index_add_cons, option_bind_assoc.
    transitivity
      ((index_add acc [i] [row] ≫= (fun a : mat R => index_add a idx2 src2))
       ≫= (fun a : mat R => index_add a idx1 src1)).
    { rewrite option_bind_assoc. apply option_bind_ext_fun. intros a. cbn.
      apply IH. }
    rewrite index_add_one_comm_many, option_bind_assoc.
    apply option_bind_ext_fun. intros a. cbn. symmetry. apply index_add_cons.
Qed.

Lemma index_add_app acc idx1 src1 idx2 src2 :
  length idx1 = length src1 ->
  index_add acc (idx1 ++ idx2) (src1 ++ src2)
  = index_add acc idx1 src1 ≫= fun a => index_add a idx2 src2.
Proof.
  revert acc src1. induction idx1 as [|i idx1 IH]; intros acc [|row src1];
    cbn; try done.
  intros [= Hl]. destruct (acc !! i); cbn; [|done]. by apply IH.
Qed.

Lemma index_add_swap acc idx1 src1 idx2 src2 :
  length idx1 = length src1 -> length idx2 = length src2 ->
  index_add acc (idx1 ++ idx2) (src1 ++ src2)
  = index_add acc (idx2 ++ idx1) (src2 ++ src1).
Proof.
  intros H1 H2. rewrite !index_add_app by done. apply index_add_comm.
Qed.

Lemma index_select_app {A} (l : list A) idx1 idx2 :
  index_select l (idx1 ++ idx2)
  = k1 ← index_select l idx1; k2 ← index_select l idx2; Some (k1 ++ k2).
Proof.
  unfold index_select. induction idx1 as [|i idx1 IH]; cbn.
  - by destruct (mapM _ idx2).
  - destruct (l !! i); cbn; [|done]. rewrite IH.
    destruct (mapM _ idx1); cbn; [|done]. by destruct (mapM _ idx2).
Qed.

Lemma occurrences_app v (l k : list nat) :
  occurrences v (l ++ k) = occurrences v l + occurrences v k.
Proof.
  induction l as [|y l IH]; cbn; [done|]. destruct (v =? y); lia.
Qed.

Lemma degrees_app_comm (l k : list nat) :
  degrees (l ++ k)
  = Some (((fun v => occurrences v (k ++ l)) <$> l)
          ++ ((fun v => occurrences v (k ++ l)) <$> k)).
Proof.
  rewrite degrees_occurrences, fmap_app. do 2 f_equal.
  all: apply list_fmap_ext; intros _ v _; rewrite !occurrences_app; lia.
Qed.

Lemma div_rows_app (m1 m2 : mat R) (c1 c2 : list R) :
  length m1 = length c1 ->
  div_rows (m1 ++ m2) (c1 ++ c2) = div_rows m1 c1 ++ div_rows m2 c2.
Proof. apply zip_with_app. Qed.

(** The normalised messages of a relation: those of its edges read
    forwards next to those of its edges read backwards, whichever column is
    called the sources. *)
Lemma normalize_swap norm (a b : list nat) (ma mb : mat R) :
  length a = length b -> length ma = length a -> length mb = length b ->
  match normalize norm (a ++ b) (b ++ a) (ma ++ mb),
        normalize norm (b ++ a) (a ++ b) (mb ++ ma) with
  | Some m1, Some m2 =>
      exists na nb, m1 = na ++ nb /\ m2 = nb ++ na
                    /\ length na = length a /\ length nb = length b
  | None, None => True
  | _, _ => False
  end.
Proof.
  intros Hab Ha Hb. unfold normalize. destruct norm as [s|].
  - destruct (String.eqb s "nonsymmetric").
    + rewrite (degrees_app_comm b a), (degrees_occurrences (a ++ b)).
      cbn [mbind option_bind].
      rewrite !fmap_app, !div_rows_app by (rewrite !length_fmap; lia).
      eexists _, _. split; [done|]. split; [done|].
      unfold div_rows. rewrite !length_zip_with, !length_fmap. lia.
    + destruct (String.eqb s "symmetric"); [|done].
      rewrite (degrees_app_comm b a), (degrees_occurrences (a ++ b)).
      cbn [mbind option_bind]. rewrite !fmap_app.
      rewrite !div_rows_app
        by (unfold div_rows; rewrite ?length_zip_with, !length_fmap; lia).
      eexists _, _. split; [done|]. split; [done|].
      unfold div_rows. rewrite !length_zip_with, !length_fmap. lia.
  - exists ma, mb. done.
Qed.

(** The messages of one relation do not depend on which column is called
    the sources. *)
Lemma relation_messages_swap self i r x (s t e : list nat)
    (em : option (list bool)) acc :
  relation_messages self i r x t s e em acc
  = relation_messages self i r x s t e em acc.
Proof.
  unfold relation_messages.
  destruct (relation_mask e em r) as [mask|]; cbn [mbind option_bind]; [|done].
  destruct (negb (existsb id mask)); [done|].
  unfold mask_select.
  destruct (decide (length mask = length t)) as [Ht|Ht],
           (decide (length mask = length s)) as [Hs|Hs];
    cbn [mbind option_bind]; try done.
  assert (length (masked s mask) = length (masked t mask)) as Hab.
  { apply masked_same_length. congruence. }
  set (a := masked s mask) in *. set (b := masked t mask) in *.
  rewrite !index_select_app.
  destruct (index_select x a) as [xa|] eqn:Hxa,
           (index_select x b) as [xb|] eqn:Hxb;
    cbn [mbind option_bind]; try done.
  destruct (get_relation_weights self i r) as [w|];
    cbn [mbind option_bind]; [|done].
  apply index_select_length in Hxa, Hxb.
  unfold matmul. rewrite !fmap_app.
  pose proof (normalize_swap (message_normalization self) a b
                ((fun row => vec_mat row w) <$> xa)
                ((fun row => vec_mat row w) <$> xb)) as Hn.
  rewrite !length_fmap in Hn. specialize (Hn Hab Hxa Hxb).
  destruct (normalize _ (a ++ b) _ _) as [m1|],
           (normalize _ (b ++ a) _ _) as [m2|];
    cbn [mbind option_bind]; try done.
  destruct Hn as (na & nb & -> & -> & Hna & Hnb).
  apply index_add_swap; lia.
Qed.

Lemma aggregate_swap self i x (s t e : list nat) (em : option (list bool)) :
  aggregate self i x t s e em = aggregate self i x s t e em.
Proof.
  unfold aggregate. apply foldlM_ext. intros acc r _.
  apply relation_messages_swap.
Qed.

Lemma layer_swap self i (s t e : list nat) (em keep : option (list bool)) x :
  layer self i t s e em keep x = layer self i s t e em keep x.
Proof. unfold layer. by rewrite aggregate_swap. Qed.

Lemma drop_edges_reverse self (edge_rand : nat -> R) :
  drop_edges (reverse_edges self) edge_rand
  = (fun '(s, t, e) => (t, s, e)) <$> drop_edges self edge_rand.
Proof.
  unfold drop_edges. cbn [training edge_dropout sources targets edge_types
                          reverse_edges].
  destruct (training self); [|reflexivity].
  destruct (edge_dropout self) as [rate|]; [|reflexivity].
  unfold mask_select. rewrite !keep_mask_length.
  destruct (decide (length (targets self) = length (sources self))) as [Hl|Hl].
  - rewrite Hl.
    destruct (decide (length (sources self) = length (sources self)));
      [|done].
    cbn [mbind option_bind].
    destruct (decide (length (sources self) = length (edge_types self)));
      reflexivity.
  - destruct (decide (length (targets self) = length (targets self)));
      [|done].
    destruct (decide (length (sources self) = length (sources self)));
      [|done].
    cbn [mbind option_bind].
    destruct (decide (length (targets self) = length (sources self)));
      [done|].
    destruct (decide (length (sources self) = length (targets self)));
      [done|].
    reflexivity.
Qed.

(** X15. Edges are treated as undirected: on the graph with every edge
    reversed (the columns of sources and targets exchanged) the propagation
    over the whole graph returns what it returns on the graph itself, for
    all parameters and the same draws, and raises when that raises.  This
    needs sums of entries not to depend on their order (exact arithmetic;
    floating-point sums can differ in rounding). *)
Theorem propagate_reverse_edges self (edge_rand node_rand : nat -> R) :
  propagate (reverse_edges self) None edge_rand node_rand
  = propagate self None edge_rand node_rand
  /\ (enrich_embeddings (reverse_edges self) None edge_rand node_rand).1
     = (enrich_embeddings self None edge_rand node_rand).1.
Proof.
  assert (propagate (reverse_edges self) None edge_rand node_rand
          = propagate self None edge_rand node_rand) as Hp.
  { unfold propagate. rewrite drop_edges_reverse.
    destruct (drop_edges self edge_rand) as [[[s t] e]|];
      cbn [fmap option_fmap option_map mbind option_bind]; [|done].
    apply foldlM_ext. intros x i _.
    etransitivity; [|apply layer_swap]. reflexivity. }
  split; [exact Hp|]. rewrite !enrich_result, Hp. done.
Qed.

End Reversal.

(** ** The pipeline *)

Section PipelineFacts.
Import Pipeline.
Context {Value Instances Multimodal Factory ModelConfig Model TrainingLoop
         Losses Error : Type}.
Context `{EqDecision Value}.
#[local] Abbreviation world :=
  (world Value Instances Multimodal Factory ModelConfig Model TrainingLoop
     Losses Error).
#[local] Abbreviation Pipeline := (Pipeline Value Instances Factory ModelConfig).
Implicit Types (w : world) (self p : Pipeline) (o : pyobj Instances).

(** [preprocess] changes nothing but the instance factory. *)
Lemma preprocess_frame w self :
  config (preprocess w self).2 = config self
  /\ training_instances (preprocess w self).2 = training_instances self
  /\ test_instances (preprocess w self).2 = test_instances self
  /\ has_preprocessed_instances (preprocess w self).2
     = has_preprocessed_instances self
  /\ model_config (preprocess w self).2 = model_config self.
Proof.
  unfold preprocess, proprcess_train_and_test_triples,
    preprocess_train_triples.
  destruct (has_preprocessed_instances self) eqn:Hp; [done|].
  destruct (is_evaluation_requested w self);
    destruct (get_factory w (config self)) as [e|f]; try done.
  - by destruct (create_train_and_test_instances w f) as [e|[train test]].
  - by destruct (create_instances w f) as [e|i].
Qed.

(** [train] changes nothing but the model configuration. *)
Lemma train_frame w self :
  config (train w self).2 = config self
  /\ training_instances (train w self).2 = training_instances self
  /\ test_instances (train w self).2 = test_instances self
  /\ has_preprocessed_instances (train w self).2
     = has_preprocessed_instances self
  /\ instance_factory (train w self).2 = instance_factory self.
Proof.
  unfold train.
  destruct (create_model_config w self) as [c|e]; [|done].
  destruct (call (get_kge_model w c)) as [m|e]; [|done].
  by destruct (get_training_loop w c m _).
Qed.

(** What [run] does after its two checks of the execution mode. *)
Lemma run_valid_mode w self mode :
  config self !! EXECUTION_MODE w = Some mode ->
  mode = TRAINING_MODE w \/ mode = HPO_MODE w ->
  run w self
  = let '(prepared, self) :=
      if negb (has_preprocessed_instances self) then
        match preprocess w self with
        | (Return o, self) => (Return tt, set_training_instances self o)
        | (Raise e, self) => (Raise e, self)
        end
      else (Return tt, self) in
    match prepared with
    | Raise e => (Raise e, self)
    | Return _ =>
        if decide (mode = TRAINING_MODE w) then
          match train w self with
          | (Raise e, self) => (Raise e, self)
          | (Return _, self) =>
              match call (basic_utils_is_evaluation_requested w (config self))
              with
              | Raise e => (Raise e, self)
              | Return _ => (Return tt, self)
              end
          end
        else (Return tt, self)
    end.
Proof.
  intros Hm Hmode. unfold run. rewrite Hm.
  assert (bool_decide (mode <> TRAINING_MODE w)
          && bool_decide (mode <> HPO_MODE w) = false) as ->.
  { apply andb_false_iff. destruct Hmode as [->| ->].
    - left. by apply bool_decide_eq_false_2; intros ?.
    - right. by apply bool_decide_eq_false_2; intros ?. }
  destruct (if negb (has_preprocessed_instances self) then _ else _)
    as [[[]|e] self']; [|done].
  destruct (decide (mode = TRAINING_MODE w)); [done|].
  destruct Hmode as [?|Hh]; [done|]. by rewrite decide_True.
Qed.

(** X16. The constructor sets [has_preprocessed_instances] to
    [training_instances is True], which is false for [None] and for every
    instances object.  So instances handed to the constructor are never
    used: [preprocess] does not raise its warning, every [run] with a valid
    execution mode first creates instances from the configuration, and if
    that returns, the attribute [training_instances] holds the new ones (the
    pair of training and test instances when an evaluation is requested)
    when [run] ends; if it raises, so does [run]. *)
Theorem run_replaces_supplied_instances w cfg ti tei p mode :
  init w cfg ti tei = Return p ->
  is_True ti = false ->
  cfg !! EXECUTION_MODE w = Some mode ->
  mode = TRAINING_MODE w \/ mode = HPO_MODE w ->
  has_preprocessed_instances p = false
  /\ training_instances p = ti
  /\ match preprocess w p with
     | (Raise e, p') => e <> Warning /\ run w p = (Raise e, p')
     | (Return o, p') =>
         training_instances (run w p).2 = o
         /\ (is_evaluation_requested w p = true ->
             exists train test, o = PyTuple train test)
         /\ (is_evaluation_requested w p = false ->
             exists i, o = PyInstances i)
     end.
Proof.
  intros Hinit Hti Hm Hmode.
  assert (p = {| config := cfg; model_config := None;
                 instance_factory := None; training_instances := ti;
                 test_instances := tei;
                 has_preprocessed_instances := is_True ti |}) as ->.
  { revert Hinit. unfold init. destruct (cfg !! SEED w) as [seed|]; [|done].
    destruct (torch_manual_seed w seed); [done|].
    destruct (np_random_seed w seed); [done|]. by intros [= <-]. }
  rewrite Hti. split; [done|]. split; [done|].
  set (p := {| config := cfg; model_config := None;
               instance_factory := None; training_instances := ti;
               test_instances := tei;
               has_preprocessed_instances := false |}).
  rewrite (run_valid_mode w p mode Hm Hmode).
  change (has_preprocessed_instances p) with false. cbn [negb].
  destruct (preprocess w p) as [[o|e] p'] eqn:Hpre.
  - split.
    { destruct (decide (mode = TRAINING_MODE w)); [|done].
      destruct (train_frame w (set_training_instances p' o))
        as (_ & Ht & _).
      destruct (train w (set_training_instances p' o)) as [[r|e1] p2]; [|done].
      cbn [snd] in Ht.
      by destruct (call (basic_utils_is_evaluation_requested w (config p2))). }
    revert Hpre. unfold preprocess. change (has_preprocessed_instances p) with false.
    unfold proprcess_train_and_test_triples, preprocess_train_triples.
    destruct (is_evaluation_requested w p);
      destruct (get_factory w (config p)) as [e1|f]; try done.
    + destruct (create_train_and_test_instances w f) as [e1|[train test]];
        [done|].
      intros [= <- <-]. split; [eauto|done].
    + destruct (create_instances w f) as [e1|i]; [done|].
      intros [= <- <-]. split; [done|eauto].
  - split; [|done].
    revert Hpre. unfold preprocess. change (has_preprocessed_instances p) with false.
    unfold proprcess_train_and_test_triples, preprocess_train_triples.
    destruct (is_evaluation_requested w p);
      destruct (get_factory w (config p)) as [e'|f]; try by intros [= <- <-].
    + by destruct (create_train_and_test_instances w f) as [e'|[train test]];
        intros [= <- <-].
    + by destruct (create_instances w f) as [e'|i]; intros [= <- <-].
Qed.

(** X17. [run] checks the execution mode before it does anything: a
    configuration without the key raises [KeyError], a mode that is neither
    the training nor the optimisation mode raises [ValueError], and the
    object is as before.  No [run] changes the configuration, the attribute
    [test_instances] (also when an evaluation is requested and test
    instances were created) or [has_preprocessed_instances]: a pipeline
    that created its instances creates them again in the next [run]. *)
Theorem run_frame w self :
  (config self !! EXECUTION_MODE w = None -> run w self = (Raise KeyError, self))
  /\ (forall mode, config self !! EXECUTION_MODE w = Some mode ->
        mode <> TRAINING_MODE w -> mode <> HPO_MODE w ->
        run w self = (Raise ValueError, self))
  /\ config (run w self).2 = config self
  /\ test_instances (run w self).2 = test_instances self
  /\ has_preprocessed_instances (run w self).2
     = has_preprocessed_instances self.
Proof.
  split; [|split].
  - intros Hm. unfold run. by rewrite Hm.
  - intros mode Hm Ht Hh. unfold run. rewrite Hm.
    by rewrite !bool_decide_eq_true_2.
  - unfold run. destruct (config self !! EXECUTION_MODE w) as [mode|]; [|done].
    destruct (_ && _); [done|].
    assert (forall q : outcome (Error := Error) unit * Pipeline,
              config q.2 = config self ->
              test_instances q.2 = test_instances self ->
              has_preprocessed_instances q.2 = has_preprocessed_instances self ->
              let r := match q.1 with
                       | Raise e => (Raise e, q.2)
                       | Return _ =>
                           if decide (mode = TRAINING_MODE w) then
                             match train w q.2 with
                             | (Raise e, self) => (Raise e, self)
                             | (Return _, self) =>
                                 match call (basic_utils_is_evaluation_requested
                                               w (config self)) with
                                 | Raise e => (Raise e, self)
                                 | Return _ => (Return tt, self)
                                 end
                             end
                           else if decide (mode = HPO_MODE w)
                                then perform_hpo q.2
                                else (Return tt, q.2)
                       end in
              config r.2 = config self
              /\ test_instances r.2 = test_instances self
              /\ has_preprocessed_instances r.2
                 = has_preprocessed_instances self) as Hrest.
    { intros [[[]|e] q] Hc Ht Hp; cbn [fst snd] in *; [|done].
      destruct (decide (mode = TRAINING_MODE w)).
      - destruct (train_frame w q) as (Hc' & _ & Ht' & Hp' & _).
        destruct (train w q) as [[r|e1] q']; cbn [snd] in *;
          [|by rewrite Hc', Ht', Hp'].
        destruct (call _); cbn [snd]; by rewrite Hc', Ht', Hp'.
      - by destruct (decide (mode = HPO_MODE w)). }
    destruct (preprocess_frame w self) as (Hc & _ & Ht & Hp & _).
    destruct (has_preprocessed_instances self) eqn:Hhas; cbn [negb].
    + specialize (Hrest (Return tt, self)). cbn [fst snd] in Hrest.
      rewrite Hhas in Hrest. by apply Hrest.
    + destruct (preprocess w self) as [[o|e] p'] eqn:Hpre; cbn [snd] in *.
      * specialize (Hrest (Return tt, set_training_instances p' o)).
        cbn [fst snd] in Hrest. by apply Hrest.
      * specialize (Hrest (Raise e, p')). cbn [fst snd] in Hrest.
        by apply Hrest.
Qed.

(** X18. The table of training loops has [None] for the closed world
    assumption: for a model whose assumption is not the open world one,
    [get_training_loop] raises ([TypeError] if it is the closed world one,
    else [KeyError]).  So [train] returns only for open world models, and a
    [run] in training mode that returns has built an open world model. *)
Theorem train_needs_open_world w self :
  (forall c m o, kg_assumption w m <> OWA w ->
     get_training_loop w c m o
     = Raise (if decide (kg_assumption w m = CWA w)
              then TypeError else KeyError))
  /\ (forall r self', train w self = (Return r, self') ->
        exists c m,
          model_config self' = Some c
          /\ get_kge_model w c = inr m
          /\ kg_assumption w m = OWA w)
  /\ (forall self', config self !! EXECUTION_MODE w = Some (TRAINING_MODE w) ->
        run w self = (Return tt, self') ->
        exists c m,
          model_config self' = Some c
          /\ get_kge_model w c = inr m
          /\ kg_assumption w m = OWA w).
Proof.
  assert (forall p r p', train w p = (Return r, p') ->
            exists c m,
              model_config p' = Some c
              /\ get_kge_model w c = inr m
              /\ kg_assumption w m = OWA w) as Htrain.
  { intros p r p'. unfold train.
    destruct (create_model_config w p) as [c|e]; [|done].
    destruct (get_kge_model w c) as [e|m] eqn:Hk; cbn [call]; [done|].
    unfold get_training_loop.
    destruct (decide (kg_assumption w m = OWA w)) as [Ho|Ho];
      [|by destruct (decide _)].
    destruct (call (OWATrainingLoop w c m _)) as [l|e]; [|done].
    intros [= _ <-]. by exists c, m. }
  split; [|split].
  - intros c m o Ho. unfold get_training_loop.
    rewrite decide_False by done. by destruct (decide _).
  - intros r self'. apply Htrain.
  - intros self' Hm. rewrite (run_valid_mode w self _ Hm) by auto.
    destruct (if negb (has_preprocessed_instances self) then _ else _)
      as [[[]|e] p]; [|done].
    rewrite decide_True by done.
    destruct (train w p) as [[r|e] p'] eqn:Ht; [|done].
    destruct (call _); [|done]. intros [= <-]. by eapply Htrain.
Qed.

End PipelineFacts.

(** ** The results on the example models *)

Section Witnesses.
Import Examples.

Lemma basis_model_ok : basis_params_ok basis_model.
Proof. repeat split; repeat constructor. Qed.

Lemma block_model_ok : block_params_ok block_model.
Proof. repeat split; simpl; try lia; repeat constructor. Qed.

(** C1 on [basis_model], layer 0, relation 1. *)
Lemma basis_weights_weighted_sum_witness :
  basis_params_ok basis_model
  /\ 0 < num_layers basis_model
  /\ 1 <= num_relations basis_model
  /\ exists a att_r b w,
       att basis_model !! 0 = Some a /\ a !! 1 = Some att_r
       /\ bases basis_model !! 0 = Some (BasisTensor b)
       /\ get_relation_weights basis_model 0 1 = Some w
       /\ mat_shape (embedding_dim basis_model) (embedding_dim basis_model) w
       /\ (forall j k, j < embedding_dim basis_model ->
             k < embedding_dim basis_model ->
             entry w j k = Some (weighted_sum att_r b j k))
       /\ (forall r' row', r' <> 1 ->
             get_relation_weights
               (set_att basis_model (<[0 := <[r' := row']> a]> (att basis_model)))
               0 1
             = Some w).
Proof.
  split; [exact basis_model_ok|]. split; [simpl; lia|]. split; [simpl; lia|].
  apply (basis_weights_weighted_sum basis_model 0 1 basis_model_ok);
    simpl; lia.
Defined.

(** C2 on [block_model], layer 0, the self-loop relation. *)
Lemma block_weights_block_diagonal_witness :
  block_params_ok block_model
  /\ 0 < num_layers block_model
  /\ 1 <= num_relations block_model
  /\ exists t blocks w,
       bases block_model !! 0 = Some (BlockTensor t) /\ t !! 1 = Some blocks
       /\ get_relation_weights block_model 0 1 = Some w
       /\ mat_shape (embedding_dim block_model) (embedding_dim block_model) w
       /\ (forall b blk u v,
             blocks !! b = Some blk ->
             u < embedding_dim block_model / num_bases block_model ->
             v < embedding_dim block_model / num_bases block_model ->
             entry w (b * (embedding_dim block_model / num_bases block_model) + u)
                     (b * (embedding_dim block_model / num_bases block_model) + v)
             = entry blk u v)
       /\ (forall j k,
             j < embedding_dim block_model -> k < embedding_dim block_model ->
             j / (embedding_dim block_model / num_bases block_model)
             <> k / (embedding_dim block_model / num_bases block_model) ->
             entry w j k = Some R0).
Proof.
  split; [exact block_model_ok|]. split; [simpl; lia|]. split; [simpl; lia|].
  apply (block_weights_block_diagonal block_model 0 1 block_model_ok);
    simpl; lia.
Defined.

(** C8 on [isolated_model]: relation 1 has no edge, node 2 gets no
    message. *)
Lemma propagation_empty_relations_and_degrees_witness :
  let self := isolated_model in
  let x := entity_embeddings self in
  relation_messages self 0 1 x (sources self) (targets self) (edge_types self)
    None (zeros_like x)
  = Some (zeros_like x)
  /\ degrees [1; 0; 1] = Some [2; 1; 2]
  /\ (exists out,
        aggregate self 0 x (sources self) (targets self) (edge_types self) None
        = Some out
        /\ out !! 2 = Some [0; 0]%Z).
Proof.
  cbv zeta.
  destruct (propagation_empty_relations_and_degrees isolated_model 0 1
              (entity_embeddings isolated_model) (sources isolated_model)
              (targets isolated_model) (edge_types isolated_model) None
              (zeros_like (entity_embeddings isolated_model))
              [0; 1; 0] [1; 0; 1] [])
    as (Hskip & (Hdeg & _) & Hzero).
  split; [apply (Hskip [false]); reflexivity|].
  split; [exact Hdeg|].
  exists [[6; 8]; [2; 4]; [0; 0]]%Z. split; [reflexivity|].
  apply (Hzero [[6; 8]; [2; 4]; [0; 0]]%Z 2); reflexivity.
Defined.

(** C10 on [isolated_model]: node 2 has no edge; its row after the layer
    is the activation of the bias. *)
Lemma isolated_node_row_witness :
  let self := isolated_model in
  let x := entity_embeddings self in
  let out := [[71; 81]; [27; 37]; [5; 0]]%Z in
  layer self 0 (sources self) (targets self) (edge_types self) None None x
  = Some out
  /\ incident (num_relations self) (sources self) (targets self)
       (edge_types self) None 2 = false
  /\ (exists acc looped biased b,
         aggregate self 0 x (sources self) (targets self) (edge_types self) None
         = Some acc
         /\ acc !! 2 = Some (replicate 2 R0)
         /\ self_loop acc [[10; 0]; [0; 10]]%Z None = Some looped
         /\ looped !! 2 = Some (replicate 2 R0)
         /\ add_bias self 0 looped = Some biased
         /\ bias_or_zero self 0 2 = Some b
         /\ biased !! 2 = Some b
         /\ out !! 2 = normalize_activate_row self 0 biased b)
  /\ (forall row', length row' = 2 ->
        layer self 0 (sources self) (targets self) (edge_types self) None None
          (<[2 := row']> x)
        = Some out).
Proof.
  cbv zeta. split; [reflexivity|]. split; [reflexivity|].
  apply (isolated_node_row isolated_model 0 (sources isolated_model)
           (targets isolated_model) (edge_types isolated_model) None None
           (entity_embeddings isolated_model) [[71; 81]; [27; 37]; [5; 0]]%Z
           2 [5; 6]%Z [[10; 0]; [0; 10]]%Z).
  - reflexivity.
  - reflexivity.
  - reflexivity.
  - reflexivity.
  - repeat split; repeat constructor.
  - intros bias _ [= <-]. reflexivity.
Defined.

(** X1 on the graph of C4, without hops: the edge [0 -> 1] is selected,
    its target being the start node. *)
Lemma neighborhood_zero_hops_witness :
  get_neighborhood [1] [0; 0; 0; 3] [2; 1; 2; 0] 0 4 false
  = Some [false; true; false; false]
  /\ ([false; true; false; false] !! 1 = Some true
      <-> (exists t, [2; 1; 2; 0] !! 1 = Some t /\ t ∈ [1])
          \/ (false = true /\ exists s, [0; 0; 0; 3] !! 1 = Some s /\ s ∈ [1])).
Proof.
  split; [reflexivity|].
  apply (neighborhood_zero_hops [1] [0; 0; 0; 3] [2; 1; 2; 0] 4 false
           [false; true; false; false] 1); [reflexivity|simpl; lia].
Defined.

Lemma basis_model_model_ok : model_ok basis_model.
Proof.
  split; [left; exact basis_model_ok|].
  do 3 (split; [reflexivity|]).
  do 2 (split; [simpl; repeat constructor|]).
  split; [right; left; reflexivity|].
  split; [intros [=]|]. split; [intros [=]|]. intros acts [=].
Qed.

(** X3 on [basis_model], the whole graph. *)
Lemma propagate_returns_witness :
  model_ok basis_model
  /\ layer_shapes_ok basis_model
  /\ mat_shape 3 2 (entity_embeddings basis_model)
  /\ exists x, propagate basis_model None (fun _ => 0%Z) (fun _ => 0%Z) = Some x
       /\ length x = num_entities basis_model
       /\ (enriched_embeddings basis_model = None ->
           (enrich_embeddings basis_model None (fun _ => 0%Z) (fun _ => 0%Z)).1
           = Some x)
       /\ is_Some (enrich_embeddings basis_model None
                     (fun _ => 0%Z) (fun _ => 0%Z)).1.
Proof.
  assert (layer_shapes_ok basis_model) as Hs by (split; constructor).
  assert (mat_shape 3 2 (entity_embeddings basis_model)) as Hx.
  { split; [reflexivity|repeat constructor]. }
  split; [exact basis_model_model_ok|]. split; [exact Hs|].
  split; [exact Hx|].
  apply (propagate_returns basis_model None (fun _ => 0%Z) (fun _ => 0%Z)
           basis_model_model_ok Hs Hx I).
Defined.

(** X4 on [basis_model]: the batch [(0, 0, 1); (2, 1, 0)] names every node. *)
Lemma propagate_batch_covering_all_nodes_witness :
  propagate basis_model (Some [(0, 0, 1); (2, 1, 0)]) (fun _ => 0%Z) (fun _ => 0%Z)
  = propagate basis_model None (fun _ => 0%Z) (fun _ => 0%Z).
Proof.
  apply (propagate_batch_covering_all_nodes basis_model [(0, 0, 1); (2, 1, 0)]
           (fun _ => 0%Z) (fun _ => 0%Z)).
  - reflexivity.
  - reflexivity.
  - simpl. repeat constructor.
  - simpl. repeat constructor.
  - simpl. repeat constructor.
  - simpl. intros v Hv.
    destruct v as [|[|[|v]]]; [repeat constructor..|lia].
Defined.

End Witnesses.

(** ** The results on allocation, scoring, reversal and the pipeline,
    on the example inputs *)

Section LifecycleWitnesses.
Import Examples.

(** X5 on [fresh_model]. *)
Lemma init_empty_weights_allocates_witness :
  let env := init_env_with (QArith_base.Qmake 1 10) in
  unallocated fresh_model
  /\ config_ok fresh_model
  /\ graph_ok fresh_model
  /\ exists m,
       init_empty_weights_ env fresh_model = Some m
       /\ model_ok m
       /\ (forall i r, i < num_layers fresh_model ->
             r <= num_relations fresh_model ->
             is_Some (get_relation_weights m i r))
       /\ enriched_embeddings m = enriched_embeddings fresh_model.
Proof.
  cbv zeta.
  assert (unallocated fresh_model) as Hu by (by repeat split).
  assert (config_ok fresh_model) as Hc.
  { split; [cbn; lia|]. split; [cbn; lia|].
    split; [left; reflexivity|right; left; reflexivity]. }
  assert (graph_ok fresh_model) as Hg.
  { repeat split; repeat constructor. }
  split; [exact Hu|]. split; [exact Hc|]. split; [exact Hg|].
  apply (init_empty_weights_allocates (init_env_with (QArith_base.Qmake 1 10))
           fresh_model Hu Hc Hg).
  - reflexivity.
  - by eexists.
  - intros [=].
Defined.

(** X6 on [fresh_model]: a second call with other random entries. *)
Lemma init_empty_weights_keeps_parameters_witness :
  let env := init_env_with (QArith_base.Qmake 1 10) in
  let env' := init_env_with (QArith_base.Qmake 7 10) in
  exists m,
    init_empty_weights_ env fresh_model = Some m
    /\ (bases fresh_model <> [] -> bases m = bases fresh_model)
    /\ (att fresh_model <> [] -> att m = att fresh_model)
    /\ (biases fresh_model <> [] -> biases m = biases fresh_model)
    /\ (batch_norms fresh_model <> [] ->
        batch_norms m = batch_norms fresh_model)
    /\ (forall acts, activations fresh_model = Some acts ->
          activations m = Some acts)
    /\ exists m',
         init_empty_weights_ env' m = Some m'
         /\ bases m' = bases m /\ att m' = att m /\ biases m' = biases m
         /\ batch_norms m' = batch_norms m /\ activations m' = activations m.
Proof.
  cbv zeta. eexists. split; [reflexivity|].
  apply (init_empty_weights_keeps_parameters
           (init_env_with (QArith_base.Qmake 1 10))
           (init_env_with (QArith_base.Qmake 7 10)) fresh_model);
    reflexivity.
Defined.

(** X7 on [fresh_batch_norm_model]: two layers, one batch normalisation. *)
Lemma batch_norm_allocated_once_witness :
  let env := init_env_with (QArith_base.Qmake 1 10) in
  exists m,
    init_empty_weights_ env fresh_batch_norm_model = Some m
    /\ batch_norms m = [new_batch_norm env]
    /\ (2 <= num_layers fresh_batch_norm_model ->
        forall batch edge_rand node_rand,
          propagate m batch edge_rand node_rand = None
          /\ (batch <> None \/ enriched_embeddings fresh_batch_norm_model = None ->
              enrich_embeddings m batch edge_rand node_rand = (None, m))).
Proof.
  cbv zeta. eexists. split; [reflexivity|].
  apply (batch_norm_allocated_once (init_env_with (QArith_base.Qmake 1 10))
           fresh_batch_norm_model); reflexivity.
Defined.

(** X9 on [block_args]: the bias asked for is switched off. *)
Lemma init_ok_postconditions_witness :
  exists c,
    Init.init block_args = Init.Ok c
    /\ Init.self_num_bases c = 2%Z
    /\ Init.self_use_bias c = false
    /\ Init.self_use_bias c && Init.self_use_batch_norm c = false.
Proof.
  eexists. split; [reflexivity|].
  destruct (init_ok_postconditions block_args _ eq_refl)
    as (_ & Hn & _ & _ & _ & _ & _ & Hb & Hx).
  split; [exact Hn|]. split; [exact Hb|exact Hx].
Defined.

(** X11 on [basis_model], the whole graph. *)
Lemma propagate_shape_witness :
  model_ok basis_model
  /\ layer_shapes_ok basis_model
  /\ mat_shape 3 2 (entity_embeddings basis_model)
  /\ exists x,
       propagate basis_model None (fun _ => 0%Z) (fun _ => 0%Z) = Some x
       /\ mat_shape 3 2 x.
Proof.
  assert (layer_shapes_ok basis_model) as Hs by (split; constructor).
  assert (mat_shape 3 2 (entity_embeddings basis_model)) as Hx.
  { split; [reflexivity|repeat constructor]. }
  split; [exact basis_model_model_ok|]. split; [exact Hs|].
  split; [exact Hx|].
  apply (propagate_shape basis_model None (fun _ => 0%Z) (fun _ => 0%Z)
           basis_model_model_ok Hs I Hx).
Defined.

(** X12 on [basis_model] with the DistMult base model. *)
Lemma score_t_agrees_with_score_hrt_witness :
  let er := fun _ : nat => 0%Z in
  exists scores,
    (score_t basis_model distmult_base [(0, 0); (2, 1)] er er).1 = Some scores
    /\ length scores = 2
    /\ forall b h r t,
         [(0, 0); (2, 1)] !! b = Some (h, r) ->
         exists row,
           scores !! b = Some row
           /\ (score_hrt basis_model distmult_base false [(h, r, t)] er er).1
              = (fun s => [[s]]) <$> row !! t
           /\ (score_hrt basis_model distmult_base false [(h, r, t)] er er).2
              = (score_t basis_model distmult_base [(0, 0); (2, 1)] er er).2.
Proof.
  cbv zeta. eexists. split; [vm_compute; reflexivity|].
  apply (score_t_agrees_with_score_hrt basis_model distmult_base
           [(0, 0); (2, 1)] (fun _ => 0%Z) (fun _ => 0%Z)).
  reflexivity.
Defined.

(** X13 on [basis_model] with the DistMult base model. *)
Lemma score_h_agrees_with_score_hrt_witness :
  let er := fun _ : nat => 0%Z in
  exists scores,
    (score_h basis_model distmult_base [(0, 1); (1, 2)] er er).1 = Some scores
    /\ length scores = 2
    /\ forall b h r t,
         [(0, 1); (1, 2)] !! b = Some (r, t) ->
         exists row,
           scores !! b = Some row
           /\ (score_hrt basis_model distmult_base false [(h, r, t)] er er).1
              = (fun s => [[s]]) <$> row !! h
           /\ (score_hrt basis_model distmult_base false [(h, r, t)] er er).2
              = (score_h basis_model distmult_base [(0, 1); (1, 2)] er er).2.
Proof.
  cbv zeta. eexists. split; [vm_compute; reflexivity|].
  apply (score_h_agrees_with_score_hrt basis_model distmult_base
           [(0, 1); (1, 2)] (fun _ => 0%Z) (fun _ => 0%Z)).
  reflexivity.
Defined.

(** X14 on [basis_model]: a batch with sparse messages. *)
Lemma score_hrt_returns_iff_witness :
  let er := fun _ : nat => 0%Z in
  let batch := [(0, 0, 1); (2, 1, 0)] in
  exists x,
    (enrich_embeddings basis_model (Some batch) er er).1 = Some x
    /\ (is_Some (score_hrt basis_model distmult_base true batch er er).1 <->
          Forall (fun hrt : triple =>
                    hrt.1.1 < length x
                    /\ hrt.1.2 < length (relation_embeddings distmult_base)
                    /\ hrt.2 < length x) batch)
    /\ (forall scores,
          (score_hrt basis_model distmult_base true batch er er).1
          = Some scores ->
          length scores = length batch
          /\ Forall (fun row => length row = 1) scores)
    /\ (true = true ->
        (score_hrt basis_model distmult_base true batch er er).2 = basis_model
        /\ (score_hrt basis_model distmult_base true batch er er).1
           = (score_hrt (set_enriched_embeddings basis_model None)
                distmult_base true batch er er).1).
Proof.
  cbv zeta. eexists. split; [vm_compute; reflexivity|].
  apply (score_hrt_returns_iff basis_model distmult_base true
           [(0, 0, 1); (2, 1, 0)] (fun _ => 0%Z) (fun _ => 0%Z)).
  reflexivity.
Defined.

(** X15 on [basis_model], over the integers. *)
Lemma propagate_reverse_edges_witness :
  let er := fun _ : nat => 0%Z in
  propagate (reverse_edges basis_model) None er er
  = propagate basis_model None er er
  /\ (enrich_embeddings (reverse_edges basis_model) None er er).1
     = (enrich_embeddings basis_model None er er).1.
Proof.
  cbv zeta.
  apply (propagate_reverse_edges basis_model (fun _ => 0%Z) (fun _ => 0%Z)).
Defined.

(** X16 in [pipeline_world]: the instances 1 handed to the constructor are
    replaced by the pair the factory makes. *)
Lemma run_replaces_supplied_instances_witness :
  exists p,
    Pipeline.init pipeline_world pipeline_config
      (Pipeline.PyInstances 1) Pipeline.PyNone = Pipeline.Return p
    /\ Pipeline.has_preprocessed_instances p = false
    /\ Pipeline.training_instances p = Pipeline.PyInstances 1
    /\ Pipeline.training_instances (Pipeline.run pipeline_world p).2
       = Pipeline.PyTuple 7 8.
Proof.
  eexists. split; [vm_compute; reflexivity|].
  destruct (run_replaces_supplied_instances pipeline_world pipeline_config
              (Pipeline.PyInstances 1) Pipeline.PyNone _ "Training_mode"
              eq_refl eq_refl eq_refl (or_introl eq_refl))
    as (Hp & Ht & Hrun).
  split; [exact Hp|]. split; [exact Ht|].
  exact (proj1 Hrun).
Defined.

(** X19 on the undirected path [0 - 1 - 2] with start node 0 and one hop:
    node 2, two steps away, is marked in the first round. *)
Lemma neighborhood_sound_witness :
  get_neighborhood [0] [1; 1] [2; 0] 1 3 true = Some [true; true]
  /\ neighborhood_edges [0] [1; 1] [2; 0] (2 * 1) true !! 0 = Some true.
Proof.
  split; [reflexivity|].
  apply (neighborhood_sound [0] [1; 1] [2; 0] 1 3 true [true; true] 0);
    reflexivity.
Defined.

End LifecycleWitnesses.

(** ** The results on the constructor and the selector kernels,
    on the example inputs *)

Section KernelWitnesses.
Import Examples.

(** C9 on [dropout_model]: training mode, both rates 0, every draw one half,
    the batch [(0, 0, 1)], and the selector on the two kernels. *)
Lemma enrich_deterministic_up_to_selector_witness :
  let self := dropout_model in
  let batch := Some [(0, 0, 1)] in
  let last := get_neighborhood_with index_put in
  let first := get_neighborhood_with index_put_first in
  dropout_inactive self draws_half draws_half = true
  /\ selector_agrees last first self batch draws_half
  /\ (enrich_embeddings_with last self batch draws_half draws_half).1
     = (enrich_embeddings_with first self batch draws_half draws_half).1
  /\ (enrich_embeddings_with first
        (enrich_embeddings_with last self batch draws_half draws_half).2
        batch draws_half draws_half).1
     = (enrich_embeddings_with last self batch draws_half draws_half).1
  /\ (batch = None ->
      forall select,
        (enrich_embeddings_with select self batch draws_half draws_half).1
        = (enrich_embeddings self batch draws_half draws_half).1).
Proof.
  cbv zeta.
  assert (dropout_inactive dropout_model draws_half draws_half = true) as Hd
    by reflexivity.
  assert (selector_agrees (get_neighborhood_with index_put)
            (get_neighborhood_with index_put_first) dropout_model
            (Some [(0, 0, 1)]) draws_half) as Hs by reflexivity.
  split; [exact Hd|]. split; [exact Hs|].
  apply (enrich_deterministic_up_to_selector
           (get_neighborhood_with index_put)
           (get_neighborhood_with index_put_first)
           dropout_model (Some [(0, 0, 1)]) draws_half draws_half
           draws_half draws_half Hd Hd Hs).
Defined.

(** X2 on the graph [0 -> 1, 0 -> 2, 3 -> 0] with the start node 1 and the
    kernel in which the first write stays. *)
Lemma neighborhood_never_unmarks_witness :
  kernel_ok index_put_first
  /\ (forall nm nm' v,
        neighborhood_round_with index_put_first [0; 0; 3] [1; 2; 0] true nm
        = Some nm' ->
        nm !! v = Some true -> nm' !! v = Some true)
  /\ (forall em j,
        get_neighborhood_with index_put_first [1] [0; 0; 3] [1; 2; 0] 2 4 true
        = Some em ->
        j < length em ->
        (exists t, [1; 2; 0] !! j = Some t /\ t ∈ [1])
        \/ (true = true /\ exists s, [0; 0; 3] !! j = Some s /\ s ∈ [1]) ->
        em !! j = Some true).
Proof.
  split; [exact kernel_ok_index_put_first|].
  apply (neighborhood_never_unmarks index_put_first [1] [0; 0; 3] [1; 2; 0]
           2 4 true kernel_ok_index_put_first).
Defined.

(** X10 on [heuristic_args]: three relations give two bases, and the
    constructor returns when the base constructors and the allocation do. *)
Lemma init_heuristic_witness :
  let super_init := Init.Ok tt in
  let allocation := fun _ : Init.checked => Init.Ok tt in
  (Init.raised (Init.init heuristic_args) = false
   <-> (1 <= Init.num_relations heuristic_args)%Z)
  /\ (Init.raised (construct super_init allocation heuristic_args) = false <->
        Init.raised super_init = false
        /\ (1 <= Init.num_relations heuristic_args)%Z
        /\ exists c, Init.init heuristic_args = Init.Ok c
             /\ Init.raised (allocation c) = false)
  /\ forall c, Init.init heuristic_args = Init.Ok c ->
       Init.self_num_bases c = (Init.num_relations heuristic_args / 2 + 1)%Z
       /\ (1 <= Init.self_num_bases c <= Init.num_relations heuristic_args)%Z.
Proof.
  cbv zeta.
  apply (init_heuristic (Init.Ok tt) (fun _ => Init.Ok tt) heuristic_args
           eq_refl eq_refl eq_refl).
  reflexivity.
Defined.

End KernelWitnesses.
